(** * Namespace / type source reorganizer of mcp-dotnetdc

    A shallow embedding of the text-splitting core of the server:
    - [splitByNamespace] of the decompiler module and its duplicate
      [DecompilerService._splitByNamespace] of [src/index.js],
    - the header (using-directive) extraction of [decompileAndSplit],
    - [DecompilerService._splitTypes] of [src/index.js].

    JavaScript strings are sequences of 16-bit code units; they are modelled as
    lists of [N].  The three functions are driven by regular expressions, so
    the file first embeds the backtracking matcher of ECMA-262 (continuation
    passing, greedy quantifiers, the empty-iteration check of RepeatMatcher)
    for the constructs the source uses, then the string and [Map] primitives,
    then the functions themselves, statement by statement. *)

From Stdlib Require Import Ascii String.
From Stdlib Require Import List Arith NArith ZArith Bool Lia Sorted.
From Stdlib Require QArith.
Import ListNotations.

(* ------------------------------------------------------------------ *)
(** ** Code units and strings *)

Definition char := N.
Definition text := list char.

Definition ch (a : ascii) : char := N_of_ascii a.

(** [js s] is the JavaScript string literal written [s]: every character is
    its code unit, and the escape sequence backslash-n is the line feed. *)
Fixpoint js (s : string) : text :=
  match s with
  | EmptyString => []
  | String a s' =>
      match a, s' with
      | "\"%char, String "n"%char s'' => 10%N :: js s''
      | _, _ => ch a :: js s'
      end
  end.

Definition inRange (lo hi : ascii) (c : char) : bool :=
  (ch lo <=? c)%N && (c <=? ch hi)%N.

Definition isChar (a : ascii) (c : char) : bool := (c =? ch a)%N.

(** LineTerminator of ECMA-262: LF, CR, LS, PS. *)
Definition isLineTerminator (c : char) : bool :=
  (c =? 10)%N || (c =? 13)%N || (c =? 8232)%N || (c =? 8233)%N.

(** WhiteSpace or LineTerminator: the class [\s], and what [trim] strips. *)
Definition isSpace (c : char) : bool :=
  (c =? 9)%N || (c =? 11)%N || (c =? 12)%N || (c =? 32)%N || (c =? 160)%N
  || (c =? 5760)%N || ((8192 <=? c)%N && (c <=? 8202)%N)
  || (c =? 8239)%N || (c =? 8287)%N || (c =? 12288)%N || (c =? 65279)%N
  || isLineTerminator c.

(** [A-Za-z0-9_]: the word characters of [\b]. *)
Definition isWordChar (c : char) : bool :=
  inRange "a" "z" c || inRange "A" "Z" c || inRange "0" "9" c || isChar "_" c.

Fixpoint text_eqb (a b : text) : bool :=
  match a, b with
  | [], [] => true
  | x :: a', y :: b' => (x =? y)%N && text_eqb a' b'
  | _, _ => false
  end.

(** [s.slice(a, b)] for non-negative [a] and [b]: both ends are clamped to the
    length, and the result is empty when [b <= a]. *)
Definition slice (s : text) (a b : nat) : text := firstn (b - a) (skipn a s).

(** [s.slice(a)]. *)
Definition slice_from (s : text) (a : nat) : text := skipn a s.

Fixpoint trimStart (s : text) : text :=
  match s with
  | c :: s' => if isSpace c then trimStart s' else s
  | [] => []
  end.

Definition trimEnd (s : text) : text := rev (trimStart (rev s)).

Definition trim (s : text) : text := trimEnd (trimStart s).

(** [s.indexOf(c, from)] for a one-unit needle; [None] stands for [-1]. *)
Fixpoint indexOf_at (c : char) (rest : text) (i : nat) : option nat :=
  match rest with
  | [] => None
  | x :: rest' => if (x =? c)%N then Some i else indexOf_at c rest' (S i)
  end.

Definition indexOf (s : text) (c : char) (from : nat) : option nat :=
  indexOf_at c (skipn from s) from.

(** [parts.join(sep)]. *)
Fixpoint join (sep : text) (parts : list text) : text :=
  match parts with
  | [] => []
  | [p] => p
  | p :: ps => p ++ sep ++ join sep ps
  end.

(* ------------------------------------------------------------------ *)
(** ** Regular expressions (ECMA-262 pattern semantics) *)

Inductive regex : Type :=
| Empty                              (* the empty alternative *)
| Chr (p : char -> bool)             (* a literal character or a class *)
| Seq (r1 r2 : regex)                (* r1 r2 *)
| Alt (r1 r2 : regex)                (* r1|r2 *)
| Star (r : regex)                   (* r*, greedy *)
| Group (n : nat) (r : regex)        (* the n-th capturing parenthesis *)
| AssertStart                        (* ^ *)
| AssertEnd                          (* $ *)
| WordBoundary.                      (* \b *)

(** [r+] and [r?] (greedy).  Every operand of [+] and [?] in the source
    consumes at least one unit, so the empty-iteration check makes no
    difference for them. *)
Definition Plus (r : regex) : regex := Seq r (Star r).
Definition Opt (r : regex) : regex := Alt r Empty.

Fixpoint lit_units (s : text) : regex :=
  match s with
  | [] => Empty
  | [c] => Chr (N.eqb c)
  | c :: s' => Seq (Chr (N.eqb c)) (lit_units s')
  end.

Definition lit (s : string) : regex := lit_units (js s).

Fixpoint alts (rs : list regex) : regex :=
  match rs with
  | [] => Empty
  | [r] => r
  | r :: rs' => Alt r (alts rs')
  end.

(** A regular expression object: its pattern and its [m] flag. *)
Record RegExp : Type := { pattern : regex; multiline : bool }.

(** The capture array: group number to (start, end) offsets. *)
Definition captures := list (nat * (nat * nat)).

(** MatchState: endIndex and captures. *)
Definition state : Type := nat * captures.

Fixpoint capture (n : nat) (caps : captures) : option (nat * nat) :=
  match caps with
  | [] => None
  | (k, se) :: caps' => if k =? n then Some se else capture n caps'
  end.

Section Matcher.

Variable input : text.
Variable multi : bool.

Definition prevIsLineTerminator (e : nat) : bool :=
  match e with
  | 0 => false
  | S e' => match nth_error input e' with
            | Some c => isLineTerminator c
            | None => false
            end
  end.

Definition isWordCharAt (e : nat) : bool :=
  match nth_error input e with
  | Some c => isWordChar c
  | None => false
  end.

Definition isWordCharBefore (e : nat) : bool :=
  match e with
  | 0 => false
  | S e' => isWordCharAt e'
  end.

Definition assertStart (e : nat) : bool :=
  (e =? 0) || (multi && prevIsLineTerminator e).

Definition assertEnd (e : nat) : bool :=
  (e =? length input)
  || (multi && match nth_error input e with
               | Some c => isLineTerminator c
               | None => false
               end).

Definition wordBoundary (e : nat) : bool :=
  negb (eqb (isWordCharBefore e) (isWordCharAt e)).

(** RepeatMatcher for [r*] (min 0, no upper bound, greedy), given the
    matcher [mr] of [r] and the continuation [c]: try one more iteration
    first, reject an iteration that consumed nothing, fall back to [c].
    ECMA-262 writes it as a general recursion; here the number of further
    iterations is bounded by [fuel], and [m] starts it with the number of
    units left, which iterations that each consume something never exceed:
    [m_Star_unfold] shows that the result satisfies the recursive equation
    of the standard. *)
Fixpoint repeatMatcher (mr : state -> (state -> option state) -> option state)
  (c : state -> option state) (fuel : nat) (x : state) : option state :=
  match fuel with
  | 0 => c x
  | S fuel' =>
      match mr x (fun y => if fst y =? fst x then None
                           else repeatMatcher mr c fuel' y) with
      | Some z => Some z
      | None => c x
      end
  end.

(** The matcher [m r x c]: match [r] at state [x], then continue with [c];
    the first success in backtracking order wins. *)
Fixpoint m (r : regex) (x : state) (c : state -> option state)
  : option state :=
  match r with
  | Empty => c x
  | Chr p =>
      match nth_error input (fst x) with
      | Some u => if p u then c (S (fst x), snd x) else None
      | None => None
      end
  | Seq r1 r2 => m r1 x (fun y => m r2 y c)
  | Alt r1 r2 =>
      match m r1 x c with
      | Some z => Some z
      | None => m r2 x c
      end
  | Star r1 => repeatMatcher (m r1) c (length input - fst x) x
  | Group n r1 =>
      m r1 x (fun y => c (fst y, (n, (fst x, fst y)) :: snd y))
  | AssertStart => if assertStart (fst x) then c x else None
  | AssertEnd => if assertEnd (fst x) then c x else None
  | WordBoundary => if wordBoundary (fst x) then c x else None
  end.

(** One attempt at offset [i], as RegExpBuiltinExec makes it. *)
Definition matchAt (r : regex) (i : nat) : option state :=
  m r (i, []) (fun y => Some y).

(** Try [i], [i+1], ... up to [i + n]. *)
Fixpoint matchFrom (r : regex) (n i : nat) : option (nat * state) :=
  match matchAt r i with
  | Some y => Some (i, y)
  | None =>
      match n with
      | 0 => None
      | S n' => matchFrom r n' (S i)
      end
  end.

(** What [r] can match between two offsets, whatever the backtracking
    order: the declarative reading of the pattern, used to reason about the
    matches the program finds. *)
Inductive Matches : regex -> nat -> nat -> Prop :=
| M_Empty e : Matches Empty e e
| M_Chr p e u :
    nth_error input e = Some u -> p u = true -> Matches (Chr p) e (S e)
| M_Seq r1 r2 e e1 e2 :
    Matches r1 e e1 -> Matches r2 e1 e2 -> Matches (Seq r1 r2) e e2
| M_AltL r1 r2 e e1 : Matches r1 e e1 -> Matches (Alt r1 r2) e e1
| M_AltR r1 r2 e e1 : Matches r2 e e1 -> Matches (Alt r1 r2) e e1
| M_StarDone r e : Matches (Star r) e e
| M_StarIter r e e1 e2 :
    Matches r e e1 -> e1 <> e -> Matches (Star r) e1 e2 ->
    Matches (Star r) e e2
| M_Group n r e e1 : Matches r e e1 -> Matches (Group n r) e e1
| M_AssertStart e : assertStart e = true -> Matches AssertStart e e
| M_AssertEnd e : assertEnd e = true -> Matches AssertEnd e e
| M_WordBoundary e : wordBoundary e = true -> Matches WordBoundary e e.

End Matcher.

(** The match object of [exec]: [match.index], the end offset, the groups. *)
Record MatchResult : Type :=
  { match_index : nat; match_end : nat; match_caps : captures }.

(** [match[n]] as a string ([None] is [undefined]). *)
Definition group (s : text) (mt : MatchResult) (n : nat) : option text :=
  match capture n (match_caps mt) with
  | Some (a, b) => Some (slice s a b)
  | None => None
  end.

(** RegExpBuiltinExec for a regular expression with the [g] flag: the search
    starts at [lastIndex]; the result is the match ([None] for [null]) and the
    new value of [lastIndex], which is the end of the match, or 0 after a
    failure. *)
Definition exec (R : RegExp) (s : text) (lastIndex : nat)
  : option MatchResult * nat :=
  if length s <? lastIndex then (None, 0)
  else
    match matchFrom s (multiline R) (pattern R) (length s - lastIndex)
            lastIndex with
    | Some (i, y) =>
        (Some {| match_index := i; match_end := fst y; match_caps := snd y |},
         fst y)
    | None => (None, 0)
    end.

(** [s.search(R)]: the offset of the first match from offset 0; [None] stands
    for [-1]. *)
Definition search (R : RegExp) (s : text) : option nat :=
  match matchFrom s (multiline R) (pattern R) (length s) 0 with
  | Some (i, _) => Some i
  | None => None
  end.

(** [s.match(R)] for a regular expression with the [g] flag: the matched
    substrings from offset 0 on ([None] for [null], when there is none).  After
    an empty match the search resumes one unit further.  [fuel] bounds the
    number of calls of [exec]. *)
Fixpoint matchAll_loop (fuel : nat) (R : RegExp) (s : text) (lastIndex : nat)
  : option (list text) :=
  match fuel with
  | 0 => None
  | S fuel' =>
      match exec R s lastIndex with
      | (None, _) => Some []
      | (Some mt, lastIndex') =>
          let next := if match_end mt =? match_index mt
                      then S lastIndex'
                      else lastIndex' in
          match matchAll_loop fuel' R s next with
          | Some l => Some (slice s (match_index mt) (match_end mt) :: l)
          | None => None
          end
      end
  end.

Definition string_match (s : text) (R : RegExp) : option (option (list text)) :=
  match matchAll_loop (S (S (length s))) R s 0 with
  | Some [] => Some None
  | Some l => Some (Some l)
  | None => None
  end.

(* ------------------------------------------------------------------ *)
(** ** [Map] with string keys: insertion-ordered association list *)

Definition Map := list (text * text).

Fixpoint map_get (mp : Map) (k : text) : option text :=
  match mp with
  | [] => None
  | (k', v) :: mp' => if text_eqb k' k then Some v else map_get mp' k
  end.

(** [set] keeps the position of a key that is already there and adds a new
    key at the end. *)
Fixpoint map_set (mp : Map) (k v : text) : Map :=
  match mp with
  | [] => [(k, v)]
  | (k', v') :: mp' =>
      if text_eqb k' k then (k', v) :: mp' else (k', v') :: map_set mp' k v
  end.

(* ------------------------------------------------------------------ *)
(** ** Character classes of the three patterns *)

(** [[A-Za-z_]] *)
Definition identStart (c : char) : bool :=
  inRange "A" "Z" c || inRange "a" "z" c || isChar "_" c.

(** [[A-Za-z0-9_]] *)
Definition identPart (c : char) : bool :=
  inRange "A" "Z" c || inRange "a" "z" c || inRange "0" "9" c || isChar "_" c.

(** [[A-Za-z0-9_\.]] *)
Definition dottedPart (c : char) : bool := identPart c || isChar "." c.

(** [[^;]] and [[^>]] *)
Definition notSemicolon (c : char) : bool := negb (isChar ";" c).
Definition notGreater (c : char) : bool := negb (isChar ">" c).

Definition global_key : text := js "(global)".

Inductive Kind : Type := file | block.

(** An element of [tokens]. *)
Record token : Type := { index : nat; name : text; kind : Kind }.

(** The brace-counting loop shared by the namespace and the type splitter:
    [while (j < text.length) { const ch = text[j++]; ... }] started at [j] with
    [rest] the units from [j] on; the result is the final [j]. *)
Fixpoint scanBraces (rest : text) (depth : Z) (j : nat) : nat :=
  match rest with
  | [] => j
  | c :: rest' =>
      if isChar "{" c then scanBraces rest' (depth + 1)%Z (S j)
      else if isChar "}" c then
        if (depth - 1 =? 0)%Z then S j
        else scanBraces rest' (depth - 1)%Z (S j)
      else scanBraces rest' depth (S j)
  end.

(** [s.startsWith(needle)] and [s.includes(needle)]. *)
Fixpoint startsWith (s needle : text) {struct needle} : bool :=
  match needle, s with
  | [], _ => true
  | n :: needle', c :: s' => (c =? n)%N && startsWith s' needle'
  | _ :: _, [] => false
  end.

Fixpoint includes (s needle : text) : bool :=
  startsWith s needle
  || match s with
     | [] => false
     | _ :: s' => includes s' needle
     end.

(** [R.test(s)] for a pattern without the [g] flag: is there a match from
    offset 0 on. *)
Definition test (R : RegExp) (s : text) : bool :=
  match search R s with
  | Some _ => true
  | None => false
  end.

(** [s.replace(R, replacement)] for a pattern without the [g] flag and a
    replacement without [$]: the first match from offset 0 on is replaced. *)
Definition replace (R : RegExp) (s replacement : text) : text :=
  match matchFrom s (multiline R) (pattern R) (length s) 0 with
  | Some (i, y) => slice s 0 i ++ replacement ++ slice_from s (fst y)
  | None => s
  end.

(** A letter of a pattern with the [i] flag.  Canonicalize compares upper
    cases and never takes a unit above 127 to one below, so the letter
    matches its two ASCII forms and nothing else. *)
Definition letterI (lower upper : ascii) (c : char) : bool :=
  isChar lower c || isChar upper c.

(** The pattern "/\.(dll|exe)$/i", written once in [decompileAndSplit] and
    once in [decompileToProjectStructure]. *)
Definition assemblyExtension : RegExp :=
  {| pattern :=
       Seq (Chr (isChar "."))
      (Seq (Group 1 (Alt (Seq (Chr (letterI "d" "D"))
                         (Seq (Chr (letterI "l" "L"))
                              (Chr (letterI "l" "L"))))
                         (Seq (Chr (letterI "e" "E"))
                         (Seq (Chr (letterI "x" "X"))
                              (Chr (letterI "e" "E"))))))
           AssertEnd);
     multiline := false |}.

(** [s.split(R)] for a pattern without groups: the splitter is tried at each
    offset [q] in turn (a sticky match); a match that ends where the current
    piece starts is skipped; otherwise the piece from [p] to [q] is added and
    both move to the end of the match; the rest of the string is the last
    piece.  [None] when [fuel] turns of the loop were not enough. *)
Fixpoint split_loop (fuel : nat) (R : RegExp) (s : text) (p q : nat)
  (A : list text) : option (list text) :=
  match fuel with
  | 0 => None
  | S fuel' =>
      if length s <=? q then Some (A ++ [slice s p (length s)])
      else
        match matchAt s (multiline R) (pattern R) q with
        | None => split_loop fuel' R s p (S q) A
        | Some y =>
            let e := Nat.min (fst y) (length s) in
            if e =? p then split_loop fuel' R s p (S q) A
            else split_loop fuel' R s e e (A ++ [slice s p q])
        end
  end.

Definition split (R : RegExp) (s : text) : option (list text) :=
  if length s =? 0 then
    match matchAt s (multiline R) (pattern R) 0 with
    | Some _ => Some []
    | None => Some [s]
    end
  else split_loop (2 * length s + 2) R s 0 0 [].

(** [Boolean(s)] for a string: false for the empty string only. *)
Definition Boolean (s : text) : bool :=
  match s with
  | [] => false
  | _ => true
  end.

(** [Array.from(new Set(xs))] and [[...new Set(xs)]]: the first occurrence of
    each string, in the order of [xs]. *)
Definition unique (xs : list text) : list text :=
  fold_left (fun seen x => if existsb (text_eqb x) seen then seen
                           else seen ++ [x]) xs [].

(** The default comparison of [sort] on strings: code unit by code unit, a
    proper prefix first.  [text_leb a b] is [a <= b]. *)
Fixpoint text_leb (a b : text) : bool :=
  match a, b with
  | [], _ => true
  | _ :: _, [] => false
  | x :: a', y :: b' =>
      if (x <? y)%N then true
      else if (y <? x)%N then false
      else text_leb a' b'
  end.

(** [xs.sort()] on strings.  The standard leaves the algorithm to the engine;
    the result is the ascending arrangement of the strings whatever the
    algorithm, and it is computed here by insertion. *)
Fixpoint insert_sorted (x : text) (l : list text) : list text :=
  match l with
  | [] => [x]
  | y :: l' => if text_leb x y then x :: l else y :: insert_sorted x l'
  end.

Definition sort_strings (xs : list text) : list text :=
  fold_right insert_sorted [] xs.

Module Decompiler.

(** [nsRegex], flag [g]; each piece of the pattern is written beside its
    translation. *)
Definition nsRegex : RegExp :=
  {| pattern :=
       Seq WordBoundary                                    (* \b *)
      (Seq (lit "namespace")                               (* namespace *)
      (Seq (Plus (Chr isSpace))                            (* \s+ *)
      (Seq (Group 1 (Seq (Chr identStart)                  (* ( [A-Za-z_] *)
                         (Star (Chr dottedPart))))       (* [A-Za-z0-9_\.]* ) *)
      (Seq (Star (Chr isSpace))                            (* \s* *)
           (Group 2 (Alt (Chr (isChar ";"))                (* ( ; *)
                         (Chr (isChar "{"))))))));         (* | \{ ) *)
     multiline := false |}.

(** The [append] helper, with the [result] map it closes over passed in.
    [!chunk] holds for the empty string only, and [result.get(ns) || '']
    is the entry when there is one and the empty string otherwise. *)
Definition append (result : Map) (ns chunk : text) : Map :=
  match chunk with
  | [] => result
  | _ =>
      let prev := match map_get result ns with
                  | Some p => p
                  | None => []
                  end in
      map_set result ns (prev ++ trim chunk ++ js "\n")
  end.

(** The token of a match of [nsRegex]; groups 1 and 2 take part in every
    match of that pattern. *)
Definition token_of (s : text) (mt : MatchResult) : token :=
  {| index := match_index mt;
     name := match group s mt 1 with Some n => n | None => [] end;
     kind := match group s mt 2 with
             | Some g => if text_eqb g (js ";") then file else block
             | None => block
             end |}.

(** [while ((match = nsRegex.exec(text)) !== null) tokens.push(...)]: the
    tokens, and the value of [nsRegex.lastIndex] when the loop is left.
    [None] when [fuel] calls of [exec] were not enough. *)
Fixpoint tokenize_loop (fuel : nat) (s : text) (lastIndex : nat)
  (tokens : list token) : option (list token * nat) :=
  match fuel with
  | 0 => None
  | S fuel' =>
      match exec nsRegex s lastIndex with
      | (None, lastIndex') => Some (tokens, lastIndex')
      | (Some mt, lastIndex') =>
          tokenize_loop fuel' s lastIndex' (tokens ++ [token_of s mt])
      end
  end.

Definition tokenize (s : text) : option (list token * nat) :=
  tokenize_loop (S (length s)) s 0 [].


(** One turn of [for (let i = 0; i < tokens.length; i++)]: [t] is
    [tokens[i]], [next] is [tokens[i + 1]] when there is one, [lastIndex] is
    [nsRegex.lastIndex]; the state is [(result, cursor)].  [nextIdx - 1] is
    never negative: the scan starts on the brace found by [indexOf] and moves
    past it ([scanBraces_progress]). *)
Definition for_body (s : text) (lastIndex : nat) (i : nat) (t : token)
  (next : option token) (st : Map * nat) : Map * nat :=
  let '(result, cursor) := st in
  let result :=
    if (i =? 0) && (cursor <? index t)
    then append result global_key (slice s cursor (index t))
    else result in
  match kind t with
  | file =>
      let start := lastIndex in
      let nextIdx := match next with
                     | Some t' => index t'
                     | None => length s
                     end in
      (append result (name t) (slice s start nextIdx), nextIdx)
  | block =>
      match indexOf s (ch "{") (index t) with
      | None => (result, cursor)
      | Some braceStart =>
          let j := scanBraces (skipn braceStart s) 0%Z braceStart in
          let nextIdx := j in
          (append result (name t) (slice s (braceStart + 1) (nextIdx - 1)),
           nextIdx)
      end
  end.

Fixpoint for_loop (s : text) (lastIndex : nat) (i : nat)
  (tokens : list token) (st : Map * nat) : Map * nat :=
  match tokens with
  | [] => st
  | t :: rest =>
      for_loop s lastIndex (S i) rest
        (for_body s lastIndex i t (hd_error rest) st)
  end.

Definition splitByNamespace (s : text) : option Map :=
  match tokenize s with
  | None => None
  | Some (tokens, lastIndex) =>
      match tokens with
      | [] => Some (map_set [] global_key s)
      | _ =>
          let '(result, cursor) := for_loop s lastIndex 0 tokens ([], 0) in
          Some (if cursor <? length s
                then append result global_key (slice_from s cursor)
                else result)
      end
  end.


(** [/\bnamespace\b/], no flag. *)
Definition namespaceWord : RegExp :=
  {| pattern := Seq WordBoundary (Seq (lit "namespace") WordBoundary);
     multiline := false |}.

(** [usingRegex], flags [g] and [m]. *)
Definition usingRegex : RegExp :=
  {| pattern :=
       Seq AssertStart                                   (* ^ *)
      (Seq (lit "using")                                 (* using *)
      (Seq (Plus (Chr isSpace))                          (* \s+ *)
      (Seq (Plus (Chr notSemicolon))                     (* [^;]+ *)
      (Seq (Chr (isChar ";"))                            (* ; *)
      (Seq (Star (Chr isSpace))                          (* \s* *)
           AssertEnd)))));                               (* $ *)
     multiline := true |}.

(** The header lines of [decompileAndSplit], as a function of [combined]:
    [firstNsIdx], [headerBlock] and [usingLines]. *)
Definition firstNsIdx (combined : text) : option nat :=
  search namespaceWord combined.

Definition headerBlock (combined : text) : text :=
  match firstNsIdx combined with
  | Some i => if 0 <? i then slice combined 0 i else []
  | None => []
  end.

Definition usingLines (combined : text) : option text :=
  match string_match (headerBlock combined) usingRegex with
  | None => None
  | Some (Some lines) => Some (join (js "\n") lines)
  | Some None => Some (join (js "\n") [])
  end.

(** [extractNamespaces]: its pattern [re], flag [g], is that of [nsRegex]
    with the delimiter in a non-capturing group. *)
Definition re : RegExp :=
  {| pattern :=
       Seq WordBoundary                                    (* \b *)
      (Seq (lit "namespace")                               (* namespace *)
      (Seq (Plus (Chr isSpace))                            (* \s+ *)
      (Seq (Group 1 (Seq (Chr identStart)                  (* ( [A-Za-z_] *)
                         (Star (Chr dottedPart))))       (* [A-Za-z0-9_\.]* ) *)
      (Seq (Star (Chr isSpace))                            (* \s* *)
           (Alt (Chr (isChar ";"))                         (* (?: ; *)
                (Chr (isChar "{")))))));                   (* | \{ ) *)
     multiline := false |}.

(** [while ((m = re.exec(text)) !== null) namespaces.push(m[1])]; [None]
    when [fuel] calls of [exec] were not enough. *)
Fixpoint extract_loop (fuel : nat) (s : text) (lastIndex : nat)
  (namespaces : list text) : option (list text) :=
  match fuel with
  | 0 => None
  | S fuel' =>
      match exec re s lastIndex with
      | (None, _) => Some namespaces
      | (Some mt, lastIndex') =>
          extract_loop fuel' s lastIndex'
            (namespaces ++ [match group s mt 1 with
                            | Some n => n
                            | None => []
                            end])
      end
  end.

Definition extractNamespaces (s : text) : option (list text) :=
  extract_loop (S (length s)) s 0 [].

(** The limits [MAX_FILES] and [MAX_BYTES] are [Number(...)] of an
    environment variable or of a default: any number value, modelled as a
    rational, an infinity or [NaN]. *)
Inductive Number : Type :=
| NaN
| Infinity
| NegInfinity
| Finite (q : QArith_base.Q).

(** [n > x] for a count [n]: false when [x] is [NaN]. *)
Definition gt (n : nat) (x : Number) : bool :=
  match x with
  | NaN => false
  | Infinity => false
  | NegInfinity => true
  | Finite q =>
      negb (QArith_base.Qle_bool (QArith_base.inject_Z (Z.of_nat n)) q)
  end.

(** How the reading part of [decompileAndSplit] ends: one of its two errors,
    with the number it reports, or the text [combined]. *)
Inductive Combined : Type :=
| TooManyFiles (files : nat)
| TooManyBytes (total : nat)
| CombinedText (combined : text).

(** [for (const f of files) { ... }], with the content of each file in place
    of its path: [rest] are the files still to read. *)
Fixpoint read_loop (MAX_BYTES : Number) (rest : list text) (total : nat)
  (contents : list text) : Combined :=
  match rest with
  | [] => CombinedText (join (js "\n") contents)
  | content :: rest' =>
      let total := total + length content in
      if gt total MAX_BYTES then TooManyBytes total
      else read_loop MAX_BYTES rest' total (contents ++ [content])
  end.

Definition combine (MAX_FILES MAX_BYTES : Number) (files : list text)
  : Combined :=
  if gt (length files) MAX_FILES then TooManyFiles (length files)
  else read_loop MAX_BYTES files 0 [].

(** [pdb] of [decompileAndSplit]. *)
Definition pdb (assemblyPath : text) : text :=
  replace assemblyExtension assemblyPath (js ".pdb").

End Decompiler.

Module DecompilerService.

(** [_splitByNamespace] of [src/index.js] repeats [splitByNamespace]
    statement by statement; it is embedded here from its own text, with its
    own pattern, token loop and [append] helper. *)
Definition nsRegex : RegExp :=
  {| pattern :=
       Seq WordBoundary
      (Seq (lit "namespace")
      (Seq (Plus (Chr isSpace))
      (Seq (Group 1 (Seq (Chr identStart) (Star (Chr dottedPart))))
      (Seq (Star (Chr isSpace))
           (Group 2 (Alt (Chr (isChar ";")) (Chr (isChar "{"))))))));
     multiline := false |}.

Fixpoint tokenize_loop (fuel : nat) (text : text) (lastIndex : nat)
  (tokens : list token) : option (list token * nat) :=
  match fuel with
  | 0 => None
  | S fuel' =>
      match exec nsRegex text lastIndex with
      | (None, lastIndex') => Some (tokens, lastIndex')
      | (Some mt, lastIndex') =>
          let t :=
            {| index := match_index mt;
               name := match group text mt 1 with Some n => n | None => [] end;
               kind := match group text mt 2 with
                       | Some g => if text_eqb g (js ";") then file else block
                       | None => block
                       end |} in
          tokenize_loop fuel' text lastIndex' (tokens ++ [t])
      end
  end.

Definition tokenize (text : text) : option (list token * nat) :=
  tokenize_loop (S (length text)) text 0 [].

(* Helper to push content into map *)
Definition append (result : Map) (ns chunk : text) : Map :=
  if text_eqb chunk [] then result
  else
    let prev := match map_get result ns with
                | Some p => p
                | None => []
                end in
    map_set result ns (prev ++ trim chunk ++ js "\n").

(** [_splitByNamespace]: the loop body, written out from [src/index.js]. *)
Definition for_body (text : text) (lastIndex : nat) (i : nat) (t : token)
  (next : option token) (st : Map * nat) : Map * nat :=
  let result := fst st in
  let cursor := snd st in
  (* content before first namespace goes to global *)
  let result :=
    if (i =? 0) && (cursor <? index t)
    then append result global_key (slice text cursor (index t))
    else result in
  match kind t with
  | file =>
      (* file-scoped: capture from after this declaration until next
         namespace or EOF *)
      let start := lastIndex in
      let nextIdx := match next with
                     | Some t' => index t'
                     | None => length text
                     end in
      (append result (name t) (slice text start nextIdx), nextIdx)
  | block =>
      (* block-scoped: find matching brace for this block *)
      match indexOf text (ch "{") (index t) with
      | None => (result, cursor)
      | Some braceStart =>
          let nextIdx := scanBraces (skipn braceStart text) 0%Z braceStart in
          (append result (name t)
             (slice text (braceStart + 1) (nextIdx - 1)),
           nextIdx)
      end
  end.

Fixpoint for_loop (text : text) (lastIndex : nat) (i : nat)
  (tokens : list token) (st : Map * nat) : Map * nat :=
  match tokens with
  | [] => st
  | t :: rest =>
      for_loop text lastIndex (S i) rest
        (for_body text lastIndex i t (hd_error rest) st)
  end.

Definition _splitByNamespace (text : text) : option Map :=
  match tokenize text with
  | None => None
  | Some (tokens, lastIndex) =>
      if length tokens =? 0 then Some (map_set [] global_key text)
      else
        let st := for_loop text lastIndex 0 tokens ([], 0) in
        (* tail after last namespace *)
        if snd st <? length text
        then Some (append (fst st) global_key (slice_from text (snd st)))
        else Some (fst st)
  end.

(** [typeRegex], flag [g]. *)
Definition typeRegex : RegExp :=
  {| pattern :=
       Seq (Group 1 (Alt AssertStart (lit "\n")))        (* ( ^ | \n ) *)
      (Seq (Star (Chr isSpace))                          (* \s* *)
      (Seq (Star (alts [lit "public"; lit "internal"; lit "protected";
                        lit "private"; lit "sealed"; lit "abstract";
                        lit "static"; lit "partial"; lit "readonly";
                        lit "ref"; lit "unsafe"; lit "new";
                        Chr isSpace]))                   (* (?: ... | \s )* *)
      (Seq (Star (Chr isSpace))                          (* \s* *)
      (Seq (Group 2 (alts [lit "class"; lit "struct"; lit "interface";
                           lit "enum"; lit "record"]))
      (Seq (Plus (Chr isSpace))                          (* \s+ *)
      (Seq (Group 3 (Seq (Chr identStart)                (* ( [A-Za-z_] *)
                         (Star (Chr identPart))))        (* [A-Za-z0-9_]* ) *)
           (Opt (Seq (Star (Chr isSpace))                (* (?: \s* *)
                (Seq (Chr (isChar "<"))                  (* < *)
                (Seq (Plus (Chr notGreater))             (* [^>]+ *)
                     (Chr (isChar ">"))))))))))));       (* > )? *)
     multiline := false |}.

(** One turn of [while ((match = typeRegex.exec(code)) !== null)]: the new
    [result] and the value assigned to [typeRegex.lastIndex]. *)
Definition while_body (code : text) (mt : MatchResult) (result : Map)
  : Map * nat :=
  let start := match_index mt
               + match group code mt 1 with
                 | Some g => length g
                 | None => 0
                 end in
  let typeName := match group code mt 3 with Some n => n | None => [] end in
  match indexOf code (ch "{") start with
  | None =>
      (* likely a record declaration without body; take until next
         semicolon *)
      let nextIdx := match indexOf code (ch ";") start with
                     | None => length code
                     | Some semi => semi + 1
                     end in
      let chunk := trim (slice code start nextIdx) in
      (map_set result typeName chunk, nextIdx)
  | Some braceStart =>
      let nextIdx := scanBraces (skipn braceStart code) 0%Z braceStart in
      let chunk := trim (slice code start nextIdx) in
      (map_set result typeName chunk, nextIdx)
  end.

Fixpoint while_loop (fuel : nat) (code : text) (lastIndex : nat)
  (result : Map) : option Map :=
  match fuel with
  | 0 => None
  | S fuel' =>
      match exec typeRegex code lastIndex with
      | (None, _) => Some result
      | (Some mt, _) =>
          let '(result', nextIdx) := while_body code mt result in
          while_loop fuel' code nextIdx result'
      end
  end.

Definition _splitTypes (code : text) : option Map :=
  while_loop (S (length code)) code 0 [].

(** [listNamespaces], from the text [combined] that [decompileAndSplit]
    returns: [Array.from(new Set(extractNamespaces(combined))).sort()]. *)
Definition listNamespaces (combined : text) : option (list text) :=
  match Decompiler.extractNamespaces combined with
  | Some namespaces => Some (sort_strings (unique namespaces))
  | None => None
  end.

(** The text that the tool [list-dotnet-namespaces] answers with:
    [namespaces.join('\n') || '(none)']. *)
Definition listNamespaces_text (combined : text) : option text :=
  match listNamespaces combined with
  | Some namespaces =>
      match join (js "\n") namespaces with
      | [] => Some (js "(none)")
      | joined => Some joined
      end
  | None => None
  end.

(** The pattern in [/;\s*$/.test(ns)], no flag. *)
Definition semicolonAtEnd : RegExp :=
  {| pattern := Seq (Chr (isChar ";")) (Seq (Star (Chr isSpace)) AssertEnd);
     multiline := false |}.

(** [fileScoped] and [finalCode] of [decompilePerNamespaceToDir],
    [decompileSelectedNamespaces] and [decompileSelectedNamespacesToDir]. *)
Definition fileScoped (ns : text) : text :=
  if test semicolonAtEnd ns then ns else js "namespace " ++ ns ++ js ";".

Definition finalCode (usingLines ns code : text) : text :=
  usingLines ++ js "\n\n" ++ fileScoped ns ++ js "\n\n" ++ code ++ js "\n".

(** [ns === w || ns.startsWith(w + '.')] *)
Definition selects (ns w : text) : bool :=
  text_eqb ns w || startsWith ns (w ++ js ".").

(** [decompileSelectedNamespaces], from the [usingLines] and the [nsMap] that
    [decompileAndSplit] returns; [None] is the error thrown for an empty
    [namespaces]. *)
Definition decompileSelectedNamespaces (usingLines : text) (nsMap : Map)
  (namespaces : list text) : option text :=
  if length namespaces =? 0 then None
  else
    let want := unique namespaces in
    let selected :=
      fold_left (fun selected entry =>
                   if existsb (selects (fst entry)) want
                   then map_set selected (fst entry) (snd entry)
                   else selected) nsMap [] in
    if length selected =? 0 then Some []
    else Some (join (js "\n")
                 (map (fun entry =>
                         finalCode usingLines (fst entry) (snd entry))
                    selected)).

(** The contents that [decompileSelectedNamespacesToDir] writes, in the order
    it writes them; here the test runs over [namespaces] itself. *)
Definition decompileSelectedNamespacesToDir_contents (usingLines : text)
  (nsMap : Map) (namespaces : list text) : option (list text) :=
  if length namespaces =? 0 then None
  else
    Some (map (fun entry => finalCode usingLines (fst entry) (snd entry))
            (filter (fun entry => existsb (selects (fst entry)) namespaces)
               nsMap)).

(** One match of [typeRegex] in [_splitTypes]: the key and the chunk of its
    [result.set(typeName, chunk)], as [while_body] computes them. *)
Definition set_of (code : text) (mt : MatchResult) : text * text :=
  let start := match_index mt
               + match group code mt 1 with
                 | Some g => length g
                 | None => 0
                 end in
  let typeName := match group code mt 3 with Some n => n | None => [] end in
  let nextIdx :=
    match indexOf code (ch "{") start with
    | None => match indexOf code (ch ";") start with
              | None => length code
              | Some semi => semi + 1
              end
    | Some braceStart => scanBraces (skipn braceStart code) 0%Z braceStart
    end in
  (typeName, trim (slice code start nextIdx)).

(** The calls [result.set(typeName, chunk)] of one run of [_splitTypes], in
    order: the control flow of [while_loop], with the calls recorded. *)
Fixpoint set_calls (fuel : nat) (code : text) (lastIndex : nat)
  : list (text * text) :=
  match fuel with
  | 0 => []
  | S fuel' =>
      match exec typeRegex code lastIndex with
      | (None, _) => []
      | (Some mt, _) =>
          set_of code mt
          :: set_calls fuel' code (snd (while_body code mt [])) 
      end
  end.

(** [xmlPath] of [decompileToProjectStructure]. *)
Definition xmlPath (assemblyPath : text) : text :=
  replace assemblyExtension assemblyPath (js ".xml").

(** *** [buildFileTree]

    The nodes are objects that the function reaches both through [index] and
    through the [children] array of their parent, and that it changes in
    place ([curNode.children.push]).  Every node is entered in [index] under
    its path when it is made, and that path is never entered twice, so the
    path stands for the object: the store is [index] itself, and a [children]
    array holds the paths of the nodes pushed into it. *)
Record TreeNode : Type :=
  { node_name : text;
    node_isFile : bool;                      (* type: 'file' or 'directory' *)
    node_children : option (list text) }.    (* [None]: no such property *)

Definition Index := list (text * TreeNode).

Fixpoint index_get (ix : Index) (k : text) : option TreeNode :=
  match ix with
  | [] => None
  | (k', v) :: ix' => if text_eqb k' k then Some v else index_get ix' k
  end.

Fixpoint index_set (ix : Index) (k : text) (v : TreeNode) : Index :=
  match ix with
  | [] => [(k, v)]
  | (k', v') :: ix' =>
      if text_eqb k' k then (k', v) :: ix' else (k', v') :: index_set ix' k v
  end.

(** The pattern "/[\\/]+/g" of [rel.split]. *)
Definition separators : RegExp :=
  {| pattern := Plus (Chr (fun c => isChar "\" c || isChar "/" c));
     multiline := false |}.

(** The pattern "/\.[A-Za-z0-9]+$/" of [isFile]. *)
Definition fileLike : RegExp :=
  {| pattern :=
       Seq (Chr (isChar "."))
      (Seq (Plus (Chr (fun c => inRange "A" "Z" c || inRange "a" "z" c
                                || inRange "0" "9" c)))
           AssertEnd);
     multiline := false |}.

(** [rel.split(/[\\/]+/g).filter(Boolean)] *)
Definition parts_of (rel : text) : option (list text) :=
  match split separators rel with
  | Some pieces => Some (filter Boolean pieces)
  | None => None
  end.

(** One turn of [for (let i = 0; i < parts.length; i++)]: [last] is
    [i === parts.length - 1]; [curNode] is the node of [curPath].  [None] is
    the [TypeError] of [curNode.children.push] on a node without
    [children]. *)
Definition add_part (index : Index) (curPath part : text) (last : bool)
  : option (Index * text) :=
  let nextPath := match curPath with
                  | [] => part
                  | _ => curPath ++ js "/" ++ part
                  end in
  let isFile := last && test fileLike part in
  match index_get index nextPath with
  | Some _ => Some (index, nextPath)
  | None =>
      let node := {| node_name := part;
                     node_isFile := isFile;
                     node_children := if isFile then None else Some [] |} in
      match index_get index curPath with
      | Some curNode =>
          match node_children curNode with
          | Some children =>
              let curNode' :=
                {| node_name := node_name curNode;
                   node_isFile := node_isFile curNode;
                   node_children := Some (children ++ [nextPath]) |} in
              Some (index_set (index_set index curPath curNode') nextPath node,
                    nextPath)
          | None => None
          end
      | None => None
      end
  end.

Fixpoint add_parts (index : Index) (curPath : text) (parts : list text)
  : option Index :=
  match parts with
  | [] => Some index
  | part :: rest =>
      match add_part index curPath part
              (match rest with [] => true | _ => false end) with
      | Some (index', nextPath) => add_parts index' nextPath rest
      | None => None
      end
  end.

(** [for (const rel of relativeFiles)] *)
Fixpoint add_files (index : Index) (relativeFiles : list text)
  : option Index :=
  match relativeFiles with
  | [] => Some index
  | rel :: rest =>
      match parts_of rel with
      | Some parts =>
          match add_parts index [] parts with
          | Some index' => add_files index' rest
          | None => None
          end
      | None => None
      end
  end.

(** The store when [buildFileTree] returns; [rootName] is
    [path.basename(rootDir) || '.'], and the root is the node of the empty
    path. *)
Definition buildFileTree_index (rootName : text) (relativeFiles : list text)
  : option Index :=
  add_files [([], {| node_name := rootName;
                     node_isFile := false;
                     node_children := Some [] |})] relativeFiles.

(** The returned [root], unfolded from the store: a node with the nodes of
    its [children] array. *)
#[warnings="-register-all"]
Inductive FileTree : Type :=
| Node (name : text) (isFile : bool) (children : option (list FileTree)).

Fixpoint tree_of (depth : nat) (index : Index) (path : text)
  : option FileTree :=
  match depth with
  | 0 => None
  | S depth' =>
      match index_get index path with
      | Some node =>
          Some (Node (node_name node) (node_isFile node)
                  (match node_children node with
                   | Some children =>
                       Some (flat_map
                               (fun child =>
                                  match tree_of depth' index child with
                                  | Some t => [t]
                                  | None => []
                                  end) children)
                   | None => None
                   end))
      | None => None
      end
  end.

Definition buildFileTree (rootName : text) (relativeFiles : list text)
  : option FileTree :=
  match buildFileTree_index rootName relativeFiles with
  | Some index => tree_of (length index) index []
  | None => None
  end.

End DecompilerService.

(* ------------------------------------------------------------------ *)
(** ** Vocabulary of the statements *)

(** The kind keywords of [typeRegex]. *)
Definition typeKeywords : list text :=
  [js "class"; js "struct"; js "interface"; js "enum"; js "record"].

(** The calls [append(ns, chunk)] that one run of the partitioner makes, in
    the order it makes them: the same control flow as [Decompiler.for_body],
    [Decompiler.for_loop] and the tail of [Decompiler.splitByNamespace], with
    the calls recorded instead of performed. *)
Definition calls_of_body (s : text) (lastIndex : nat) (i : nat) (t : token)
  (next : option token) (cursor : nat) : list (text * text) * nat :=
  let before :=
    if (i =? 0) && (cursor <? index t)
    then [(global_key, slice s cursor (index t))]
    else [] in
  match kind t with
  | file =>
      let nextIdx := match next with
                     | Some t' => index t'
                     | None => length s
                     end in
      (before ++ [(name t, slice s lastIndex nextIdx)], nextIdx)
  | block =>
      match indexOf s (ch "{") (index t) with
      | None => (before, cursor)
      | Some braceStart =>
          let j := scanBraces (skipn braceStart s) 0%Z braceStart in
          (before ++ [(name t, slice s (braceStart + 1) (j - 1))], j)
      end
  end.

Fixpoint calls_of_loop (s : text) (lastIndex : nat) (i : nat)
  (tokens : list token) (cursor : nat) : list (text * text) * nat :=
  match tokens with
  | [] => ([], cursor)
  | t :: rest =>
      let '(calls, cursor') :=
        calls_of_body s lastIndex i t (hd_error rest) cursor in
      let '(calls', cursor'') := calls_of_loop s lastIndex (S i) rest cursor' in
      (calls ++ calls', cursor'')
  end.

Definition append_calls (s : text) (lastIndex : nat) (tokens : list token)
  : list (text * text) :=
  let '(calls, cursor) := calls_of_loop s lastIndex 0 tokens 0 in
  calls ++ (if cursor <? length s
            then [(global_key, slice_from s cursor)]
            else []).

Definition perform (result : Map) (calls : list (text * text)) : Map :=
  fold_left (fun r c => Decompiler.append r (fst c) (snd c)) calls result.

(** The regions attributed to [ns]: the non-empty chunks appended under that
    name, in encounter order. *)
Definition nonEmpty (chunk : text) : bool :=
  match chunk with [] => false | _ => true end.

Definition regions_of (ns : text) (calls : list (text * text)) : list text :=
  map snd (filter (fun c => text_eqb (fst c) ns && nonEmpty (snd c)) calls).

(** Every slice that the partitioner hands to [append] under [ns], the empty
    ones included, in encounter order. *)
Definition slices_of (ns : text) (calls : list (text * text)) : list text :=
  map snd (filter (fun c => text_eqb (fst c) ns) calls).

(** Each region trimmed and followed by a newline, one after the other. *)
Definition concat_regions (regions : list text) : text :=
  concat (map (fun chunk => trim chunk ++ js "\n") regions).

(** [defines r n]: the capturing group [n] takes part in every match of [r]
    (it lies on every path through the pattern, outside any repetition). *)
Fixpoint defines (r : regex) (n : nat) : bool :=
  match r with
  | Seq r1 r2 => defines r1 n || defines r2 n
  | Alt r1 r2 => defines r1 n && defines r2 n
  | Group k r1 => (k =? n) || defines r1 n
  | _ => false
  end.


(** Opening braces minus closing braces in a stretch of text: what the
    [depth] counter of the brace loop has added up after scanning it. *)
Fixpoint excess (l : text) : Z :=
  match l with
  | [] => 0%Z
  | c :: l' =>
      ((if isChar "{" c then 1 else if isChar "}" c then -1 else 0)
       + excess l')%Z
  end.

(** The capturing groups of a pattern, each with what it encloses. *)
Fixpoint groups_of (r : regex) : list (nat * regex) :=
  match r with
  | Seq r1 r2 => groups_of r1 ++ groups_of r2
  | Alt r1 r2 => groups_of r1 ++ groups_of r2
  | Star r1 => groups_of r1
  | Group n r1 => (n, r1) :: groups_of r1
  | _ => []
  end.

(** A dotted identifier, [[A-Za-z_][A-Za-z0-9_\.]*] as a whole string. *)
Definition dottedName (n : text) : Prop :=
  exists c rest, n = c :: rest /\ identStart c = true
                 /\ Forall (fun u => dottedPart u = true) rest.

(** An identifier, [[A-Za-z_][A-Za-z0-9_]*] as a whole string. *)
Definition identifier (n : text) : Prop :=
  exists c rest, n = c :: rest /\ identStart c = true
                 /\ Forall (fun u => identPart u = true) rest.

(** [strip n r]: [r] with the parentheses of group [n] made non-capturing. *)
Fixpoint strip (n : nat) (r : regex) : regex :=
  match r with
  | Seq r1 r2 => Seq (strip n r1) (strip n r2)
  | Alt r1 r2 => Alt (strip n r1) (strip n r2)
  | Star r1 => Star (strip n r1)
  | Group k r1 => if k =? n then strip n r1 else Group k (strip n r1)
  | _ => r
  end.

(** The chunk of the last call that set [k], if any. *)
Definition last_set (k : text) (calls : list (text * text)) : option text :=
  fold_left (fun found c => if text_eqb (fst c) k then Some (snd c) else found)
    calls None.

(** Two matcher states that agree except on group [n], and two results of
    the matcher that do. *)
Definition same_upto (n : nat) (x x' : state) : Prop :=
  fst x = fst x' /\ forall k, k <> n -> capture k (snd x) = capture k (snd x').

Definition same_result (n : nat) (o o' : option state) : Prop :=
  match o, o' with
  | Some z, Some z' => same_upto n z z'
  | None, None => True
  | _, _ => False
  end.

(** The units of all the files together. *)
Definition total_length (files : list text) : nat :=
  fold_right (fun content n => length content + n) 0 files.

(** The three units after the dot spell [dll] or [exe], in any case. *)
Definition dllOrExe (e1 e2 e3 : char) : bool :=
  (letterI "d" "D" e1 && letterI "l" "L" e2 && letterI "l" "L" e3)
  || (letterI "e" "E" e1 && letterI "x" "X" e2 && letterI "e" "E" e3).

(** The units that [rel.split] cuts at. *)
Definition isSeparator (c : char) : bool := isChar "\" c || isChar "/" c.

(** What follows the last slash of a path (the whole path without one). *)
Fixpoint until_slash (l : text) : text :=
  match l with
  | [] => []
  | c :: l' => if isChar "/" c then [] else c :: until_slash l'
  end.

Definition last_segment (path : text) : text :=
  rev (until_slash (rev path)).

(** [curPath ? curPath + '/' + part : part] *)
Definition next_path (curPath part : text) : text :=
  match curPath with
  | [] => part
  | _ => curPath ++ js "/" ++ part
  end.

(** The node of [path] is there and has a [children] array. *)
Definition directory_at (index : DecompilerService.Index) (path : text)
  : Prop :=
  exists node children,
    DecompilerService.index_get index path = Some node
    /\ DecompilerService.node_children node = Some children.

(** The paths that the inner loop of [buildFileTree] goes through for the
    parts of one file, from [curPath] on. *)
Fixpoint paths_of (curPath : text) (parts : list text) : list text :=
  match parts with
  | [] => []
  | part :: rest =>
      let nextPath := match curPath with
                      | [] => part
                      | _ => curPath ++ js "/" ++ part
                      end in
      nextPath :: paths_of nextPath rest
  end.

(** What [buildFileTree] keeps true of its store: the root is a directory, a
    node without [children] has a name that looks like a file, and the name of
    a node is the last segment of its path. *)
Definition tree_invariant (index : DecompilerService.Index) : Prop :=
  (exists root children,
     DecompilerService.index_get index [] = Some root
     /\ DecompilerService.node_children root = Some children)
  /\ forall k node,
       DecompilerService.index_get index k = Some node -> k <> [] ->
       last_segment k = DecompilerService.node_name node
       /\ (DecompilerService.node_children node = None ->
           test DecompilerService.fileLike (DecompilerService.node_name node)
           = true).

(* ================================================================== *)
(** * Properties *)

(** ** Strings and maps *)

Lemma text_eqb_eq (a b : text) : text_eqb a b = true <-> a = b.
Proof.
  revert b; induction a as [|x a IH]; intros [|y b]; simpl; split;
    try congruence; try discriminate.
  - rewrite andb_true_iff, N.eqb_eq, IH. intros [-> ->]; reflexivity.
  - intros E; injection E as -> ->. rewrite N.eqb_refl. simpl. apply IH.
    reflexivity.
Qed.

Lemma text_eqb_refl (a : text) : text_eqb a a = true.
Proof. apply text_eqb_eq; reflexivity. Qed.

Lemma text_eqb_sym (a b : text) : text_eqb a b = text_eqb b a.
Proof.
  destruct (text_eqb a b) eqn:E.
  - apply text_eqb_eq in E; subst. symmetry; apply text_eqb_refl.
  - destruct (text_eqb b a) eqn:E'; [|reflexivity].
    apply text_eqb_eq in E'; subst. rewrite text_eqb_refl in E. discriminate.
Qed.

Lemma map_get_set_same (mp : Map) (k v : text) :
  map_get (map_set mp k v) k = Some v.
Proof.
  induction mp as [|[k' v'] mp IH]; simpl.
  - rewrite text_eqb_refl; reflexivity.
  - destruct (text_eqb k' k) eqn:E; simpl; rewrite E; auto.
Qed.

Lemma map_get_set_other (mp : Map) (k k' v : text) :
  text_eqb k k' = false -> map_get (map_set mp k v) k' = map_get mp k'.
Proof.
  intros N. induction mp as [|[k0 v0] mp IH]; simpl.
  - rewrite N; reflexivity.
  - destruct (text_eqb k0 k) eqn:E; simpl.
    + apply text_eqb_eq in E; subst k0. rewrite N; reflexivity.
    + destruct (text_eqb k0 k'); auto.
Qed.

Lemma length_slice_le (s : text) (a b : nat) : length (slice s a b) <= b - a.
Proof. unfold slice. apply firstn_le_length. Qed.

Lemma indexOf_at_bounds (c : char) (rest : text) (i k : nat) :
  indexOf_at c rest i = Some k -> i <= k < i + length rest.
Proof.
  revert i; induction rest as [|x rest IH]; simpl; intros i H; [discriminate|].
  destruct (x =? c)%N.
  - injection H as <-. lia.
  - apply IH in H. lia.
Qed.

Lemma indexOf_bounds (s : text) (c : char) (from k : nat) :
  indexOf s c from = Some k -> from <= k < length s.
Proof.
  unfold indexOf. intros H. apply indexOf_at_bounds in H.
  rewrite length_skipn in H. lia.
Qed.

Lemma scanBraces_bounds (rest : text) (depth : Z) (j : nat) :
  j <= scanBraces rest depth j <= j + length rest.
Proof.
  revert depth j; induction rest as [|c rest IH]; simpl; intros depth j; [lia|].
  destruct (isChar "{" c).
  - specialize (IH (depth + 1)%Z (S j)). lia.
  - destruct (isChar "}" c).
    + destruct (depth - 1 =? 0)%Z; [lia|].
      specialize (IH (depth - 1)%Z (S j)). lia.
    + specialize (IH depth (S j)). lia.
Qed.

Lemma scanBraces_progress (rest : text) (depth : Z) (j : nat) :
  rest <> [] -> j < scanBraces rest depth j.
Proof.
  destruct rest as [|c rest]; [congruence|]. intros _. simpl.
  destruct (isChar "{" c).
  - pose proof (scanBraces_bounds rest (depth + 1)%Z (S j)). lia.
  - destruct (isChar "}" c).
    + destruct (depth - 1 =? 0)%Z; [lia|].
      pose proof (scanBraces_bounds rest (depth - 1)%Z (S j)). lia.
    + pose proof (scanBraces_bounds rest depth (S j)). lia.
Qed.

(** ** The matcher *)

Section MatcherFacts.

Variable input : text.
Variable multi : bool.

(** A successful run of the matcher went through a state that [r] can
    reach, and the result is what the continuation made of it. *)
Lemma m_sound (r : regex) :
  forall x c z, m input multi r x c = Some z ->
  exists y, Matches input multi r (fst x) (fst y) /\ c y = Some z.
Proof.
  induction r as [|p|r1 IH1 r2 IH2|r1 IH1 r2 IH2|r IH|n r IH| | |];
    intros x c z H; simpl in H.
  - exists x; split; [constructor|exact H].
  - destruct (nth_error input (fst x)) as [u|] eqn:E; [|discriminate].
    destruct (p u) eqn:P; [|discriminate].
    exists (S (fst x), snd x); split; [econstructor; eauto|exact H].
  - apply IH1 in H as (y1 & M1 & H). apply IH2 in H as (y2 & M2 & H).
    exists y2; split; [econstructor; eauto|exact H].
  - destruct (m input multi r1 x c) eqn:E.
    + injection H as ->. apply IH1 in E as (y & M1 & E).
      exists y; split; [apply M_AltL; exact M1|exact E].
    + apply IH2 in H as (y & M2 & H).
      exists y; split; [apply M_AltR; exact M2|exact H].
  - remember (length input - fst x) as fuel eqn:Hf. clear Hf. revert x H.
    induction fuel as [|fuel IHf]; intros x H; simpl in H.
    + exists x; split; [constructor|exact H].
    + match type of H with
      | match ?t with _ => _ end = _ => destruct t eqn:E
      end.
      * injection H as ->. apply IH in E as (y & M1 & E).
        destruct (fst y =? fst x) eqn:Q; [discriminate|].
        apply Nat.eqb_neq in Q. apply IHf in E as (y' & M2 & E).
        exists y'; split; [eapply M_StarIter; eauto|exact E].
      * exists x; split; [constructor|exact H].
  - apply IH in H as (y & M1 & H).
    eexists; split; [|exact H]. constructor; exact M1.
  - destruct (assertStart input multi (fst x)) eqn:E; [|discriminate].
    exists x; split; [constructor; exact E|exact H].
  - destruct (assertEnd input multi (fst x)) eqn:E; [|discriminate].
    exists x; split; [constructor; exact E|exact H].
  - destruct (wordBoundary input (fst x)) eqn:E; [|discriminate].
    exists x; split; [constructor; exact E|exact H].
Qed.

(** Matching only moves forward, and never past the end of the input. *)
Lemma Matches_bounds (r : regex) (e e' : nat) :
  Matches input multi r e e' ->
  e <= e' /\ (e <= length input -> e' <= length input).
Proof.
  induction 1; try lia.
  assert (e < length input) by (apply nth_error_Some; congruence). lia.
Qed.

Lemma m_fails (r : regex) (x : state) :
  m input multi r x (fun _ => None) = None.
Proof.
  destruct (m input multi r x (fun _ => None)) eqn:E; [|reflexivity].
  apply m_sound in E as (y & _ & E). discriminate.
Qed.

(** The result depends on the continuation only at the states at or after
    [x] and within the input. *)
Lemma m_ext (r : regex) :
  forall x c1 c2, fst x <= length input ->
  (forall y, fst x <= fst y <= length input -> c1 y = c2 y) ->
  m input multi r x c1 = m input multi r x c2.
Proof.
  induction r as [|p|r1 IH1 r2 IH2|r1 IH1 r2 IH2|r IH|n r IH| | |];
    intros x c1 c2 Hx Hc; simpl.
  - apply Hc; lia.
  - destruct (nth_error input (fst x)) as [u|] eqn:E; [|reflexivity].
    assert (fst x < length input) by (apply nth_error_Some; congruence).
    destruct (p u); [|reflexivity]. apply Hc; simpl; lia.
  - apply IH1; [exact Hx|]. intros y Hy. apply IH2; [lia|].
    intros y' Hy'. apply Hc; lia.
  - rewrite (IH1 x c1 c2 Hx Hc), (IH2 x c1 c2 Hx Hc). reflexivity.
  - generalize (length input - fst x) as fuel.
    intros fuel. revert x Hx Hc.
    induction fuel as [|fuel IHf]; intros x Hx Hc; simpl.
    + apply Hc; lia.
    + rewrite (Hc x) by lia.
      rewrite (IH x _ (fun y => if fst y =? fst x then None
                                else repeatMatcher (m input multi r) c2 fuel y)
                 Hx);
        [reflexivity|].
      intros y Hy. destruct (fst y =? fst x); [reflexivity|].
      apply IHf; [lia|]. intros y' Hy'. apply Hc; lia.
  - apply IH; [exact Hx|]. intros y Hy. apply Hc; simpl; lia.
  - destruct (assertStart input multi (fst x)); [apply Hc; lia|reflexivity].
  - destruct (assertEnd input multi (fst x)); [apply Hc; lia|reflexivity].
  - destruct (wordBoundary input (fst x)); [apply Hc; lia|reflexivity].
Qed.

(** More fuel than units left changes nothing. *)
Lemma repeatMatcher_fuel (r : regex) (c : state -> option state) :
  forall n n' x, fst x <= length input ->
  length input - fst x <= n -> length input - fst x <= n' ->
  repeatMatcher (m input multi r) c n x
  = repeatMatcher (m input multi r) c n' x.
Proof.
  assert (stuck : forall k x, fst x <= length input ->
            length input - fst x <= 0 ->
            repeatMatcher (m input multi r) c k x = c x).
  { intros [|k] x Hx H0; simpl; [reflexivity|].
    rewrite (m_ext r x _ (fun _ => None)), m_fails; [reflexivity|exact Hx|].
    intros y Hy. replace (fst y =? fst x) with true; [reflexivity|].
    symmetry; apply Nat.eqb_eq; lia. }
  induction n as [|n IHn]; intros n' x Hx Hn Hn'.
  - simpl. symmetry. apply stuck; assumption.
  - destruct n' as [|n'].
    + rewrite (stuck (S n)) by assumption. reflexivity.
    + simpl.
      rewrite (m_ext r x _
                 (fun y => if fst y =? fst x then None
                           else repeatMatcher (m input multi r) c n' y) Hx);
        [reflexivity|].
      intros y Hy. simpl. destruct (fst y =? fst x) eqn:Q; [reflexivity|].
      apply Nat.eqb_neq in Q. apply IHn; lia.
Qed.

(** The bounded repetition is the RepeatMatcher of the standard: it
    satisfies its recursive equation. *)
Lemma m_Star_unfold (r : regex) (x : state) (c : state -> option state) :
  fst x <= length input ->
  m input multi (Star r) x c =
  match m input multi r x (fun y => if fst y =? fst x then None
                                    else m input multi (Star r) y c) with
  | Some z => Some z
  | None => c x
  end.
Proof.
  intros Hx. simpl.
  rewrite (repeatMatcher_fuel r c (length input - fst x)
             (S (length input - fst x)) x) by lia.
  simpl.
  rewrite (m_ext r x _ (fun y => if fst y =? fst x then None
                                 else repeatMatcher (m input multi r) c
                                        (length input - fst y) y) Hx);
    [reflexivity|].
  intros y Hy. simpl. destruct (fst y =? fst x) eqn:Q; [reflexivity|].
  apply Nat.eqb_neq in Q. apply repeatMatcher_fuel; lia.
Qed.

(** Groups once set stay set, and the groups that [r] defines are set in
    the state handed to the continuation. *)
Lemma m_captures (r : regex) :
  forall x c z, m input multi r x c = Some z ->
  exists y, c y = Some z
    /\ (forall n, capture n (snd x) <> None -> capture n (snd y) <> None)
    /\ (forall n, defines r n = true -> capture n (snd y) <> None).
Proof.
  induction r as [|p|r1 IH1 r2 IH2|r1 IH1 r2 IH2|r IH|k r IH| | |];
    intros x c z H; simpl in H.
  - exists x; repeat split; auto; discriminate.
  - destruct (nth_error input (fst x)) as [u|]; [|discriminate].
    destruct (p u); [|discriminate].
    exists (S (fst x), snd x); repeat split; auto; discriminate.
  - apply IH1 in H as (y1 & H & P1 & D1).
    apply IH2 in H as (y2 & H & P2 & D2).
    exists y2; repeat split; auto. simpl. intros n D.
    apply orb_true_iff in D as [D|D]; auto.
  - destruct (m input multi r1 x c) eqn:E.
    + injection H as ->. apply IH1 in E as (y & E & P & D).
      exists y; repeat split; auto. simpl. intros n Dn.
      apply andb_true_iff in Dn as [Dn _]; auto.
    + apply IH2 in H as (y & H & P & D).
      exists y; repeat split; auto. simpl. intros n Dn.
      apply andb_true_iff in Dn as [_ Dn]; auto.
  - remember (length input - fst x) as fuel eqn:Hf. clear Hf. revert x H.
    induction fuel as [|fuel IHf]; intros x H; simpl in H.
    + exists x; repeat split; auto; discriminate.
    + match type of H with
      | match ?t with _ => _ end = _ => destruct t eqn:E
      end.
      * injection H as ->. apply IH in E as (y & E & P & _).
        destruct (fst y =? fst x); [discriminate|].
        apply IHf in E as (y' & E & P' & _).
        exists y'; repeat split; auto; discriminate.
      * exists x; repeat split; auto; discriminate.
  - apply IH in H as (y & H & P & D).
    exists (fst y, (k, (fst x, fst y)) :: snd y). split; [exact H|].
    split; intros n Hn; simpl; destruct (k =? n) eqn:K; try discriminate.
    + apply P; exact Hn.
    + simpl in Hn. rewrite K in Hn. apply D; exact Hn.
  - destruct (assertStart input multi (fst x)); [|discriminate].
    exists x; repeat split; auto; discriminate.
  - destruct (assertEnd input multi (fst x)); [|discriminate].
    exists x; repeat split; auto; discriminate.
  - destruct (wordBoundary input (fst x)); [|discriminate].
    exists x; repeat split; auto; discriminate.
Qed.

Lemma matchAt_captures (r : regex) (i n : nat) (y : state) :
  matchAt input multi r i = Some y -> defines r n = true ->
  capture n (snd y) <> None.
Proof.
  unfold matchAt. intros H D. apply m_captures in H as (y' & H & _ & C).
  injection H as ->. apply C; exact D.
Qed.

Lemma matchAt_sound (r : regex) (i : nat) (y : state) :
  matchAt input multi r i = Some y -> Matches input multi r i (fst y).
Proof.
  unfold matchAt. intros H. apply m_sound in H as (y' & M & H).
  injection H as ->. exact M.
Qed.

Lemma matchFrom_sound (r : regex) :
  forall n i j y, matchFrom input multi r n i = Some (j, y) ->
  i <= j <= i + n /\ Matches input multi r j (fst y)
  /\ matchAt input multi r j = Some y
  /\ (forall k, i <= k < j -> matchAt input multi r k = None).
Proof.
  induction n as [|n IH]; intros i j y H; simpl in H.
  - destruct (matchAt input multi r i) eqn:E; [|discriminate].
    injection H as <- <-. repeat split; try lia; [|exact E].
    apply matchAt_sound; exact E.
  - destruct (matchAt input multi r i) eqn:E.
    + injection H as <- <-. repeat split; try lia; [|exact E].
      apply matchAt_sound; exact E.
    + apply IH in H as (Hj & M & A & B). repeat split; try lia; auto.
      intros k Hk. destruct (Nat.eq_dec k i) as [->|N]; [exact E|].
      apply B; lia.
Qed.

Lemma matchFrom_none (r : regex) :
  forall n i, matchFrom input multi r n i = None ->
  forall j, i <= j <= i + n -> matchAt input multi r j = None.
Proof.
  induction n as [|n IH]; intros i H j Hj; simpl in H;
    destruct (matchAt input multi r i) eqn:E; try discriminate.
  - replace j with i by lia. exact E.
  - destruct (Nat.eq_dec j i) as [->|N]; [exact E|].
    apply (IH (S i)); [exact H|lia].
Qed.

(** The literal [s] matches exactly the units of [s]. *)
Lemma Matches_lit_units (s : text) :
  forall e e', Matches input multi (lit_units s) e e' ->
  e' = e + length s /\ startsWith (skipn e input) s = true.
Proof.
  assert (one : forall c e e', Matches input multi (Chr (N.eqb c)) e e' ->
            e' = S e /\ exists rest, skipn e input = c :: rest).
  { intros c e e' H. inversion H; subst. split; [reflexivity|].
    match goal with Hn : nth_error _ _ = Some _ |- _ =>
      apply nth_error_split in Hn as (l1 & l2 & -> & <-) end.
    match goal with Hp : (_ =? _)%N = true |- _ =>
      apply N.eqb_eq in Hp; subst end.
    exists l2. rewrite skipn_app, Nat.sub_diag, skipn_all. reflexivity. }
  induction s as [|c s IH]; intros e e' H.
  - inversion H; subst. split; [simpl; lia|reflexivity].
  - destruct s as [|c' s].
    + apply one in H as (-> & rest & E). split; [simpl; lia|].
      rewrite E. simpl. rewrite N.eqb_refl. reflexivity.
    + change (lit_units (c :: c' :: s))
        with (Seq (Chr (N.eqb c)) (lit_units (c' :: s))) in H.
      inversion H as [| |r1 r2 e0 e1 e2 H1 H2| | | | | | | |]; subst.
      apply one in H1 as (-> & rest & E).
      apply IH in H2 as (-> & P).
      split; [simpl; lia|]. rewrite E.
      assert (skipn (S e) input = rest) as Er.
      { replace (S e) with (1 + e) by lia.
        rewrite <- skipn_skipn, E. reflexivity. }
      rewrite Er in P. change (startsWith (c :: rest) (c :: c' :: s))
        with ((c =? c)%N && startsWith rest (c' :: s)).
      rewrite N.eqb_refl, P. reflexivity.
Qed.

End MatcherFacts.

Lemma Matches_Seq_inv (s : text) (mu : bool) (r1 r2 : regex) (e e2 : nat) :
  Matches s mu (Seq r1 r2) e e2 ->
  exists e1, Matches s mu r1 e e1 /\ Matches s mu r2 e1 e2.
Proof. intros H; inversion H; subst; eauto. Qed.

Lemma Matches_Alt_inv (s : text) (mu : bool) (r1 r2 : regex) (e e1 : nat) :
  Matches s mu (Alt r1 r2) e e1 -> Matches s mu r1 e e1 \/ Matches s mu r2 e e1.
Proof. intros H; inversion H; subst; auto. Qed.

Lemma Matches_Group_inv (s : text) (mu : bool) (n : nat) (r : regex)
  (e e1 : nat) :
  Matches s mu (Group n r) e e1 -> Matches s mu r e e1.
Proof. intros H; inversion H; subst; auto. Qed.

Lemma Matches_le (s : text) (mu : bool) (r : regex) (e e' : nat) :
  Matches s mu r e e' -> e <= e'.
Proof. intros H; apply Matches_bounds in H; lia. Qed.

Lemma Matches_lit (s : text) (mu : bool) (w : string) (e e' : nat) :
  Matches s mu (lit w) e e' ->
  e' = e + length (js w) /\ startsWith (skipn e s) (js w) = true.
Proof. apply Matches_lit_units. Qed.

(** ** [exec] *)

Lemma exec_some (R : RegExp) (s : text) (lastIndex lastIndex' : nat)
  (mt : MatchResult) :
  exec R s lastIndex = (Some mt, lastIndex') ->
  lastIndex <= match_index mt /\ match_index mt <= match_end mt
  /\ match_end mt <= length s /\ lastIndex' = match_end mt
  /\ Matches s (multiline R) (pattern R) (match_index mt) (match_end mt).
Proof.
  unfold exec. destruct (length s <? lastIndex) eqn:L; [discriminate|].
  apply Nat.ltb_ge in L.
  destruct (matchFrom s (multiline R) (pattern R) (length s - lastIndex)
              lastIndex) as [[i y]|] eqn:E; [|discriminate].
  intros H; injection H as <- <-. simpl.
  apply matchFrom_sound in E as (Hi & M & _ & _).
  pose proof (Matches_bounds _ _ _ _ _ M). repeat split; try lia; exact M.
Qed.

Lemma exec_none (R : RegExp) (s : text) (lastIndex lastIndex' : nat) :
  exec R s lastIndex = (None, lastIndex') -> lastIndex' = 0.
Proof.
  unfold exec. destruct (length s <? lastIndex).
  - intros H; injection H as <-; reflexivity.
  - destruct (matchFrom s (multiline R) (pattern R) (length s - lastIndex)
                lastIndex) as [[i y]|]; [discriminate|].
    intros H; injection H as <-; reflexivity.
Qed.

Lemma exec_group (R : RegExp) (s : text) (lastIndex lastIndex' n : nat)
  (mt : MatchResult) :
  exec R s lastIndex = (Some mt, lastIndex') ->
  defines (pattern R) n = true ->
  exists g, group s mt n = Some g.
Proof.
  unfold exec. destruct (length s <? lastIndex); [discriminate|].
  destruct (matchFrom s (multiline R) (pattern R) (length s - lastIndex)
              lastIndex) as [[i y]|] eqn:E; [|discriminate].
  intros H D; injection H as <- <-.
  apply matchFrom_sound in E as (_ & _ & A & _).
  pose proof (matchAt_captures _ _ _ _ n _ A D) as C.
  unfold group. simpl. destruct (capture n (snd y)) as [[a b]|]; [|congruence].
  eauto.
Qed.

(** The groups read by the program are set by every match: [match[1]] and
    [match[2]] of [nsRegex], [match[1]] and [match[3]] of [typeRegex]. *)
Lemma nsRegex_groups (s : text) (lastIndex lastIndex' : nat)
  (mt : MatchResult) :
  exec Decompiler.nsRegex s lastIndex = (Some mt, lastIndex') ->
  (exists g, group s mt 1 = Some g) /\ (exists g, group s mt 2 = Some g).
Proof.
  intros H; split; eapply exec_group; try exact H; reflexivity.
Qed.

Lemma typeRegex_groups (code : text) (lastIndex lastIndex' : nat)
  (mt : MatchResult) :
  exec DecompilerService.typeRegex code lastIndex = (Some mt, lastIndex') ->
  (exists g, group code mt 1 = Some g) /\ (exists g, group code mt 3 = Some g).
Proof.
  intros H; split; eapply exec_group; try exact H; reflexivity.
Qed.

(** ** Every match of the two scanning patterns consumes something *)

Lemma nsRegex_progress (s : text) (i e : nat) :
  Matches s (multiline Decompiler.nsRegex) (pattern Decompiler.nsRegex) i e ->
  i + 9 < e.
Proof.
  cbv beta iota delta [Decompiler.nsRegex pattern multiline]. intros H.
  apply Matches_Seq_inv in H as (e1 & Hb & H).
  apply Matches_Seq_inv in H as (e2 & Hn & H).
  apply Matches_Seq_inv in H as (e3 & Hs & H).
  apply Matches_le in Hb. apply Matches_lit in Hn as (-> & _).
  apply Matches_Seq_inv in Hs as (e4 & Hs & Hs').
  inversion Hs; subst. apply Matches_le in Hs'. apply Matches_le in H.
  change (length (js "namespace")) with 9 in *. lia.
Qed.

Lemma startsWith_includes (s needle : text) (j : nat) :
  startsWith (skipn j s) needle = true -> includes s needle = true.
Proof.
  revert s; induction j as [|j IH]; intros s H.
  - simpl in H. destruct s; simpl; rewrite H; reflexivity.
  - destruct s as [|c s].
    + simpl in H. simpl. rewrite H. reflexivity.
    + simpl in H. apply IH in H. simpl. rewrite H. apply orb_true_r.
Qed.

Lemma Matches_alts_lit (s : text) (mu : bool) (ws : list string) (e e' : nat) :
  ws <> [] ->
  Matches s mu (alts (map lit ws)) e e' ->
  exists w, In w ws /\ e' = e + length (js w)
            /\ startsWith (skipn e s) (js w) = true.
Proof.
  induction ws as [|w ws IH]; [congruence|]. intros _ H.
  destruct ws as [|w' ws].
  - simpl in H. apply Matches_lit in H. exists w; simpl; tauto.
  - change (alts (map lit (w :: w' :: ws)))
      with (Alt (lit w) (alts (map lit (w' :: ws)))) in H.
    apply Matches_Alt_inv in H as [H|H].
    + apply Matches_lit in H. exists w; simpl; tauto.
    + apply IH in H as (w0 & I & P); [|discriminate].
      exists w0; split; [right; exact I|exact P].
Qed.

(** A match of [typeRegex] contains one of the kind keywords. *)
Lemma typeRegex_keyword (code : text) (i e : nat) :
  Matches code (multiline DecompilerService.typeRegex)
    (pattern DecompilerService.typeRegex) i e ->
  exists kw j, In kw typeKeywords /\ startsWith (skipn j code) kw = true
               /\ i <= j /\ j + length kw < e.
Proof.
  cbv beta iota delta [DecompilerService.typeRegex pattern multiline].
  intros H.
  apply Matches_Seq_inv in H as (e1 & H1 & H). apply Matches_le in H1.
  apply Matches_Seq_inv in H as (e2 & H2 & H). apply Matches_le in H2.
  apply Matches_Seq_inv in H as (e3 & H3 & H). apply Matches_le in H3.
  apply Matches_Seq_inv in H as (e4 & H4 & H). apply Matches_le in H4.
  apply Matches_Seq_inv in H as (e5 & H5 & H).
  apply Matches_Seq_inv in H as (e6 & H6 & H). apply Matches_le in H.
  apply Matches_Seq_inv in H6 as (e7 & H6 & H7). apply Matches_le in H7.
  inversion H6; subst.
  apply Matches_Group_inv in H5.
  apply (Matches_alts_lit code false
           ["class"; "struct"; "interface"; "enum"; "record"]%string) in H5
    as (w & I & -> & P); [|discriminate].
  exists (js w), e4. repeat split; try lia; [|exact P].
  unfold typeKeywords. simpl in I.
  destruct I as [<-|[<-|[<-|[<-|[<-|[]]]]]]; simpl; tauto.
Qed.

Lemma typeRegex_progress (code : text) (i e : nat) :
  Matches code (multiline DecompilerService.typeRegex)
    (pattern DecompilerService.typeRegex) i e -> i < e.
Proof.
  intros H. apply typeRegex_keyword in H as (kw & j & _ & _ & Hj & He). lia.
Qed.


(** ** The loops end *)

Lemma tokenize_loop_total :
  forall fuel s lastIndex tokens, length s - lastIndex < fuel ->
  exists tokens',
    Decompiler.tokenize_loop fuel s lastIndex tokens = Some (tokens', 0).
Proof.
  induction fuel as [|fuel IH]; intros s lastIndex tokens Hf; [lia|]. simpl.
  destruct (exec Decompiler.nsRegex s lastIndex) as [[mt|] lastIndex'] eqn:E.
  - apply exec_some in E as (H1 & H2 & H3 & -> & M).
    apply nsRegex_progress in M. apply IH. lia.
  - apply exec_none in E; subst. eauto.
Qed.

Lemma tokenize_total (s : text) :
  exists tokens, Decompiler.tokenize s = Some (tokens, 0).
Proof. apply tokenize_loop_total. lia. Qed.

(** When the token loop is left, [nsRegex.lastIndex] is 0: the failed [exec]
    that ends the loop has reset it. *)
Lemma tokenize_lastIndex (s : text) (tokens : list token) (lastIndex : nat) :
  Decompiler.tokenize s = Some (tokens, lastIndex) -> lastIndex = 0.
Proof.
  destruct (tokenize_total s) as (tokens' & E). rewrite E.
  intros H; injection H as _ <-; reflexivity.
Qed.

Lemma while_body_nextIdx (code : text) (mt : MatchResult) (result : Map) :
  match_index mt < match_end mt <= length code ->
  match_index mt < snd (DecompilerService.while_body code mt result)
  <= length code.
Proof.
  intros Hm. unfold DecompilerService.while_body.
  set (start := match_index mt + _).
  assert (match_index mt <= start) by (unfold start; lia).
  destruct (indexOf code (ch "{") start) as [braceStart|] eqn:B.
  - apply indexOf_bounds in B. simpl.
    pose proof (scanBraces_bounds (skipn braceStart code) 0%Z braceStart) as Hb.
    rewrite length_skipn in Hb.
    assert (skipn braceStart code <> []) as Hne.
    { intros E. apply (f_equal (@length _)) in E.
      rewrite length_skipn in E. simpl in E. lia. }
    apply (scanBraces_progress _ 0%Z braceStart) in Hne. lia.
  - destruct (indexOf code (ch ";") start) as [semi|] eqn:S; simpl.
    + apply indexOf_bounds in S. lia.
    + lia.
Qed.

Lemma while_loop_total :
  forall fuel code lastIndex result, length code - lastIndex < fuel ->
  exists result', DecompilerService.while_loop fuel code lastIndex result
                  = Some result'.
Proof.
  induction fuel as [|fuel IH]; intros code lastIndex result Hf; [lia|]. simpl.
  destruct (exec DecompilerService.typeRegex code lastIndex)
    as [[mt|] lastIndex'] eqn:E; [|eauto].
  apply exec_some in E as (H1 & H2 & H3 & _ & M).
  apply typeRegex_progress in M.
  pose proof (while_body_nextIdx code mt result (conj M H3)) as Hn.
  destruct (DecompilerService.while_body code mt result) as [result' nextIdx].
  simpl in Hn. apply IH. lia.
Qed.

Lemma matchAll_loop_total (R : RegExp) :
  forall fuel s lastIndex, S (length s) - lastIndex < fuel ->
  exists lines, matchAll_loop fuel R s lastIndex = Some lines.
Proof.
  induction fuel as [|fuel IH]; intros s lastIndex Hf; [lia|]. simpl.
  destruct (exec R s lastIndex) as [[mt|] lastIndex'] eqn:E; [|eauto].
  apply exec_some in E as (H1 & H2 & H3 & -> & _).
  destruct (IH s (if match_end mt =? match_index mt
                  then S (match_end mt) else match_end mt)) as (l & El).
  { destruct (match_end mt =? match_index mt) eqn:Q.
    - apply Nat.eqb_eq in Q. lia.
    - apply Nat.eqb_neq in Q. lia. }
  rewrite El. eauto.
Qed.

Lemma string_match_total (s : text) (R : RegExp) :
  exists r, string_match s R = Some r.
Proof.
  unfold string_match.
  destruct (matchAll_loop_total R (S (S (length s))) s 0) as (l & E); [lia|].
  rewrite E. destruct l; eauto.
Qed.


(** ** The partitioner as a sequence of [append] calls *)

Lemma perform_app (result : Map) (c1 c2 : list (text * text)) :
  perform result (c1 ++ c2) = perform (perform result c1) c2.
Proof. apply fold_left_app. Qed.

Lemma for_body_calls (s : text) (lastIndex i : nat) (t : token)
  (next : option token) (result : Map) (cursor : nat) :
  Decompiler.for_body s lastIndex i t next (result, cursor)
  = (perform result (fst (calls_of_body s lastIndex i t next cursor)),
     snd (calls_of_body s lastIndex i t next cursor)).
Proof.
  unfold Decompiler.for_body, calls_of_body.
  destruct ((i =? 0) && (cursor <? index t)); destruct (kind t);
    try destruct (indexOf s (ch "{") (index t)); reflexivity.
Qed.

Lemma for_loop_calls (s : text) (lastIndex : nat) :
  forall tokens i result cursor,
  Decompiler.for_loop s lastIndex i tokens (result, cursor)
  = (perform result (fst (calls_of_loop s lastIndex i tokens cursor)),
     snd (calls_of_loop s lastIndex i tokens cursor)).
Proof.
  induction tokens as [|t rest IH]; intros i result cursor; [reflexivity|].
  cbn [Decompiler.for_loop calls_of_loop]. rewrite for_body_calls.
  destruct (calls_of_body s lastIndex i t (hd_error rest) cursor)
    as [calls cursor']. cbn [fst snd]. rewrite IH.
  destruct (calls_of_loop s lastIndex (S i) rest cursor') as [calls' cursor''].
  simpl. rewrite perform_app. reflexivity.
Qed.

Lemma splitByNamespace_calls (s : text) (tokens : list token)
  (lastIndex : nat) :
  Decompiler.tokenize s = Some (tokens, lastIndex) -> tokens <> [] ->
  Decompiler.splitByNamespace s
  = Some (perform [] (append_calls s lastIndex tokens)).
Proof.
  intros E N. unfold Decompiler.splitByNamespace, append_calls. rewrite E.
  destruct tokens as [|t rest]; [congruence|].
  rewrite for_loop_calls.
  destruct (calls_of_loop s lastIndex 0 (t :: rest) 0) as [calls cursor].
  simpl fst; simpl snd. rewrite perform_app.
  destruct (cursor <? length s); reflexivity.
Qed.

Lemma map_get_append_same (result : Map) (ns chunk : text) :
  chunk <> [] ->
  map_get (Decompiler.append result ns chunk) ns
  = Some (match map_get result ns with Some p => p | None => [] end
          ++ trim chunk ++ js "\n").
Proof.
  intros N. unfold Decompiler.append. destruct chunk; [congruence|].
  apply map_get_set_same.
Qed.

Lemma map_get_append_other (result : Map) (ns ns' chunk : text) :
  text_eqb ns ns' = false ->
  map_get (Decompiler.append result ns chunk) ns' = map_get result ns'.
Proof.
  intros N. unfold Decompiler.append. destruct chunk; [reflexivity|].
  apply map_get_set_other; exact N.
Qed.

(** What a sequence of [append] calls leaves under [ns]: what was there
    before, followed by every region of [ns], in order. *)
Lemma map_get_perform (ns : text) :
  forall calls result,
  map_get (perform result calls) ns
  = match regions_of ns calls with
    | [] => map_get result ns
    | regions =>
        Some (match map_get result ns with Some p => p | None => [] end
              ++ concat_regions regions)
    end.
Proof.
  induction calls as [|[k chunk] calls IH]; intros result; [reflexivity|].
  change (perform result ((k, chunk) :: calls))
    with (perform (Decompiler.append result k chunk) calls).
  rewrite IH. unfold regions_of. simpl filter.
  destruct (text_eqb k ns) eqn:K.
  - apply text_eqb_eq in K; subst k.
    destruct chunk as [|c chunk]; [reflexivity|]. simpl andb. cbv iota.
    rewrite map_get_append_same by discriminate.
    simpl map. fold (regions_of ns calls).
    destruct (regions_of ns calls) as [|r rs].
    + unfold concat_regions. simpl. rewrite app_nil_r. reflexivity.
    + unfold concat_regions. simpl concat. rewrite <- !app_assoc. reflexivity.
  - simpl andb. cbv iota. rewrite map_get_append_other by exact K.
    reflexivity.
Qed.

(** The regions that count are the slices that are not empty. *)
Lemma regions_of_slices (ns : text) (calls : list (text * text)) :
  regions_of ns calls = filter nonEmpty (slices_of ns calls).
Proof.
  unfold regions_of, slices_of.
  induction calls as [|[k chunk] calls IH]; [reflexivity|].
  simpl. destruct (text_eqb k ns); simpl.
  - destruct (nonEmpty chunk); simpl; rewrite IH; reflexivity.
  - exact IH.
Qed.

(** ** The functions on the examples of the specification *)

Example splitByNamespace_two_blocks :
  Decompiler.splitByNamespace (js "namespace A { X } namespace B { Y }")
  = Some [(js "A", js "X\n"); (js "B", js "Y\n")].
Proof. vm_compute. reflexivity. Qed.

Example splitByNamespace_head_and_tail :
  Decompiler.splitByNamespace (js "using S;\nnamespace A { X }\n// end")
  = Some [(js "(global)", js "using S;\n// end\n"); (js "A", js "X\n")].
Proof. vm_compute. reflexivity. Qed.

Example splitTypes_sealed_class :
  DecompilerService._splitTypes (js "public sealed class Foo { int x; }")
  = Some [(js "Foo", js "public sealed class Foo { int x; }")].
Proof. vm_compute. reflexivity. Qed.

Example splitTypes_two_records :
  DecompilerService._splitTypes (js "record A(int x);\nrecord B(int y);")
  = Some [(js "A", js "record A(int x);"); (js "B", js "record B(int y);")].
Proof. vm_compute. reflexivity. Qed.

Example tokenize_nested :
  Decompiler.tokenize (js "namespace A { namespace A.B { Z } }")
  = Some ([ {| index := 0; name := js "A"; kind := block |};
            {| index := 14; name := js "A.B"; kind := block |} ], 0).
Proof. vm_compute. reflexivity. Qed.

(* ================================================================== *)
(** * The claims *)

(** C1.  The file-scoped example of the specification.  The extent of a
    file-scoped unit does not start after the semicolon of its declaration:
    [start] is read from [nsRegex.lastIndex] after the token loop, where it is
    0 ([tokenize_lastIndex]), so each unit receives the text from offset 0 to
    the next token, declarations included. *)
Theorem splitByNamespace_file_scoped_example :
  Decompiler.splitByNamespace (js "namespace A;\nfoo();\nnamespace B;\nbar();")
  = Some [(js "A", js "namespace A;\nfoo();\n");
          (js "B", js "namespace A;\nfoo();\nnamespace B;\nbar();\n")].
Proof. vm_compute. reflexivity. Qed.

(** C2, as stated, fails: the mapping has an entry keyed [A.B]. *)
Lemma nested_block_without_child_entry_fails :
  ~ (exists result body,
       Decompiler.splitByNamespace (js "namespace A { namespace A.B { Z } }")
       = Some result
       /\ map_get result (js "A") = Some body
       /\ includes body (js "namespace A.B { Z }") = true
       /\ map_get result (js "A.B") = None).
Proof.
  intros (result & body & H & _ & _ & N).
  vm_compute in H. injection H as <-. vm_compute in N. discriminate.
Qed.

(** C2, amended.  For the nested example the whole nested region, keyword
    included, is the body of [A], and the nested token is processed like any
    other: the mapping also has an entry [A.B], whose body is [Z]. *)
Theorem splitByNamespace_nested_block :
  exists result,
    Decompiler.splitByNamespace (js "namespace A { namespace A.B { Z } }")
    = Some result
    /\ map_get result (js "A") = Some (js "namespace A.B { Z }\n")
    /\ includes (js "namespace A.B { Z }\n") (js "namespace A.B { Z }") = true
    /\ map_get result (js "A.B") = Some (js "Z\n").
Proof. eexists. split; [vm_compute; reflexivity|]. vm_compute. auto. Qed.

(** C3.  The unterminated block of the specification: the partitioner
    returns, but the body of [A] stops one unit before the end of the text
    (the slice ends at [nextIdx - 1], which skips the closing brace when there
    is one and the last unit of the text when there is none). *)
Theorem splitByNamespace_unterminated_block :
  Decompiler.splitByNamespace (js "namespace A { unterminated")
  = Some [(js "A", js "unterminate\n")].
Proof. vm_compute. reflexivity. Qed.

(** C4, as stated, fails: without tokens the body is the input as it is. *)
Lemma global_body_trimmed_fails :
  ~ (forall s lastIndex, Decompiler.tokenize s = Some ([], lastIndex) ->
       Decompiler.splitByNamespace s = Some [(global_key, trim s)]).
Proof.
  intros H. specialize (H (js " x ") 0 eq_refl).
  vm_compute in H. discriminate.
Qed.

(** C4, amended.  When the tokenizer produces no token, the mapping has
    exactly one entry, keyed [(global)], whose body is the input unchanged. *)
Theorem splitByNamespace_no_tokens (s : text) (lastIndex : nat) :
  Decompiler.tokenize s = Some ([], lastIndex) ->
  Decompiler.splitByNamespace s = Some [(global_key, s)].
Proof.
  intros E. unfold Decompiler.splitByNamespace. rewrite E. reflexivity.
Qed.

(** The amended C4 at the text of the counterexample. *)
Lemma splitByNamespace_no_tokens_witness :
  Decompiler.tokenize (js " x ") = Some ([], 0)
  /\ Decompiler.splitByNamespace (js " x ") = Some [(global_key, js " x ")].
Proof.
  split; [vm_compute; reflexivity|].
  apply (splitByNamespace_no_tokens (js " x ") 0). vm_compute. reflexivity.
Defined.

(** C5, as stated, fails: a block with an empty body is a region of its
    name, and [append] returns on it without touching the entry, so that the
    region leaves nothing in the body, not even its newline. *)
Lemma empty_region_counted_fails :
  ~ (forall s tokens lastIndex result ns,
       Decompiler.tokenize s = Some (tokens, lastIndex) ->
       Decompiler.splitByNamespace s = Some result ->
       2 <= length (slices_of ns (append_calls s lastIndex tokens)) ->
       map_get result ns
       = Some (concat_regions
                 (slices_of ns (append_calls s lastIndex tokens)))).
Proof.
  intros H.
  specialize (H (js "namespace A {} namespace A { Y }")
                [ {| index := 0; name := js "A"; kind := block |};
                  {| index := 15; name := js "A"; kind := block |} ]
                0 [(js "A", js "Y\n")] (js "A")).
  assert (map_get [(js "A", js "Y\n")] (js "A") = Some (js "\nY\n")) as C.
  { rewrite H.
    - vm_compute. reflexivity.
    - vm_compute. reflexivity.
    - vm_compute. reflexivity.
    - vm_compute. lia. }
  vm_compute in C. discriminate.
Qed.

(** C5, amended.  For every text with at least one token and every name,
    the final entry of the name is the concatenation, in encounter order, of
    the trimmed regions attributed to it that are not empty, each followed by
    a newline: none of them is overwritten or dropped.  A region whose slice
    is empty adds nothing, and a name with no other region has no entry. *)
Theorem splitByNamespace_regions_concatenated (s : text) (tokens : list token)
  (lastIndex : nat) (result : Map) (ns : text) :
  Decompiler.tokenize s = Some (tokens, lastIndex) -> tokens <> [] ->
  Decompiler.splitByNamespace s = Some result ->
  map_get result ns
  = match filter nonEmpty
            (slices_of ns (append_calls s lastIndex tokens)) with
    | [] => None
    | regions => Some (concat_regions regions)
    end.
Proof.
  intros E N H. rewrite (splitByNamespace_calls s tokens lastIndex E N) in H.
  injection H as <-. rewrite map_get_perform, regions_of_slices.
  reflexivity.
Qed.

(** The amended C5 at a text with three blocks of one name, the first of
    them empty. *)
Lemma splitByNamespace_regions_concatenated_witness :
  exists result,
    Decompiler.splitByNamespace
      (js "namespace A {} namespace A { X } namespace A { Y }")
    = Some result
    /\ map_get result (js "A") = Some (js "X\nY\n").
Proof.
  eexists. split; [vm_compute; reflexivity|].
  rewrite (splitByNamespace_regions_concatenated
             (js "namespace A {} namespace A { X } namespace A { Y }")
             [ {| index := 0; name := js "A"; kind := block |};
               {| index := 15; name := js "A"; kind := block |};
               {| index := 33; name := js "A"; kind := block |} ]
             0 _ (js "A")).
  - vm_compute. reflexivity.
  - vm_compute. reflexivity.
  - discriminate.
  - vm_compute. reflexivity.
Defined.





(** C7.  A bodyless record followed by a brace-bodied type: the chunk of the
    record does not stop at its semicolon.  [braceStart] is the first opening
    brace anywhere after the start of the match, so the semicolon branch is
    taken only when no brace follows at all; here the chunk of [A] runs to
    the closing brace of [B], and [B] gets no chunk of its own. *)
Theorem splitTypes_bodyless_record_then_class :
  DecompilerService._splitTypes (js "record A(int x);\nclass B { }")
  = Some [(js "A", js "record A(int x);\nclass B { }")].
Proof. vm_compute. reflexivity. Qed.

Lemma splitByNamespace_total (s : text) :
  exists result, Decompiler.splitByNamespace s = Some result.
Proof.
  unfold Decompiler.splitByNamespace.
  destruct (tokenize_total s) as (tokens & ->).
  destruct tokens; [eauto|].
  destruct (Decompiler.for_loop s 0 0 (t :: tokens) ([], 0)). eauto.
Qed.

Lemma usingLines_total (combined : text) :
  exists lines, Decompiler.usingLines combined = Some lines.
Proof.
  unfold Decompiler.usingLines.
  destruct (string_match_total (Decompiler.headerBlock combined)
              Decompiler.usingRegex) as ([l|] & ->); eauto.
Qed.

Lemma splitTypes_total (code : text) :
  exists result, DecompilerService._splitTypes code = Some result.
Proof. apply while_loop_total. lia. Qed.

Lemma splitTypes_no_keyword (code : text) :
  existsb (includes code) typeKeywords = false ->
  DecompilerService._splitTypes code = Some [].
Proof.
  intros H. unfold DecompilerService._splitTypes. simpl.
  destruct (exec DecompilerService.typeRegex code 0) as [[mt|] li] eqn:E;
    [|reflexivity].
  apply exec_some in E as (_ & _ & _ & _ & M).
  apply typeRegex_keyword in M as (kw & j & I & P & _).
  apply startsWith_includes in P.
  assert (existsb (includes code) typeKeywords = true) as C
    by (apply existsb_exists; eauto).
  congruence.
Qed.

(** C8.  The core functions return on every string: the token loop, the
    partitioner, the header extraction and the type splitter never run out of
    the iterations their loops are given (every JavaScript primitive they use
    is defined on every string, so a loop that does not end is the only way
    for them not to return).  On the empty string the partitioner returns one
    [(global)] unit with an empty body; on a body that contains none of the
    kind keywords the type splitter returns the empty mapping. *)
Theorem core_total :
  (forall s, exists tokens, Decompiler.tokenize s = Some (tokens, 0))
  /\ (forall s, exists result, Decompiler.splitByNamespace s = Some result)
  /\ (forall s, exists lines, Decompiler.usingLines s = Some lines)
  /\ (forall code, exists result,
        DecompilerService._splitTypes code = Some result)
  /\ Decompiler.splitByNamespace (js "") = Some [(global_key, js "")]
  /\ (forall code, existsb (includes code) typeKeywords = false ->
        DecompilerService._splitTypes code = Some []).
Proof.
  split; [exact tokenize_total|].
  split; [exact splitByNamespace_total|].
  split; [exact usingLines_total|].
  split; [exact splitTypes_total|].
  split; [vm_compute; reflexivity|exact splitTypes_no_keyword].
Qed.

(** C8 at a body without any kind keyword. *)
Lemma core_total_witness :
  existsb (includes (js "int x;\nvoid f() { }")) typeKeywords = false
  /\ DecompilerService._splitTypes (js "int x;\nvoid f() { }") = Some [].
Proof.
  split; [vm_compute; reflexivity|].
  apply (proj2 (proj2 (proj2 (proj2 (proj2 core_total))))).
  vm_compute. reflexivity.
Defined.

Lemma tokenize_loop_same :
  forall fuel text lastIndex tokens,
  DecompilerService.tokenize_loop fuel text lastIndex tokens
  = Decompiler.tokenize_loop fuel text lastIndex tokens.
Proof.
  induction fuel as [|fuel IH]; intros text lastIndex tokens; [reflexivity|].
  cbn [DecompilerService.tokenize_loop Decompiler.tokenize_loop].
  change DecompilerService.nsRegex with Decompiler.nsRegex.
  destruct (exec Decompiler.nsRegex text lastIndex) as [[mt|] lastIndex'];
    [apply IH|reflexivity].
Qed.

Lemma append_same (result : Map) (ns chunk : text) :
  DecompilerService.append result ns chunk = Decompiler.append result ns chunk.
Proof. destruct chunk; reflexivity. Qed.

Lemma for_body_same (text : text) (lastIndex i : nat) (t : token)
  (next : option token) (st : Map * nat) :
  DecompilerService.for_body text lastIndex i t next st
  = Decompiler.for_body text lastIndex i t next st.
Proof.
  destruct st as [result cursor].
  unfold DecompilerService.for_body, Decompiler.for_body. cbn [fst snd].
  destruct ((i =? 0) && (cursor <? index t)); destruct (kind t);
    try destruct (indexOf text (ch "{") (index t));
    rewrite ?append_same; reflexivity.
Qed.

Lemma for_loop_same (text : text) (lastIndex : nat) :
  forall tokens i st,
  DecompilerService.for_loop text lastIndex i tokens st
  = Decompiler.for_loop text lastIndex i tokens st.
Proof.
  induction tokens as [|t rest IH]; intros i st; [reflexivity|].
  cbn [DecompilerService.for_loop Decompiler.for_loop].
  rewrite IH, for_body_same. reflexivity.
Qed.

(** C9.  [DecompilerService._splitByNamespace] and the exported
    [splitByNamespace] return the same mapping on every text: the same keys in
    the same insertion order, with the same bodies. *)
Theorem splitByNamespace_duplicate (text : text) :
  DecompilerService._splitByNamespace text = Decompiler.splitByNamespace text.
Proof.
  unfold DecompilerService._splitByNamespace, Decompiler.splitByNamespace.
  unfold DecompilerService.tokenize. rewrite tokenize_loop_same.
  fold (Decompiler.tokenize text).
  destruct (Decompiler.tokenize text) as [[tokens lastIndex]|]; [|reflexivity].
  destruct tokens as [|t rest]; [reflexivity|].
  cbn [length Nat.eqb]. rewrite for_loop_same.
  destruct (Decompiler.for_loop text lastIndex 0 (t :: rest) ([], 0))
    as [result cursor].
  cbn [fst snd]. rewrite append_same.
  destruct (cursor <? length text); reflexivity.
Qed.

(** C10.  [append] leaves the mapping as it is when the chunk is the empty
    string, so a block namespace with an empty body gets no entry: for
    [namespace A {}] the mapping is empty. *)
Theorem append_empty_slice :
  (forall result ns, Decompiler.append result ns [] = result)
  /\ slice (js "namespace A {}") 13 13 = []
  /\ Decompiler.splitByNamespace (js "namespace A {}") = Some [].
Proof.
  split; [reflexivity|]. split; vm_compute; reflexivity.
Qed.


(* ================================================================== *)
(** * Further properties of the code *)

(** ** The brace loop *)

Lemma excess_cons (c : char) (l : text) :
  excess (c :: l)
  = ((if isChar "{" c then 1 else if isChar "}" c then -1 else 0)
     + excess l)%Z.
Proof. reflexivity. Qed.

Lemma isChar_eq (a : ascii) (c : char) : isChar a c = true -> c = ch a.
Proof. unfold isChar. apply N.eqb_eq. Qed.

(** With a positive [depth] on entry, the loop runs while the count stays
    positive and stops just after the closing brace that brings it to zero, or
    at the end of the text when nothing does. *)
Lemma scanBraces_spec (rest : text) :
  forall (depth : Z) (j : nat), (0 < depth)%Z ->
  let k := scanBraces rest depth j - j in
  scanBraces rest depth j = j + k /\ k <= length rest
  /\ (forall i, i < k -> (0 < depth + excess (firstn i rest))%Z)
  /\ ((1 <= k /\ (depth + excess (firstn k rest) = 0)%Z
       /\ nth_error rest (k - 1) = Some (ch "}"))
      \/ (k = length rest /\ (0 < depth + excess (firstn k rest))%Z)).
Proof.
  induction rest as [|c rest IH]; intros depth j Hd; cbv zeta.
  - simpl. rewrite Nat.sub_diag. simpl.
    repeat split; try lia; try (right; split; [reflexivity|lia]).
  - cbn [scanBraces].
    assert (step : forall d, (0 < d)%Z ->
              (depth + excess [c] = d)%Z ->
              let k := scanBraces rest d (S j) - j in
              scanBraces rest d (S j) = j + k /\ k <= length (c :: rest)
              /\ (forall i, i < k ->
                    (0 < depth + excess (firstn i (c :: rest)))%Z)
              /\ ((1 <= k /\ (depth + excess (firstn k (c :: rest)) = 0)%Z
                   /\ nth_error (c :: rest) (k - 1) = Some (ch "}"))
                  \/ (k = length (c :: rest)
                      /\ (0 < depth + excess (firstn k (c :: rest)))%Z))).
    { intros d Hd' Hc. cbv zeta.
      destruct (IH d (S j) Hd') as (E & L & P & Q).
      pose proof (scanBraces_bounds rest d (S j)) as B.
      replace (scanBraces rest d (S j) - j)
        with (S (scanBraces rest d (S j) - S j)) by lia.
      set (k := scanBraces rest d (S j) - S j) in *.
      assert (shift : forall i, (depth + excess (firstn (S i) (c :: rest))
                                 = d + excess (firstn i rest))%Z).
      { intros i. cbn [firstn]. rewrite excess_cons.
        simpl in Hc. lia. }
      split; [lia|]. split; [simpl; lia|]. split.
      - intros [|i] Hi; [simpl; lia|]. rewrite shift. apply P. lia.
      - rewrite shift. destruct Q as [(K1 & K2 & K3)|(K1 & K2)].
        + left. split; [lia|]. split; [exact K2|].
          replace (S k - 1) with (S (k - 1)) by lia. exact K3.
        + right. split; [simpl; lia|exact K2]. }
    destruct (isChar "{" c) eqn:O.
    + apply step; [lia|]. simpl. rewrite O. lia.
    + destruct (isChar "}" c) eqn:C.
      * destruct (depth - 1 =? 0)%Z eqn:Z0.
        -- apply Z.eqb_eq in Z0.
           replace (S j - j) with 1 by lia.
           split; [lia|]. split; [simpl; lia|]. split.
           ++ intros i Hi. replace i with 0 by lia. simpl. lia.
           ++ left. split; [lia|]. simpl. rewrite O, C.
              split; [lia|]. apply isChar_eq in C. subst c. reflexivity.
        -- apply Z.eqb_neq in Z0. apply step; [lia|].
           simpl. rewrite O, C. lia.
      * apply step; [lia|]. simpl. rewrite O, C. lia.
Qed.

(** X1.  Started on an opening brace with [depth] 0, as all three call sites
    start it, the brace loop returns the offset just after the first closing
    brace at which openings and closings balance; before that offset the
    openings exceed the closings; when no offset balances them it returns the
    end of the text. *)
Theorem scanBraces_matching (rest : text) (braceStart : nat) :
  let text := ch "{" :: rest in
  let k := scanBraces text 0 braceStart - braceStart in
  scanBraces text 0 braceStart = braceStart + k
  /\ 1 <= k <= length text
  /\ (forall i, 1 <= i < k -> (0 < excess (firstn i text))%Z)
  /\ ((excess (firstn k text) = 0%Z
       /\ nth_error text (k - 1) = Some (ch "}"))
      \/ (k = length text /\ (0 < excess (firstn k text))%Z)).
Proof.
  cbv zeta. cbn [scanBraces].
  change (isChar "{" (ch "{")) with true. cbv iota.
  destruct (scanBraces_spec rest 1%Z (S braceStart)) as (E & L & P & Q); [lia|].
  pose proof (scanBraces_bounds rest (0 + 1)%Z (S braceStart)) as B.
  change (0 + 1)%Z with 1%Z in *.
  replace (scanBraces rest 1 (S braceStart) - braceStart)
    with (S (scanBraces rest 1 (S braceStart) - S braceStart)) by lia.
  set (k := scanBraces rest 1 (S braceStart) - S braceStart) in *.
  assert (shift : forall i, excess (firstn (S i) (ch "{" :: rest))
                            = (1 + excess (firstn i rest))%Z).
  { intros i. cbn [firstn]. rewrite excess_cons. reflexivity. }
  split; [lia|]. split; [simpl; lia|]. split.
  - intros [|i] Hi; [lia|]. rewrite shift. apply P. lia.
  - rewrite shift. destruct Q as [(K1 & K2 & K3)|(K1 & K2)].
    + left. split; [exact K2|].
      replace (S k - 1) with (S (k - 1)) by lia. exact K3.
    + right. split; [simpl; lia|exact K2].
Qed.

(** ** What the groups of a match hold *)

Lemma capture_In (n : nat) (caps : captures) (se : nat * nat) :
  capture n caps = Some se -> In (n, se) caps.
Proof.
  induction caps as [|[k se'] caps IH]; simpl; [discriminate|].
  destruct (k =? n) eqn:K.
  - apply Nat.eqb_eq in K; subst. intros H; injection H as ->. auto.
  - auto.
Qed.

Section MatcherGroups.

Variable input : text.
Variable multi : bool.

(** Every group of the final state was either there before or was set by a
    group of the pattern, around a stretch that the enclosed pattern matches
    inside the match. *)
Lemma m_groups_sound (r : regex) :
  forall x c z, m input multi r x c = Some z ->
  exists y, c y = Some z /\ Matches input multi r (fst x) (fst y)
    /\ forall n a b, In (n, (a, b)) (snd y) ->
         In (n, (a, b)) (snd x)
         \/ exists r', In (n, r') (groups_of r)
                       /\ Matches input multi r' a b
                       /\ fst x <= a /\ b <= fst y.
Proof.
  induction r as [|p|r1 IH1 r2 IH2|r1 IH1 r2 IH2|r IH|k r IH| | |];
    intros x c z H; simpl in H.
  - exists x; repeat split; auto; constructor.
  - destruct (nth_error input (fst x)) as [u|] eqn:E; [|discriminate].
    destruct (p u) eqn:P; [|discriminate].
    exists (S (fst x), snd x); repeat split; auto. econstructor; eauto.
  - apply IH1 in H as (y1 & H & M1 & G1).
    apply IH2 in H as (y2 & H & M2 & G2).
    exists y2. split; [exact H|]. split; [econstructor; eauto|].
    pose proof (Matches_le _ _ _ _ _ M1). pose proof (Matches_le _ _ _ _ _ M2).
    intros n a b I. apply G2 in I as [I|(r' & I & M & B1 & B2)].
    + apply G1 in I as [I|(r' & I & M & B1 & B2)]; [auto|].
      right. exists r'. simpl. rewrite in_app_iff. repeat split; auto; lia.
    + right. exists r'. simpl. rewrite in_app_iff. repeat split; auto; lia.
  - destruct (m input multi r1 x c) eqn:E.
    + injection H as ->. apply IH1 in E as (y & E & M & G).
      exists y. split; [exact E|]. split; [apply M_AltL; exact M|].
      intros n a b I. apply G in I as [I|(r' & I & M' & B)]; [auto|].
      right. exists r'. simpl. rewrite in_app_iff. auto.
    + apply IH2 in H as (y & H & M & G).
      exists y. split; [exact H|]. split; [apply M_AltR; exact M|].
      intros n a b I. apply G in I as [I|(r' & I & M' & B)]; [auto|].
      right. exists r'. simpl. rewrite in_app_iff. auto.
  - remember (length input - fst x) as fuel eqn:Hf. clear Hf. revert x H.
    induction fuel as [|fuel IHf]; intros x H; simpl in H.
    + exists x; repeat split; auto; constructor.
    + match type of H with
      | match ?t with _ => _ end = _ => destruct t eqn:E
      end.
      * injection H as ->. apply IH in E as (y & E & M & G).
        destruct (fst y =? fst x) eqn:Q; [discriminate|].
        apply Nat.eqb_neq in Q. apply IHf in E as (y' & E & M' & G').
        exists y'. split; [exact E|]. split; [eapply M_StarIter; eauto|].
        pose proof (Matches_le _ _ _ _ _ M).
        pose proof (Matches_le _ _ _ _ _ M').
        intros n a b I. apply G' in I as [I|(r' & I & Mr & B1 & B2)].
        -- apply G in I as [I|(r' & I & Mr & B1 & B2)]; [auto|].
           right. exists r'. repeat split; auto; lia.
        -- right. exists r'. repeat split; auto; lia.
      * exists x; repeat split; auto; constructor.
  - apply IH in H as (y & H & M & G).
    exists (fst y, (k, (fst x, fst y)) :: snd y). split; [exact H|].
    split; [constructor; exact M|].
    pose proof (Matches_le _ _ _ _ _ M).
    intros n a b [I|I].
    + injection I as <- <- <-. right. exists r. simpl. auto.
    + apply G in I as [I|(r' & I & M' & B)]; [auto|].
      right. exists r'. simpl. auto.
  - destruct (assertStart input multi (fst x)) eqn:E; [|discriminate].
    exists x; repeat split; auto; constructor; exact E.
  - destruct (assertEnd input multi (fst x)) eqn:E; [|discriminate].
    exists x; repeat split; auto; constructor; exact E.
  - destruct (wordBoundary input (fst x)) eqn:E; [|discriminate].
    exists x; repeat split; auto; constructor; exact E.
Qed.

Lemma matchAt_groups_sound (r : regex) (i n : nat) (y : state)
  (se : nat * nat) :
  matchAt input multi r i = Some y -> capture n (snd y) = Some se ->
  exists r', In (n, r') (groups_of r)
             /\ Matches input multi r' (fst se) (snd se)
             /\ i <= fst se /\ snd se <= fst y.
Proof.
  unfold matchAt. intros H C. apply m_groups_sound in H as (y' & H & _ & G).
  injection H as ->. apply capture_In in C. destruct se as [a b].
  apply G in C as [[]|C]. exact C.
Qed.

Lemma Matches_Chr_inv (p : char -> bool) (e e' : nat) :
  Matches input multi (Chr p) e e' ->
  e' = S e /\ exists u, nth_error input e = Some u /\ p u = true.
Proof. intros H; inversion H; subst; eauto. Qed.

Lemma skipn_nth_error (a : nat) (u : char) :
  nth_error input a = Some u -> skipn a input = u :: skipn (S a) input.
Proof.
  generalize input. induction a as [|a IH]; intros [|c l] E; try discriminate.
  - injection E as ->. reflexivity.
  - simpl in E. apply IH in E. exact E.
Qed.

Lemma slice_cons (a b : nat) (u : char) :
  nth_error input a = Some u -> a < b ->
  slice input a b = u :: slice input (S a) b.
Proof.
  intros E L. unfold slice. rewrite (skipn_nth_error a u E).
  replace (b - a) with (S (b - S a)) by lia. reflexivity.
Qed.

Lemma slice_empty (a b : nat) : b <= a -> slice input a b = [].
Proof. intros L. unfold slice. replace (b - a) with 0 by lia. reflexivity. Qed.

Lemma Matches_Star_Chr (p : char -> bool) (a b : nat) :
  Matches input multi (Star (Chr p)) a b ->
  Forall (fun u => p u = true) (slice input a b).
Proof.
  intros H. remember (Star (Chr p)) as r eqn:R. revert R.
  induction H; intros R; try discriminate; injection R as ->.
  - rewrite slice_empty by lia. constructor.
  - apply Matches_Chr_inv in H as (-> & u & E & P).
    pose proof (Matches_le _ _ _ _ _ H1).
    rewrite (slice_cons e e2 u E) by lia. constructor; auto.
Qed.

End MatcherGroups.

Lemma exec_group_sound (R : RegExp) (s : text) (lastIndex lastIndex' n : nat)
  (mt : MatchResult) (g : text) :
  exec R s lastIndex = (Some mt, lastIndex') ->
  group s mt n = Some g ->
  exists r' a b, In (n, r') (groups_of (pattern R))
                 /\ Matches s (multiline R) r' a b
                 /\ g = slice s a b
                 /\ match_index mt <= a /\ b <= match_end mt.
Proof.
  unfold exec. destruct (length s <? lastIndex); [discriminate|].
  destruct (matchFrom s (multiline R) (pattern R) (length s - lastIndex)
              lastIndex) as [[i y]|] eqn:E; [|discriminate].
  intros H; injection H as <- _. unfold group. simpl.
  apply matchFrom_sound in E as (_ & _ & A & _).
  destruct (capture n (snd y)) as [[a b]|] eqn:C; [|discriminate].
  intros G; injection G as <-.
  destruct (matchAt_groups_sound _ _ _ _ _ _ _ A C) as (r' & I & M & B1 & B2).
  exists r', a, b. auto.
Qed.

Lemma Matches_dottedName (s : text) (mu : bool) (a b : nat) :
  Matches s mu (Seq (Chr identStart) (Star (Chr dottedPart))) a b ->
  dottedName (slice s a b) /\ a < b.
Proof.
  intros H. apply Matches_Seq_inv in H as (e & H1 & H2).
  apply Matches_Chr_inv in H1 as (-> & u & E & P).
  pose proof (Matches_le _ _ _ _ _ H2).
  split; [|lia]. rewrite (slice_cons s a b u E) by lia.
  exists u, (slice s (S a) b). repeat split; auto.
  eapply Matches_Star_Chr; eauto.
Qed.

Lemma Matches_identifier (s : text) (mu : bool) (a b : nat) :
  Matches s mu (Seq (Chr identStart) (Star (Chr identPart))) a b ->
  identifier (slice s a b) /\ a < b.
Proof.
  intros H. apply Matches_Seq_inv in H as (e & H1 & H2).
  apply Matches_Chr_inv in H1 as (-> & u & E & P).
  pose proof (Matches_le _ _ _ _ _ H2).
  split; [|lia]. rewrite (slice_cons s a b u E) by lia.
  exists u, (slice s (S a) b). repeat split; auto.
  eapply Matches_Star_Chr; eauto.
Qed.

(** ** The tokens *)

Lemma nsRegex_length (s : text) (i e : nat) :
  Matches s (multiline Decompiler.nsRegex) (pattern Decompiler.nsRegex) i e ->
  i + 12 <= e
  /\ startsWith (skipn i s) (js "namespace") = true
  /\ wordBoundary s i = true.
Proof.
  cbv beta iota delta [Decompiler.nsRegex pattern multiline]. intros H.
  apply Matches_Seq_inv in H as (e1 & Hb & H).
  apply Matches_Seq_inv in H as (e2 & Hn & H).
  apply Matches_Seq_inv in H as (e3 & Hs & H).
  apply Matches_Seq_inv in H as (e4 & Hg & H).
  apply Matches_Seq_inv in H as (e5 & Hw & Hd).
  inversion Hb; subst. apply Matches_lit in Hn as (-> & P).
  apply Matches_Seq_inv in Hs as (e6 & Hs & Hs').
  apply Matches_Chr_inv in Hs as (-> & _). apply Matches_le in Hs'.
  apply Matches_Group_inv in Hg. apply Matches_dottedName in Hg as (_ & Hg).
  apply Matches_le in Hw. apply Matches_Group_inv in Hd.
  apply Matches_Alt_inv in Hd as [Hd|Hd];
    apply Matches_Chr_inv in Hd as (-> & _);
    change (length (js "namespace")) with 9 in *; repeat split; auto; lia.
Qed.

Lemma length_slice (s : text) (a b : nat) :
  b <= length s -> length (slice s a b) = b - a.
Proof.
  intros L. unfold slice. rewrite length_firstn, length_skipn. lia.
Qed.

Lemma indexOf_at_found (c : char) (rest : text) (i k : nat) :
  nth_error rest k = Some c ->
  exists b, indexOf_at c rest i = Some b /\ b <= i + k.
Proof.
  revert i k; induction rest as [|x rest IH]; intros i k E.
  - destruct k; discriminate.
  - simpl. destruct (x =? c)%N eqn:Q; [exists i; split; [reflexivity|lia]|].
    destruct k as [|k].
    + simpl in E. injection E as ->. rewrite N.eqb_refl in Q. discriminate.
    + simpl in E. destruct (IH (S i) k E) as (b & Eb & Lb).
      exists b; split; [exact Eb|lia].
Qed.

Lemma indexOf_found (s : text) (c : char) (from e : nat) :
  nth_error s e = Some c -> from <= e ->
  exists b, indexOf s c from = Some b /\ b <= e.
Proof.
  intros E L. unfold indexOf.
  destruct (indexOf_at_found c (skipn from s) from (e - from)) as (b & Eb & Lb).
  - rewrite nth_error_skipn. replace (from + (e - from)) with e by lia.
    exact E.
  - exists b; split; [exact Eb|lia].
Qed.

(** What one match of [nsRegex] puts into its token. *)
Lemma token_of_facts (s : text) (lastIndex lastIndex' : nat)
  (mt : MatchResult) :
  exec Decompiler.nsRegex s lastIndex = (Some mt, lastIndex') ->
  let t := Decompiler.token_of s mt in
  lastIndex <= index t /\ index t + 12 <= lastIndex' /\ lastIndex' <= length s
  /\ startsWith (skipn (index t) s) (js "namespace") = true
  /\ wordBoundary s (index t) = true
  /\ dottedName (name t)
  /\ (exists a, index t <= a /\ a + length (name t) <= lastIndex'
                /\ name t = slice s a (a + length (name t)))
  /\ (exists e, index t <= e < lastIndex'
                /\ nth_error s e
                   = Some (match kind t with
                           | file => ch ";"
                           | block => ch "{"
                           end)).
Proof.
  intros E. cbv zeta.
  destruct (nsRegex_groups s lastIndex lastIndex' mt E)
    as ((g1 & G1) & (g2 & G2)).
  pose proof (exec_group_sound _ _ _ _ _ _ _ E G1)
    as (r1 & a1 & b1 & I1 & M1 & E1 & A1 & B1).
  pose proof (exec_group_sound _ _ _ _ _ _ _ E G2)
    as (r2 & a2 & b2 & I2 & M2 & E2 & A2 & B2).
  apply exec_some in E as (H1 & H2 & H3 & -> & M).
  apply nsRegex_length in M as (L & P & W).
  unfold Decompiler.token_of. cbn [index name kind]. rewrite G1, G2.
  simpl in I1. destruct I1 as [I1|[I1|[]]]; [|discriminate].
  injection I1 as <-.
  simpl in I2. destruct I2 as [I2|[I2|[]]]; [discriminate|].
  injection I2 as <-.
  apply Matches_dottedName in M1 as (D1 & L1).
  assert (length g1 = b1 - a1) as Lg by (subst g1; apply length_slice; lia).
  repeat split; auto; try lia.
  - subst g1. exact D1.
  - exists a1. rewrite Lg. replace (a1 + (b1 - a1)) with b1 by lia.
    repeat split; auto; lia.
  - exists a2. apply Matches_Alt_inv in M2 as [M2|M2];
      apply Matches_Chr_inv in M2 as (-> & u & Eu & Pu);
      apply isChar_eq in Pu; subst u;
      rewrite (slice_cons s a2 (S a2) _ Eu) in E2 by lia;
      rewrite slice_empty in E2 by lia; subst g2;
      (split; [lia|exact Eu]).
Qed.

Lemma tokenize_loop_Forall (P : token -> Prop) (s : text) :
  (forall lastIndex lastIndex' mt,
     exec Decompiler.nsRegex s lastIndex = (Some mt, lastIndex') ->
     P (Decompiler.token_of s mt)) ->
  forall fuel lastIndex tokens r,
  Forall P tokens ->
  Decompiler.tokenize_loop fuel s lastIndex tokens = Some r ->
  Forall P (fst r).
Proof.
  intros HP. induction fuel as [|fuel IH]; intros lastIndex tokens r F H;
    [discriminate|]. simpl in H.
  destruct (exec Decompiler.nsRegex s lastIndex) as [[mt|] lastIndex'] eqn:E.
  - apply IH in H; [exact H|]. apply Forall_app; split; [exact F|].
    constructor; [|constructor]. eapply HP; eauto.
  - injection H as <-. exact F.
Qed.

Lemma StronglySorted_snoc {A : Type} (R : A -> A -> Prop) (l : list A) (x : A) :
  StronglySorted R l -> Forall (fun y => R y x) l ->
  StronglySorted R (l ++ [x]).
Proof.
  induction 1 as [|a l S IH F]; intros Fx; simpl.
  - constructor; constructor.
  - inversion Fx; subst. constructor; [auto|].
    apply Forall_app; split; [exact F|]. constructor; [assumption|constructor].
Qed.

Lemma tokenize_loop_sorted (s : text) :
  forall fuel lastIndex tokens r,
  StronglySorted (fun t1 t2 => index t1 + 12 <= index t2) tokens ->
  Forall (fun t => index t + 12 <= lastIndex /\ index t + 12 <= length s)
    tokens ->
  Decompiler.tokenize_loop fuel s lastIndex tokens = Some r ->
  StronglySorted (fun t1 t2 => index t1 + 12 <= index t2) (fst r)
  /\ Forall (fun t => index t + 12 <= length s) (fst r).
Proof.
  induction fuel as [|fuel IH]; intros lastIndex tokens r S F H;
    [discriminate|]. simpl in H.
  destruct (exec Decompiler.nsRegex s lastIndex) as [[mt|] lastIndex'] eqn:E.
  - pose proof (token_of_facts s lastIndex lastIndex' mt E) as T.
    cbv zeta in T. destruct T as (T1 & T2 & T3 & _).
    apply IH in H; [exact H| |].
    + apply StronglySorted_snoc; [exact S|].
      eapply Forall_impl; [|exact F]. cbv beta. intros t [Ht _]. lia.
    + apply Forall_app; split.
      * eapply Forall_impl; [|exact F]. cbv beta. intros t [Ht Ht']. lia.
      * constructor; [lia|constructor].
  - injection H as <-. split; [exact S|].
    eapply Forall_impl; [|exact F]. cbv beta. tauto.
Qed.

(** X2.  The tokens come in strictly increasing offset order, at least 12
    units apart (the shortest declaration), and each declaration lies within
    the text. *)
Theorem tokens_increasing (s : text) (tokens : list token) (lastIndex : nat) :
  Decompiler.tokenize s = Some (tokens, lastIndex) ->
  StronglySorted (fun t1 t2 => index t1 + 12 <= index t2) tokens
  /\ Forall (fun t => index t + 12 <= length s) tokens.
Proof.
  intros H. apply tokenize_loop_sorted in H; [exact H|constructor|constructor].
Qed.

(** X2 at a text with a file-scoped and a block declaration. *)
Lemma tokens_increasing_witness :
  exists tokens,
    Decompiler.tokenize (js "namespace A;\nnamespace B.C { x }")
    = Some (tokens, 0)
    /\ StronglySorted (fun t1 t2 => index t1 + 12 <= index t2) tokens
    /\ Forall (fun t => index t + 12
                        <= length (js "namespace A;\nnamespace B.C { x }"))
         tokens.
Proof.
  eexists. split; [vm_compute; reflexivity|].
  apply (tokens_increasing (js "namespace A;\nnamespace B.C { x }") _ 0).
  vm_compute. reflexivity.
Defined.

(** X3.  Every token stands on the keyword: at its offset the text reads
    [namespace] after a word boundary; its name is a dotted identifier (first
    unit a letter or an underscore, then letters, digits, underscores and
    dots) and is a stretch of the text itself, at or after the offset. *)
Theorem tokens_well_formed (s : text) (tokens : list token) (lastIndex : nat) :
  Decompiler.tokenize s = Some (tokens, lastIndex) ->
  Forall (fun t =>
            startsWith (skipn (index t) s) (js "namespace") = true
            /\ wordBoundary s (index t) = true
            /\ dottedName (name t)
            /\ exists a, index t <= a /\ a + length (name t) <= length s
                         /\ name t = slice s a (a + length (name t)))
    tokens.
Proof.
  intros H.
  apply (tokenize_loop_Forall _ s) with (tokens := []) (fuel := S (length s))
    (lastIndex := 0) (r := (tokens, lastIndex)); [|constructor|exact H].
  intros li li' mt E. pose proof (token_of_facts s li li' mt E) as T.
  cbv zeta in T.
  destruct T as (_ & _ & T3 & T4 & T5 & T6 & (a & A1 & A2 & A3) & _).
  repeat split; auto. exists a. repeat split; auto; lia.
Qed.

(** X3 at the same text. *)
Lemma tokens_well_formed_witness :
  exists tokens,
    Decompiler.tokenize (js "namespace A;\nnamespace B.C { x }")
    = Some (tokens, 0)
    /\ Forall (fun t =>
                 startsWith (skipn (index t)
                               (js "namespace A;\nnamespace B.C { x }"))
                   (js "namespace") = true
                 /\ wordBoundary (js "namespace A;\nnamespace B.C { x }")
                      (index t) = true
                 /\ dottedName (name t)
                 /\ exists a,
                      index t <= a
                      /\ a + length (name t)
                         <= length (js "namespace A;\nnamespace B.C { x }")
                      /\ name t
                         = slice (js "namespace A;\nnamespace B.C { x }") a
                             (a + length (name t)))
         tokens.
Proof.
  eexists. split; [vm_compute; reflexivity|].
  apply (tokens_well_formed (js "namespace A;\nnamespace B.C { x }") _ 0).
  vm_compute. reflexivity.
Defined.

(** ** The keys and the bodies of the mappings *)

Lemma map_set_keys_In (mp : Map) (k v k' : text) :
  In k' (map fst (map_set mp k v)) <-> k' = k \/ In k' (map fst mp).
Proof.
  induction mp as [|[k0 v0] mp IH]; simpl.
  - intuition congruence.
  - destruct (text_eqb k0 k) eqn:E; simpl.
    + apply text_eqb_eq in E; subst. intuition congruence.
    + rewrite IH. intuition congruence.
Qed.

Lemma map_set_keys_NoDup (mp : Map) (k v : text) :
  NoDup (map fst mp) -> NoDup (map fst (map_set mp k v)).
Proof.
  induction mp as [|[k0 v0] mp IH]; simpl; intros N.
  - constructor; [intros []|constructor].
  - inversion N as [|? ? N1 N2]; subst.
    destruct (text_eqb k0 k) eqn:E; simpl.
    + constructor; assumption.
    + constructor; [|apply IH; exact N2].
      rewrite map_set_keys_In. intros [->|I]; [|contradiction].
      rewrite text_eqb_refl in E. discriminate.
Qed.

Lemma map_set_values (P : text -> Prop) (mp : Map) (k v : text) :
  Forall (fun kv => P (snd kv)) mp -> P v ->
  Forall (fun kv => P (snd kv)) (map_set mp k v).
Proof.
  intros F Pv. induction mp as [|[k0 v0] mp IH]; simpl.
  - constructor; [exact Pv|constructor].
  - inversion F; subst. destruct (text_eqb k0 k); constructor; auto.
Qed.

Lemma append_keys_NoDup (result : Map) (ns chunk : text) :
  NoDup (map fst result) -> NoDup (map fst (Decompiler.append result ns chunk)).
Proof.
  unfold Decompiler.append. destruct chunk; [auto|].
  apply map_set_keys_NoDup.
Qed.

Lemma append_keys_In (result : Map) (ns chunk k : text) :
  In k (map fst (Decompiler.append result ns chunk)) ->
  k = ns \/ In k (map fst result).
Proof.
  unfold Decompiler.append. destruct chunk; [auto|].
  apply map_set_keys_In.
Qed.

Lemma append_values (result : Map) (ns chunk : text) :
  Forall (fun kv => exists body, snd kv = body ++ js "\n") result ->
  Forall (fun kv => exists body, snd kv = body ++ js "\n")
    (Decompiler.append result ns chunk).
Proof.
  intros F. unfold Decompiler.append. destruct chunk as [|c chunk]; [exact F|].
  apply (map_set_values (fun v => exists body, v = body ++ js "\n"));
    [exact F|].
  eexists. rewrite app_assoc. reflexivity.
Qed.

Lemma perform_inv (P : Map -> Prop) :
  (forall result ns chunk, P result -> P (Decompiler.append result ns chunk)) ->
  forall calls result, P result -> P (perform result calls).
Proof.
  intros HP. induction calls as [|c calls IH]; intros result H; [exact H|].
  apply IH. apply HP. exact H.
Qed.

Lemma perform_keys_In (k : text) :
  forall calls result,
  In k (map fst (perform result calls)) ->
  In k (map fst result) \/ In k (map fst calls).
Proof.
  induction calls as [|c calls IH]; intros result H; [auto|].
  apply IH in H as [H|H]; [|simpl; auto].
  apply append_keys_In in H as [->|H]; simpl; auto.
Qed.

Lemma calls_of_body_names (s : text) (lastIndex i : nat) (t : token)
  (next : option token) (cursor : nat) (k : text) :
  In k (map fst (fst (calls_of_body s lastIndex i t next cursor))) ->
  k = global_key \/ k = name t.
Proof.
  unfold calls_of_body.
  destruct ((i =? 0) && (cursor <? index t)); destruct (kind t);
    try destruct (indexOf s (ch "{") (index t)); simpl; intuition.
Qed.

Lemma calls_of_loop_names (s : text) (lastIndex : nat) (k : text) :
  forall tokens i cursor,
  In k (map fst (fst (calls_of_loop s lastIndex i tokens cursor))) ->
  k = global_key \/ exists t, In t tokens /\ k = name t.
Proof.
  induction tokens as [|t rest IH]; intros i cursor H; [destruct H|].
  cbn [calls_of_loop] in H.
  pose proof (calls_of_body_names s lastIndex i t (hd_error rest) cursor k)
    as B.
  destruct (calls_of_body s lastIndex i t (hd_error rest) cursor)
    as [calls cursor'].
  specialize (IH (S i) cursor').
  destruct (calls_of_loop s lastIndex (S i) rest cursor') as [calls' cursor''].
  cbn [fst] in *. rewrite map_app, in_app_iff in H. destruct H as [H|H].
  - apply B in H as [H|H]; [auto|]. right. exists t. simpl. auto.
  - apply IH in H as [H|(t' & I & H)]; [auto|].
    right. exists t'. simpl. auto.
Qed.

Lemma append_calls_names (s : text) (lastIndex : nat) (tokens : list token)
  (k : text) :
  In k (map fst (append_calls s lastIndex tokens)) ->
  k = global_key \/ exists t, In t tokens /\ k = name t.
Proof.
  unfold append_calls.
  pose proof (calls_of_loop_names s lastIndex k tokens 0 0) as L.
  destruct (calls_of_loop s lastIndex 0 tokens 0) as [calls cursor].
  cbn [fst] in L. rewrite map_app, in_app_iff. intros [H|H]; [auto|].
  destruct (cursor <? length s); simpl in H; intuition.
Qed.

Lemma tokenize_names_dotted (s : text) (tokens : list token) (lastIndex : nat) :
  Decompiler.tokenize s = Some (tokens, lastIndex) ->
  Forall (fun t => dottedName (name t)) tokens.
Proof.
  intros H.
  apply (tokenize_loop_Forall _ s) with (tokens := []) (fuel := S (length s))
    (lastIndex := 0) (r := (tokens, lastIndex)); [|constructor|exact H].
  intros li li' mt E. pose proof (token_of_facts s li li' mt E) as T.
  cbv zeta in T. tauto.
Qed.

Lemma splitByNamespace_keys (s : text) (tokens : list token) (lastIndex : nat)
  (result : Map) :
  Decompiler.tokenize s = Some (tokens, lastIndex) ->
  Decompiler.splitByNamespace s = Some result ->
  NoDup (map fst result)
  /\ forall ns, In ns (map fst result) ->
       ns = global_key
       \/ (dottedName ns /\ exists t, In t tokens /\ ns = name t).
Proof.
  intros E H. destruct tokens as [|t rest].
  - unfold Decompiler.splitByNamespace in H. rewrite E in H.
    injection H as <-. simpl. split.
    + constructor; [intros []|constructor].
    + intros ns [<-|[]]. auto.
  - rewrite (splitByNamespace_calls s (t :: rest) lastIndex E) in H
      by discriminate.
    injection H as <-. split.
    + apply (perform_inv (fun mp => NoDup (map fst mp)));
        [intros; apply append_keys_NoDup; assumption|constructor].
    + intros ns I. apply perform_keys_In in I as [[]|I].
      apply append_calls_names in I as [I|(t' & I & ->)]; [auto|].
      right. split; [|eauto].
      pose proof (tokenize_names_dotted s (t :: rest) lastIndex E) as W.
      rewrite Forall_forall in W. apply W in I. exact I.
Qed.

(** X5.  A mapping returned by the partitioner holds every name once, and
    every name in it is [(global)] or the name of a token, hence a dotted
    identifier. *)
Theorem partition_keys (s : text) (tokens : list token) (lastIndex : nat)
  (result : Map) :
  Decompiler.tokenize s = Some (tokens, lastIndex) ->
  Decompiler.splitByNamespace s = Some result ->
  NoDup (map fst result)
  /\ forall ns, In ns (map fst result) ->
       ns = global_key
       \/ (dottedName ns /\ exists t, In t tokens /\ ns = name t).
Proof. apply splitByNamespace_keys. Qed.

(** X5 at the same text. *)
Lemma partition_keys_witness :
  exists tokens result,
    Decompiler.tokenize (js "namespace A;\nnamespace B.C { x }")
    = Some (tokens, 0)
    /\ Decompiler.splitByNamespace (js "namespace A;\nnamespace B.C { x }")
       = Some result
    /\ NoDup (map fst result)
    /\ forall ns, In ns (map fst result) ->
         ns = global_key
         \/ (dottedName ns /\ exists t, In t tokens /\ ns = name t).
Proof.
  eexists. eexists. split; [vm_compute; reflexivity|].
  split; [vm_compute; reflexivity|].
  apply (partition_keys (js "namespace A;\nnamespace B.C { x }") _ 0 _);
    vm_compute; reflexivity.
Defined.

(** X6.  When the text has at least one token, every body of the mapping
    ends with a newline (so none is empty). *)
Theorem partition_bodies_end_with_newline (s : text) (tokens : list token)
  (lastIndex : nat) (result : Map) :
  Decompiler.tokenize s = Some (tokens, lastIndex) -> tokens <> [] ->
  Decompiler.splitByNamespace s = Some result ->
  Forall (fun entry => exists body, snd entry = body ++ js "\n") result.
Proof.
  intros E N H. rewrite (splitByNamespace_calls s tokens lastIndex E N) in H.
  injection H as <-.
  apply (perform_inv
           (Forall (fun entry => exists body, snd entry = body ++ js "\n")));
    [intros; apply append_values; assumption|constructor].
Qed.

(** X6 at the same text. *)
Lemma partition_bodies_end_with_newline_witness :
  exists result,
    Decompiler.splitByNamespace (js "namespace A;\nnamespace B.C { x }")
    = Some result
    /\ Forall (fun entry => exists body, snd entry = body ++ js "\n") result.
Proof.
  eexists. split; [vm_compute; reflexivity|].
  apply (partition_bodies_end_with_newline
           (js "namespace A;\nnamespace B.C { x }")
           [ {| index := 0; name := js "A"; kind := file |};
             {| index := 13; name := js "B.C"; kind := block |} ] 0 _).
  - vm_compute. reflexivity.
  - discriminate.
  - vm_compute. reflexivity.
Defined.

(** ** [extractNamespaces] and the tokens *)

Section Strip.

Variable input : text.
Variable multi : bool.
Variable n : nat.

(** Making a group non-capturing changes nothing in a match but that
    group. *)
Lemma m_strip (r : regex) :
  forall x x' c c',
  same_upto n x x' ->
  (forall y y', same_upto n y y' -> same_result n (c y) (c' y')) ->
  same_result n (m input multi r x c) (m input multi (strip n r) x' c').
Proof.
  induction r as [|p|r1 IH1 r2 IH2|r1 IH1 r2 IH2|r IH|k r IH| | |];
    intros x x' c c' Hx Hc; simpl.
  - apply Hc; exact Hx.
  - destruct Hx as [Hx Hk]. rewrite <- Hx.
    destruct (nth_error input (fst x)) as [u|]; [|exact I].
    destruct (p u); [|exact I]. apply Hc. split; simpl; auto.
  - apply IH1; [exact Hx|]. intros y y' Hy. apply IH2; assumption.
  - pose proof (IH1 x x' c c' Hx Hc) as H1.
    pose proof (IH2 x x' c c' Hx Hc) as H2.
    destruct (m input multi r1 x c), (m input multi (strip n r1) x' c');
      simpl in H1; try contradiction; assumption.
  - destruct Hx as [Hx Hk]. rewrite <- Hx.
    generalize (length input - fst x) as fuel. intros fuel.
    assert (Hxx : same_upto n x x') by (split; assumption).
    clear Hx Hk. revert x x' Hxx.
    induction fuel as [|fuel IHf]; intros x x' Hx; simpl.
    + apply Hc; exact Hx.
    + assert (same_result n
                (m input multi r x
                   (fun y => if fst y =? fst x then None
                             else repeatMatcher (m input multi r) c fuel y))
                (m input multi (strip n r) x'
                   (fun y => if fst y =? fst x' then None
                             else repeatMatcher (m input multi (strip n r))
                                    c' fuel y))) as H.
      { apply IH; [exact Hx|]. intros y y' Hy.
        destruct Hx as [Hx _]. destruct Hy as [Hy Hyk].
        rewrite <- Hx, <- Hy. destruct (fst y =? fst x); [exact I|].
        apply IHf. split; assumption. }
      match type of H with
      | same_result _ ?a ?b => destruct a, b
      end; simpl in H; try contradiction; [exact H|].
      apply Hc; exact Hx.
  - destruct (k =? n) eqn:K.
    + apply Nat.eqb_eq in K; subst k. apply IH; [exact Hx|].
      intros y y' [Hy Hyk]. apply Hc. split; [exact Hy|].
      intros k Hk. simpl. replace (n =? k) with false; [auto|].
      symmetry; apply Nat.eqb_neq; congruence.
    + simpl. apply IH; [exact Hx|].
      intros y y' [Hy Hyk]. apply Hc. destruct Hx as [Hx _].
      split; [exact Hy|]. intros j Hj. simpl. rewrite Hx, Hy.
      destruct (k =? j); auto.
  - destruct Hx as [Hx Hk]. rewrite <- Hx.
    destruct (assertStart input multi (fst x)); [|exact I].
    apply Hc; split; assumption.
  - destruct Hx as [Hx Hk]. rewrite <- Hx.
    destruct (assertEnd input multi (fst x)); [|exact I].
    apply Hc; split; assumption.
  - destruct Hx as [Hx Hk]. rewrite <- Hx.
    destruct (wordBoundary input (fst x)); [|exact I].
    apply Hc; split; assumption.
Qed.

Lemma matchAt_strip (r : regex) (i : nat) :
  same_result n (matchAt input multi r i) (matchAt input multi (strip n r) i).
Proof.
  unfold matchAt. apply m_strip.
  - split; [reflexivity|auto].
  - intros y y' Hy. exact Hy.
Qed.

Lemma matchFrom_strip (r : regex) :
  forall k i,
  match matchFrom input multi r k i,
        matchFrom input multi (strip n r) k i with
  | Some (j, y), Some (j', y') => j = j' /\ same_upto n y y'
  | None, None => True
  | _, _ => False
  end.
Proof.
  induction k as [|k IH]; intros i; simpl;
    pose proof (matchAt_strip r i) as H;
    destruct (matchAt input multi r i),
             (matchAt input multi (strip n r) i);
    simpl in H; try contradiction; auto.
  apply IH.
Qed.

End Strip.

(** [re] finds the same matches as [nsRegex], with the same first group. *)
Lemma exec_re (s : text) (lastIndex : nat) :
  match exec Decompiler.nsRegex s lastIndex, exec Decompiler.re s lastIndex with
  | (Some mt, l), (Some mt', l') =>
      l = l' /\ match_index mt = match_index mt'
      /\ group s mt 1 = group s mt' 1
  | (None, l), (None, l') => l = l'
  | _, _ => False
  end.
Proof.
  unfold exec. destruct (length s <? lastIndex); [reflexivity|].
  change (pattern Decompiler.re) with (strip 2 (pattern Decompiler.nsRegex)).
  change (multiline Decompiler.re) with (multiline Decompiler.nsRegex).
  pose proof (matchFrom_strip s (multiline Decompiler.nsRegex) 2
                (pattern Decompiler.nsRegex) (length s - lastIndex) lastIndex)
    as H.
  destruct (matchFrom s (multiline Decompiler.nsRegex)
              (pattern Decompiler.nsRegex) (length s - lastIndex) lastIndex)
    as [[j y]|],
    (matchFrom s (multiline Decompiler.nsRegex)
       (strip 2 (pattern Decompiler.nsRegex)) (length s - lastIndex) lastIndex)
    as [[j' y']|]; try contradiction; [|reflexivity].
  destruct H as (-> & Hf & Hk). unfold group. simpl.
  rewrite (Hk 1) by discriminate. auto.
Qed.

Lemma extract_loop_names (s : text) :
  forall fuel lastIndex tokens,
  Decompiler.extract_loop fuel s lastIndex (map name tokens)
  = match Decompiler.tokenize_loop fuel s lastIndex tokens with
    | Some r => Some (map name (fst r))
    | None => None
    end.
Proof.
  induction fuel as [|fuel IH]; intros lastIndex tokens; [reflexivity|].
  cbn [Decompiler.extract_loop Decompiler.tokenize_loop].
  pose proof (exec_re s lastIndex) as H.
  destruct (exec Decompiler.nsRegex s lastIndex) as [[mt|] l],
           (exec Decompiler.re s lastIndex) as [[mt'|] l'];
    try contradiction.
  - destruct H as (<- & _ & G). rewrite <- IH, map_app. cbn [map].
    unfold Decompiler.token_of. cbn [name]. rewrite G. reflexivity.
  - reflexivity.
Qed.

(** X7.  [extractNamespaces] returns, in order and with repetitions, the
    names of the tokens that [splitByNamespace] works on. *)
Theorem extractNamespaces_token_names (s : text) :
  Decompiler.extractNamespaces s
  = match Decompiler.tokenize s with
    | Some (tokens, _) => Some (map name tokens)
    | None => None
    end.
Proof.
  unfold Decompiler.extractNamespaces, Decompiler.tokenize.
  change (@nil text) with (map name []).
  rewrite (extract_loop_names s (S (length s)) 0 []).
  destruct (Decompiler.tokenize_loop (S (length s)) s 0 []) as [[tokens l]|];
    reflexivity.
Qed.

(** ** [listNamespaces] *)

Lemma existsb_text_eqb (x : text) (l : list text) :
  existsb (text_eqb x) l = true <-> In x l.
Proof.
  rewrite existsb_exists. split.
  - intros (y & I & E). apply text_eqb_eq in E. subst. exact I.
  - intros I. exists x. split; [exact I|apply text_eqb_refl].
Qed.

Lemma unique_from (xs : list text) :
  forall seen, NoDup seen ->
  let r := fold_left (fun seen x => if existsb (text_eqb x) seen then seen
                                    else seen ++ [x]) xs seen in
  NoDup r /\ forall x, In x r <-> In x seen \/ In x xs.
Proof.
  induction xs as [|y xs IH]; intros seen N; cbv zeta; simpl.
  - split; [exact N|]. intuition.
  - destruct (existsb (text_eqb y) seen) eqn:E.
    + destruct (IH seen N) as (N' & M). split; [exact N'|].
      intros x. rewrite M. apply existsb_text_eqb in E.
      intuition (subst; auto).
    + assert (~ In y seen) as Ny.
      { intros I. apply existsb_text_eqb in I. congruence. }
      destruct (IH (seen ++ [y])) as (N' & M).
      { apply NoDup_app; [exact N|constructor; [intros []|constructor]|].
        intros a Ia [<-|[]]. contradiction. }
      split; [exact N'|]. intros x. rewrite M, in_app_iff. simpl. tauto.
Qed.

Lemma unique_spec (xs : list text) :
  NoDup (unique xs) /\ forall x, In x (unique xs) <-> In x xs.
Proof.
  destruct (unique_from xs [] (NoDup_nil _)) as (N & M).
  split; [exact N|]. intros x. unfold unique. rewrite M. simpl. tauto.
Qed.

Lemma text_leb_total (a b : text) :
  text_leb a b = false -> text_leb b a = true.
Proof.
  revert b; induction a as [|x a IH]; intros [|y b]; simpl; try discriminate;
    auto.
  destruct (N.ltb_spec x y); [discriminate|].
  destruct (N.ltb_spec y x); [reflexivity|]. apply IH.
Qed.

Lemma text_leb_trans (a b c : text) :
  text_leb a b = true -> text_leb b c = true -> text_leb a c = true.
Proof.
  revert b c; induction a as [|x a IH]; intros [|y b] [|z c]; simpl;
    try discriminate; auto.
  destruct (N.ltb_spec x y), (N.ltb_spec y z), (N.ltb_spec x z),
    (N.ltb_spec y x), (N.ltb_spec z y), (N.ltb_spec z x);
    try discriminate; try reflexivity; try lia.
  apply IH.
Qed.

Lemma insert_sorted_In (x y : text) (l : list text) :
  In y (insert_sorted x l) <-> y = x \/ In y l.
Proof.
  induction l as [|z l IH]; simpl.
  - intuition.
  - destruct (text_leb x z); simpl; [intuition|]. rewrite IH. intuition.
Qed.

Lemma insert_sorted_sorted (x : text) (l : list text) :
  StronglySorted (fun a b => text_leb a b = true) l ->
  StronglySorted (fun a b => text_leb a b = true) (insert_sorted x l).
Proof.
  induction 1 as [|z l S IH F]; simpl.
  - constructor; constructor.
  - destruct (text_leb x z) eqn:E.
    + constructor; [constructor; assumption|].
      constructor; [exact E|].
      eapply Forall_impl; [|exact F]. cbv beta. intros a Ha.
      eapply text_leb_trans; eauto.
    + constructor; [exact IH|]. apply Forall_forall. intros a Ia.
      apply insert_sorted_In in Ia as [->|Ia].
      * apply text_leb_total; exact E.
      * rewrite Forall_forall in F. auto.
Qed.

Lemma insert_sorted_NoDup (x : text) (l : list text) :
  ~ In x l -> NoDup l -> NoDup (insert_sorted x l).
Proof.
  induction l as [|z l IH]; simpl; intros Nx N.
  - constructor; [intros []|constructor].
  - destruct (text_leb x z); [constructor; assumption|].
    inversion N; subst. constructor.
    + rewrite insert_sorted_In. intuition.
    + apply IH; intuition.
Qed.

Lemma sort_strings_spec (xs : list text) :
  StronglySorted (fun a b => text_leb a b = true) (sort_strings xs)
  /\ (forall x, In x (sort_strings xs) <-> In x xs)
  /\ (NoDup xs -> NoDup (sort_strings xs)).
Proof.
  induction xs as [|x xs (S & M & N)]; simpl.
  - repeat split; auto; constructor.
  - split; [apply insert_sorted_sorted; exact S|]. split.
    + intros y. rewrite insert_sorted_In, M. intuition.
    + intros Nx. inversion Nx; subst.
      apply insert_sorted_NoDup; [rewrite M; assumption|auto].
Qed.

(** X8.  [listNamespaces] returns the names of the tokens of the text, each
    once, in ascending code-unit order. *)
Theorem listNamespaces_sorted_unique (combined : text) (tokens : list token)
  (lastIndex : nat) :
  Decompiler.tokenize combined = Some (tokens, lastIndex) ->
  exists names,
    DecompilerService.listNamespaces combined = Some names
    /\ StronglySorted (fun a b => text_leb a b = true) names
    /\ NoDup names
    /\ forall n, In n names <-> exists t, In t tokens /\ name t = n.
Proof.
  intros E. unfold DecompilerService.listNamespaces.
  pose proof (extract_loop_names combined (S (length combined)) 0 []) as X.
  change (map name []) with (@nil text) in X.
  fold (Decompiler.extractNamespaces combined) in X.
  fold (Decompiler.tokenize combined) in X. rewrite E in X. rewrite X.
  cbn [fst]. eexists. split; [reflexivity|].
  destruct (sort_strings_spec (unique (map name tokens))) as (S & M & N).
  destruct (unique_spec (map name tokens)) as (U & MU).
  split; [exact S|]. split; [auto|].
  intros n. rewrite M, MU, in_map_iff.
  split; intros (t & A & B); exists t; auto.
Qed.

(** X8 at a text that declares [B.C], [A] and [B.C] again. *)
Lemma listNamespaces_sorted_unique_witness :
  DecompilerService.listNamespaces
    (js "namespace B.C { }\nnamespace A;\nnamespace B.C { }")
  = Some [js "A"; js "B.C"]
  /\ exists names,
       DecompilerService.listNamespaces
         (js "namespace B.C { }\nnamespace A;\nnamespace B.C { }")
       = Some names
       /\ StronglySorted (fun a b => text_leb a b = true) names
       /\ NoDup names
       /\ forall n,
            In n names
            <-> exists t,
                  In t [ {| index := 0; name := js "B.C"; kind := block |};
                         {| index := 18; name := js "A"; kind := file |};
                         {| index := 31; name := js "B.C"; kind := block |} ]
                  /\ name t = n.
Proof.
  split; [vm_compute; reflexivity|].
  apply (listNamespaces_sorted_unique
           (js "namespace B.C { }\nnamespace A;\nnamespace B.C { }") _ 0).
  vm_compute. reflexivity.
Defined.

(** X9.  The tool [list-dotnet-namespaces] answers [(none)] exactly when the
    text has no token. *)
Theorem listNamespaces_text_none (combined : text) (tokens : list token)
  (lastIndex : nat) :
  Decompiler.tokenize combined = Some (tokens, lastIndex) ->
  (DecompilerService.listNamespaces_text combined = Some (js "(none)")
   <-> tokens = []).
Proof.
  intros E. unfold DecompilerService.listNamespaces_text,
    DecompilerService.listNamespaces.
  pose proof (extract_loop_names combined (S (length combined)) 0 []) as X.
  change (map name []) with (@nil text) in X.
  fold (Decompiler.extractNamespaces combined) in X.
  fold (Decompiler.tokenize combined) in X. rewrite E in X. rewrite X.
  cbn [fst]. split.
  - intros H. destruct tokens as [|t rest]; [reflexivity|exfalso].
    destruct (sort_strings_spec (unique (map name (t :: rest))))
      as (_ & M & _).
    destruct (unique_spec (map name (t :: rest))) as (_ & MU).
    pose proof (tokenize_names_dotted combined (t :: rest) lastIndex E) as D.
    destruct (sort_strings (unique (map name (t :: rest)))) as [|n names].
    + assert (In (name t) []) as []. apply M, MU. simpl. auto.
    + assert (dottedName n) as (c & p & -> & Ic & _).
      { assert (In n (map name (t :: rest))) as I
          by (apply MU, M; simpl; auto).
        apply in_map_iff in I as (t' & <- & I).
        rewrite Forall_forall in D. apply D; exact I. }
      destruct names as [|n2 names]; simpl in H; injection H as -> _;
        vm_compute in Ic; discriminate.
  - intros ->. reflexivity.
Qed.

(** X9 at a text without a declaration. *)
Lemma listNamespaces_text_none_witness :
  DecompilerService.listNamespaces_text (js "int x;") = Some (js "(none)")
  <-> @nil token = [].
Proof.
  apply (listNamespaces_text_none (js "int x;") [] 0).
  vm_compute. reflexivity.
Defined.

(** ** The callers of the partitioner *)

Lemma test_semicolonAtEnd (ns : text) :
  test DecompilerService.semicolonAtEnd ns = true -> In (ch ";") ns.
Proof.
  unfold test, search.
  destruct (matchFrom ns (multiline DecompilerService.semicolonAtEnd)
              (pattern DecompilerService.semicolonAtEnd) (length ns) 0)
    as [[j y]|] eqn:E; [|discriminate].
  intros _. apply matchFrom_sound in E as (_ & M & _).
  cbv beta iota delta [DecompilerService.semicolonAtEnd pattern multiline] in M.
  apply Matches_Seq_inv in M as (e & M & _).
  apply Matches_Chr_inv in M as (_ & u & E & P).
  apply isChar_eq in P. subst u. eapply nth_error_In; eauto.
Qed.

Lemma dottedName_no_semicolon (ns : text) :
  dottedName ns -> ~ In (ch ";") ns.
Proof.
  intros (c & rest & -> & Ic & F) [Hc|I].
  - subst c. vm_compute in Ic. discriminate.
  - rewrite Forall_forall in F. apply F in I. vm_compute in I. discriminate.
Qed.

(** X10.  For every name of a mapping returned by the partitioner, the test
    [/;\s*$/.test(ns)] of the callers fails, so the unit they write is always
    the header lines, [namespace <ns>;] and the body; this holds for
    [(global)] too, which gets the line [namespace (global);]. *)
Theorem finalCode_of_partition_key (s : text) (tokens : list token)
  (lastIndex : nat) (result : Map) (usingLines ns code : text) :
  Decompiler.tokenize s = Some (tokens, lastIndex) ->
  Decompiler.splitByNamespace s = Some result ->
  In ns (map fst result) ->
  DecompilerService.finalCode usingLines ns code
  = usingLines ++ js "\n\n" ++ (js "namespace " ++ ns ++ js ";")
    ++ js "\n\n" ++ code ++ js "\n".
Proof.
  intros E H I.
  unfold DecompilerService.finalCode, DecompilerService.fileScoped.
  destruct (test DecompilerService.semicolonAtEnd ns) eqn:T; [|reflexivity].
  exfalso. apply test_semicolonAtEnd in T.
  destruct (splitByNamespace_keys s tokens lastIndex result E H) as (_ & K).
  apply K in I as [->|(D & _)].
  - vm_compute in T. intuition discriminate.
  - apply (dottedName_no_semicolon ns D T).
Qed.

(** X10 at the name [(global)] of a text that has a leading comment. *)
Lemma finalCode_of_partition_key_witness :
  DecompilerService.finalCode (js "using S;") (js "(global)") (js "// x\n")
  = js "using S;\n\nnamespace (global);\n\n// x\n\n".
Proof.
  apply (finalCode_of_partition_key (js "// x\nnamespace A { }")
           [ {| index := 5; name := js "A"; kind := block |} ] 0
           [(js "(global)", js "// x\n"); (js "A", js "\n")]).
  - vm_compute. reflexivity.
  - vm_compute. reflexivity.
  - simpl. auto.
Defined.

Lemma map_set_new (mp : Map) (k v : text) :
  ~ In k (map fst mp) -> map_set mp k v = mp ++ [(k, v)].
Proof.
  induction mp as [|[k0 v0] mp IH]; simpl; intros N; [reflexivity|].
  destruct (text_eqb k0 k) eqn:E.
  - apply text_eqb_eq in E. subst. intuition.
  - rewrite IH by intuition. reflexivity.
Qed.

Lemma existsb_unique (f : text -> bool) (xs : list text) :
  existsb f (unique xs) = existsb f xs.
Proof.
  destruct (unique_spec xs) as (_ & M).
  destruct (existsb f xs) eqn:E.
  - apply existsb_exists in E as (x & I & F). apply existsb_exists.
    exists x. split; [apply M; exact I|exact F].
  - destruct (existsb f (unique xs)) eqn:E'; [|reflexivity].
    apply existsb_exists in E' as (x & I & F).
    assert (existsb f xs = true) as C
      by (apply existsb_exists; exists x; split; [apply M; exact I|exact F]).
    congruence.
Qed.

Lemma fold_select (g : text * text -> bool) :
  forall (l acc : Map), NoDup (map fst acc ++ map fst l) ->
  fold_left (fun selected entry =>
               if g entry then map_set selected (fst entry) (snd entry)
               else selected) l acc
  = acc ++ filter g l.
Proof.
  induction l as [|[k v] l IH]; intros acc N; simpl.
  - rewrite app_nil_r. reflexivity.
  - simpl in N. destruct (g (k, v)).
    + rewrite map_set_new.
      * rewrite IH; [rewrite <- app_assoc; reflexivity|].
        rewrite map_app. simpl. rewrite <- app_assoc. exact N.
      * apply NoDup_remove_2 in N. rewrite in_app_iff in N. tauto.
    + apply IH. apply NoDup_remove_1 in N. exact N.
Qed.

(** X11.  On a mapping whose names are distinct, as the partitioner returns
    it, [decompileSelectedNamespaces] returns the contents that
    [decompileSelectedNamespacesToDir] writes, in the same order, joined by
    newlines: turning [namespaces] into a [Set] and collecting into a second
    [Map] select the same entries as the test on the array itself.  Both
    refuse an empty [namespaces]. *)
Theorem selected_text_is_joined_contents (usingLines : text) (nsMap : Map)
  (namespaces : list text) :
  NoDup (map fst nsMap) ->
  DecompilerService.decompileSelectedNamespaces usingLines nsMap namespaces
  = match DecompilerService.decompileSelectedNamespacesToDir_contents
            usingLines nsMap namespaces with
    | Some contents => Some (join (js "\n") contents)
    | None => None
    end.
Proof.
  intros N. unfold DecompilerService.decompileSelectedNamespaces,
    DecompilerService.decompileSelectedNamespacesToDir_contents.
  destruct (length namespaces =? 0); [reflexivity|].
  rewrite (fold_select
             (fun entry => existsb (DecompilerService.selects (fst entry))
                             (unique namespaces)) nsMap []) by exact N.
  cbn [app].
  rewrite (filter_ext _
             (fun entry => existsb (DecompilerService.selects (fst entry))
                             namespaces))
    by (intros entry; apply existsb_unique).
  destruct (filter _ nsMap); reflexivity.
Qed.

(** X11 at a mapping of three names, of which two are selected. *)
Lemma selected_text_is_joined_contents_witness :
  DecompilerService.decompileSelectedNamespaces (js "using S;")
    [(js "A", js "a\n"); (js "AB", js "b\n"); (js "A.B", js "c\n")]
    [js "A"; js "A"]
  = Some (js "using S;\n\nnamespace A;\n\na\n\n\n"
          ++ js "using S;\n\nnamespace A.B;\n\nc\n\n").
Proof.
  rewrite (selected_text_is_joined_contents (js "using S;")
             [(js "A", js "a\n"); (js "AB", js "b\n"); (js "A.B", js "c\n")]
             [js "A"; js "A"]).
  - vm_compute. reflexivity.
  - repeat constructor; simpl; intuition discriminate.
Defined.

(** ** The type splitter as a sequence of [set] calls *)

Lemma while_body_set_of (code : text) (mt : MatchResult) (result : Map) :
  DecompilerService.while_body code mt result
  = (map_set result (fst (DecompilerService.set_of code mt))
       (snd (DecompilerService.set_of code mt)),
     snd (DecompilerService.while_body code mt [])).
Proof.
  unfold DecompilerService.while_body, DecompilerService.set_of.
  cbv zeta.
  destruct (indexOf code (ch "{") _); reflexivity.
Qed.

Lemma while_loop_calls :
  forall fuel code lastIndex result r,
  DecompilerService.while_loop fuel code lastIndex result = Some r ->
  r = fold_left (fun mp c => map_set mp (fst c) (snd c))
        (DecompilerService.set_calls fuel code lastIndex) result.
Proof.
  induction fuel as [|fuel IH]; intros code lastIndex result r H;
    [discriminate|].
  cbn [DecompilerService.while_loop DecompilerService.set_calls] in *.
  destruct (exec DecompilerService.typeRegex code lastIndex) as [[mt|] l].
  - rewrite while_body_set_of in H. apply IH in H. exact H.
  - injection H as <-. reflexivity.
Qed.

Lemma map_get_set (mp : Map) (k v k' : text) :
  map_get (map_set mp k v) k'
  = if text_eqb k k' then Some v else map_get mp k'.
Proof.
  destruct (text_eqb k k') eqn:E.
  - apply text_eqb_eq in E. subst. apply map_get_set_same.
  - apply map_get_set_other. exact E.
Qed.

Lemma map_get_fold_set (k : text) :
  forall calls mp,
  map_get (fold_left (fun mp c => map_set mp (fst c) (snd c)) calls mp) k
  = fold_left (fun found c => if text_eqb (fst c) k then Some (snd c)
                              else found) calls (map_get mp k).
Proof.
  induction calls as [|c calls IH]; intros mp; [reflexivity|].
  simpl. rewrite IH, map_get_set. reflexivity.
Qed.

(** X12.  [_splitTypes] keeps, for each type name, the chunk of the last
    declaration with that name: a later declaration replaces an earlier one
    of the same name (the parts of a partial type, overloads by arity). *)
Theorem splitTypes_last_declaration_wins (code : text) (result : Map)
  (typeName : text) :
  DecompilerService._splitTypes code = Some result ->
  map_get result typeName
  = last_set typeName
      (DecompilerService.set_calls (S (length code)) code 0).
Proof.
  intros H. apply while_loop_calls in H. subst result.
  rewrite map_get_fold_set. reflexivity.
Qed.

(** The second part of a partial class replaces the first. *)
Lemma splitTypes_last_declaration_wins_witness :
  exists result,
    DecompilerService._splitTypes
      (js "partial class Foo { int a; }\npartial class Foo { int b; }")
    = Some result
    /\ map_get result (js "Foo") = Some (js "partial class Foo { int b; }").
Proof.
  eexists. split; [vm_compute; reflexivity|].
  rewrite (splitTypes_last_declaration_wins
             (js "partial class Foo { int a; }\npartial class Foo { int b; }")
             _ (js "Foo")).
  - vm_compute. reflexivity.
  - vm_compute. reflexivity.
Defined.

Lemma trimStart_suffix (l : text) : exists ws, l = ws ++ trimStart l.
Proof.
  induction l as [|c l (ws & IH)]; simpl; [exists []; reflexivity|].
  destruct (isSpace c).
  - exists (c :: ws). simpl. rewrite <- IH. reflexivity.
  - exists []. reflexivity.
Qed.

Lemma trimStart_head (l : text) :
  match trimStart l with [] => True | c :: _ => isSpace c = false end.
Proof.
  induction l as [|c l IH]; simpl; [exact I|].
  destruct (isSpace c) eqn:E; [exact IH|exact E].
Qed.

Lemma trimStart_fixed (l : text) :
  match l with [] => True | c :: _ => isSpace c = false end ->
  trimStart l = l.
Proof. destruct l as [|c l]; simpl; [reflexivity|]. intros ->. reflexivity. Qed.

Lemma trimStart_idem (l : text) : trimStart (trimStart l) = trimStart l.
Proof. apply trimStart_fixed, trimStart_head. Qed.

Lemma trimEnd_prefix (l : text) : exists ws, l = trimEnd l ++ ws.
Proof.
  unfold trimEnd. destruct (trimStart_suffix (rev l)) as (ws & E).
  exists (rev ws). rewrite <- rev_app_distr, <- E, rev_involutive.
  reflexivity.
Qed.

Lemma trimEnd_idem (l : text) : trimEnd (trimEnd l) = trimEnd l.
Proof.
  unfold trimEnd. rewrite rev_involutive, trimStart_idem. reflexivity.
Qed.

(** [trim] leaves a trimmed string as it is. *)
Lemma trim_idem (s : text) : trim (trim s) = trim s.
Proof.
  unfold trim. rewrite (trimStart_fixed (trimEnd (trimStart s))).
  - apply trimEnd_idem.
  - pose proof (trimStart_head s) as H.
    destruct (trimEnd_prefix (trimStart s)) as (ws & E).
    destruct (trimEnd (trimStart s)) as [|c t]; [exact I|].
    rewrite E in H. exact H.
Qed.

Lemma map_set_Forall (Q : text * text -> Prop) (mp : Map) (k v : text) :
  Forall Q mp -> Q (k, v) -> Forall Q (map_set mp k v).
Proof.
  intros F Qkv. induction mp as [|[k0 v0] mp IH]; simpl.
  - constructor; [exact Qkv|constructor].
  - inversion F; subst. destruct (text_eqb k0 k) eqn:E.
    + apply text_eqb_eq in E. subst. constructor; assumption.
    + constructor; auto.
Qed.

Lemma set_of_facts (code : text) (lastIndex lastIndex' : nat)
  (mt : MatchResult) :
  exec DecompilerService.typeRegex code lastIndex = (Some mt, lastIndex') ->
  identifier (fst (DecompilerService.set_of code mt))
  /\ trim (snd (DecompilerService.set_of code mt))
     = snd (DecompilerService.set_of code mt).
Proof.
  intros E. split; [|apply trim_idem].
  destruct (typeRegex_groups code lastIndex lastIndex' mt E) as (_ & (g & G)).
  pose proof (exec_group_sound _ _ _ _ _ _ _ E G)
    as (r & a & b & I & M & -> & _).
  unfold DecompilerService.set_of. cbn [fst]. rewrite G.
  simpl in I. destruct I as [I|[I|[I|[]]]]; try discriminate.
  injection I as <-. apply Matches_identifier in M. tauto.
Qed.

Lemma while_loop_Forall (Q : text * text -> Prop) (code : text) :
  (forall lastIndex lastIndex' mt,
     exec DecompilerService.typeRegex code lastIndex = (Some mt, lastIndex') ->
     Q (DecompilerService.set_of code mt)) ->
  forall fuel lastIndex result r,
  Forall Q result /\ NoDup (map fst result) ->
  DecompilerService.while_loop fuel code lastIndex result = Some r ->
  Forall Q r /\ NoDup (map fst r).
Proof.
  intros HQ. induction fuel as [|fuel IH]; intros lastIndex result r [F N] H;
    [discriminate|].
  cbn [DecompilerService.while_loop] in H.
  destruct (exec DecompilerService.typeRegex code lastIndex) as [[mt|] l] eqn:E.
  - rewrite while_body_set_of in H. apply IH in H; [exact H|]. split.
    + apply map_set_Forall; [exact F|].
      rewrite <- surjective_pairing. eapply HQ; eauto.
    + apply map_set_keys_NoDup; exact N.
  - injection H as <-. auto.
Qed.

(** X13.  In a mapping returned by [_splitTypes] every name occurs once and
    is an identifier (a letter or an underscore, then letters, digits and
    underscores), and every chunk is trimmed: [trim] leaves it as it is. *)
Theorem splitTypes_entries (code : text) (result : Map) :
  DecompilerService._splitTypes code = Some result ->
  NoDup (map fst result)
  /\ Forall (fun entry => identifier (fst entry)
                          /\ trim (snd entry) = snd entry) result.
Proof.
  intros H.
  destruct (while_loop_Forall
              (fun entry => identifier (fst entry)
                            /\ trim (snd entry) = snd entry) code
              (set_of_facts code) (S (length code)) 0 [] result) as (F & N);
    [split; constructor|exact H|].
  split; assumption.
Qed.

(** X13 at a text with a class and a bodyless record. *)
Lemma splitTypes_entries_witness :
  exists result,
    DecompilerService._splitTypes (js "class A { }\n  record B(int x);  ")
    = Some result
    /\ NoDup (map fst result)
    /\ Forall (fun entry => identifier (fst entry)
                            /\ trim (snd entry) = snd entry) result.
Proof.
  eexists. split; [vm_compute; reflexivity|].
  apply (splitTypes_entries (js "class A { }\n  record B(int x);  ")).
  vm_compute. reflexivity.
Defined.

(** ** The header lines *)

Lemma slice_app (s : text) (a e b : nat) :
  a <= e <= b -> slice s a b = slice s a e ++ slice s e b.
Proof.
  intros L. unfold slice.
  replace (b - a) with ((e - a) + (b - e)) by lia.
  assert (skipn e s = skipn (e - a) (skipn a s)) as ->
    by (rewrite skipn_skipn; f_equal; lia).
  generalize (skipn a s) as l. generalize (e - a) as n. generalize (b - e) as k.
  intros k n. induction n as [|n IH]; intros l; [reflexivity|].
  destruct l as [|c l]; simpl.
  - rewrite firstn_nil. reflexivity.
  - rewrite IH. reflexivity.
Qed.

Lemma startsWith_eq (s w : text) :
  startsWith s w = true -> firstn (length w) s = w.
Proof.
  revert s; induction w as [|n w IH]; intros s H; [reflexivity|].
  destruct s as [|c s]; [discriminate|]. simpl in H.
  apply andb_true_iff in H as [E H]. apply N.eqb_eq in E. subst.
  simpl. rewrite IH by exact H. reflexivity.
Qed.

Lemma Matches_lit_slice (s : text) (mu : bool) (w : string) (a b : nat) :
  Matches s mu (lit w) a b -> slice s a b = js w.
Proof.
  intros H. apply Matches_lit in H as (-> & P). unfold slice.
  replace (a + length (js w) - a) with (length (js w)) by lia.
  apply startsWith_eq; exact P.
Qed.

Lemma Matches_Plus_Chr (s : text) (mu : bool) (p : char -> bool) (a b : nat) :
  Matches s mu (Plus (Chr p)) a b ->
  a < b /\ Forall (fun u => p u = true) (slice s a b).
Proof.
  unfold Plus. intros H. apply Matches_Seq_inv in H as (e & H1 & H2).
  apply Matches_Chr_inv in H1 as (-> & u & E & P).
  pose proof (Matches_le _ _ _ _ _ H2). split; [lia|].
  rewrite (slice_cons s a b u E) by lia. constructor; [exact P|].
  eapply Matches_Star_Chr; eauto.
Qed.





(** ** The size limits of [decompileAndSplit] *)

Lemma gt_mono (n n' : nat) (x : Decompiler.Number) :
  n <= n' -> Decompiler.gt n x = true -> Decompiler.gt n' x = true.
Proof.
  intros L. destruct x as [| | |q]; simpl; auto.
  intros H. apply negb_true_iff in H. apply negb_true_iff.
  destruct (QArith_base.Qle_bool (QArith_base.inject_Z (Z.of_nat n')) q) eqn:E;
    [|reflexivity].
  apply QArith_base.Qle_bool_iff in E.
  assert (QArith_base.Qle_bool (QArith_base.inject_Z (Z.of_nat n)) q = true)
    as C.
  { apply QArith_base.Qle_bool_iff.
    eapply QArith_base.Qle_trans; [|exact E].
    rewrite <- QArith_base.Zle_Qle. lia. }
  congruence.
Qed.

Lemma total_length_firstn (files : list text) :
  forall n, total_length (firstn n files) <= total_length files.
Proof.
  induction files as [|content files IH]; intros [|n]; simpl; try lia.
  specialize (IH n). lia.
Qed.

(** The running total after the file at position [k] of [rest]. *)
Lemma total_length_firstn_cons (content : text) (rest : list text)
  (k : nat) :
  total_length (firstn (S (S k)) (content :: rest))
  = length content + total_length (firstn (S k) rest).
Proof. reflexivity. Qed.

(** The loop stops at the first file that takes the running total over the
    limit, and reads all the files when there is none. *)
Lemma read_loop_spec (MAX_BYTES : Decompiler.Number) :
  forall rest total contents,
  match Decompiler.read_loop MAX_BYTES rest total contents with
  | Decompiler.CombinedText combined =>
      (forall k, k < length rest ->
         Decompiler.gt (total + total_length (firstn (S k) rest)) MAX_BYTES
         = false)
      /\ combined = join (js "\n") (contents ++ rest)
  | Decompiler.TooManyBytes reported =>
      exists k,
        k < length rest
        /\ reported = total + total_length (firstn (S k) rest)
        /\ Decompiler.gt reported MAX_BYTES = true
        /\ forall j, j < k ->
             Decompiler.gt (total + total_length (firstn (S j) rest))
               MAX_BYTES = false
  | Decompiler.TooManyFiles _ => False
  end.
Proof.
  induction rest as [|content rest IH]; intros total contents.
  - simpl. rewrite app_nil_r. split; [intros k Hk; lia|reflexivity].
  - cbn [Decompiler.read_loop].
    destruct (Decompiler.gt (total + length content) MAX_BYTES) eqn:G.
    + exists 0. simpl. rewrite Nat.add_0_r.
      repeat split; auto; [lia|]. intros j Hj; lia.
    + specialize (IH (total + length content) (contents ++ [content])).
      destruct (Decompiler.read_loop MAX_BYTES rest (total + length content)
                  (contents ++ [content])) as [n|reported|combined].
      * exact IH.
      * destruct IH as (k & Hk & -> & Gk & Before).
        exists (S k). rewrite total_length_firstn_cons.
        rewrite Nat.add_assoc. repeat split; auto; [simpl; lia|].
        intros [|j] Hj.
        -- simpl. rewrite Nat.add_0_r. exact G.
        -- rewrite total_length_firstn_cons, Nat.add_assoc.
           apply Before. lia.
      * destruct IH as (All & ->). split.
        -- intros [|k] Hk.
           ++ simpl. rewrite Nat.add_0_r. exact G.
           ++ rewrite total_length_firstn_cons, Nat.add_assoc.
              apply All. simpl in Hk. lia.
        -- rewrite <- app_assoc. reflexivity.
Qed.

(** How [combine] ends, case by case. *)
Lemma combine_outcome (MAX_FILES MAX_BYTES : Decompiler.Number)
  (files : list text) :
  match Decompiler.combine MAX_FILES MAX_BYTES files with
  | Decompiler.CombinedText combined =>
      Decompiler.gt (length files) MAX_FILES = false
      /\ (forall k, k < length files ->
            Decompiler.gt (total_length (firstn (S k) files)) MAX_BYTES
            = false)
      /\ combined = join (js "\n") files
  | Decompiler.TooManyFiles reported =>
      Decompiler.gt (length files) MAX_FILES = true
      /\ reported = length files
  | Decompiler.TooManyBytes reported =>
      Decompiler.gt (length files) MAX_FILES = false
      /\ exists k,
           k < length files
           /\ reported = total_length (firstn (S k) files)
           /\ Decompiler.gt reported MAX_BYTES = true
           /\ forall j, j < k ->
                Decompiler.gt (total_length (firstn (S j) files)) MAX_BYTES
                = false
  end.
Proof.
  unfold Decompiler.combine.
  destruct (Decompiler.gt (length files) MAX_FILES) eqn:F; [auto|].
  pose proof (read_loop_spec MAX_BYTES files 0 []) as R.
  destruct (Decompiler.read_loop MAX_BYTES files 0 [])
    as [n|reported|combined]; [destruct R| |].
  - split; [reflexivity|exact R].
  - destruct R as (All & ->). repeat split; auto.
Qed.

Lemma length_join_newline (l : list text) :
  length (join (js "\n") l) = total_length l + (length l - 1).
Proof.
  induction l as [|p l IH]; [reflexivity|].
  destruct l as [|p' l]; [simpl; lia|].
  change (join (js "\n") (p :: p' :: l))
    with (p ++ js "\n" ++ join (js "\n") (p' :: l)).
  rewrite !length_app, IH. simpl. lia.
Qed.

(** X15.  The reading part of [decompileAndSplit] ends in exactly one of
    three ways.  It throws on the number of files exactly when that number
    exceeds [MAX_FILES], and reports that number.  Otherwise it throws on
    the bytes exactly when some file takes the running total of the lengths
    over [MAX_BYTES]; it then reports the running total at the first such
    file.  Otherwise, that is exactly when no running total (hence, with at
    least one file, the total of all the files) exceeds [MAX_BYTES], it
    yields the files joined by newlines.  The joining newlines are not
    counted: the text is longer than that total by the number of files less
    one. *)
Theorem combine_limits (MAX_FILES MAX_BYTES : Decompiler.Number)
  (files : list text) :
  (forall reported,
     Decompiler.combine MAX_FILES MAX_BYTES files
     = Decompiler.TooManyFiles reported
     <-> Decompiler.gt (length files) MAX_FILES = true
         /\ reported = length files)
  /\ (forall reported,
        Decompiler.combine MAX_FILES MAX_BYTES files
        = Decompiler.TooManyBytes reported
        <-> Decompiler.gt (length files) MAX_FILES = false
            /\ exists k,
                 k < length files
                 /\ reported = total_length (firstn (S k) files)
                 /\ Decompiler.gt reported MAX_BYTES = true
                 /\ forall j, j < k ->
                      Decompiler.gt (total_length (firstn (S j) files))
                        MAX_BYTES = false)
  /\ (forall combined,
        Decompiler.combine MAX_FILES MAX_BYTES files
        = Decompiler.CombinedText combined
        <-> Decompiler.gt (length files) MAX_FILES = false
            /\ (forall k, k < length files ->
                  Decompiler.gt (total_length (firstn (S k) files))
                    MAX_BYTES = false)
            /\ combined = join (js "\n") files)
  /\ (files <> [] ->
      ((forall k, k < length files ->
          Decompiler.gt (total_length (firstn (S k) files)) MAX_BYTES
          = false)
       <-> Decompiler.gt (total_length files) MAX_BYTES = false))
  /\ length (join (js "\n") files)
     = total_length files + (length files - 1).
Proof.
  pose proof (combine_outcome MAX_FILES MAX_BYTES files) as O.
  split; [|split; [|split; [|split]]].
  - intros reported. split.
    + intros E. rewrite E in O. exact O.
    + intros (F & ->).
      destruct (Decompiler.combine MAX_FILES MAX_BYTES files)
        as [n|n|c].
      * destruct O as (_ & ->). reflexivity.
      * destruct O as (F' & _). congruence.
      * destruct O as (F' & _). congruence.
  - intros reported. split.
    + intros E. rewrite E in O. exact O.
    + intros (F & k & Hk & -> & G & Before).
      destruct (Decompiler.combine MAX_FILES MAX_BYTES files)
        as [n|n|c].
      * destruct O as (F' & _). congruence.
      * destruct O as (_ & k' & Hk' & -> & G' & Before').
        destruct (Nat.lt_trichotomy k k') as [L|[->|L]]; [| reflexivity |].
        -- apply Before' in L. congruence.
        -- apply Before in L. congruence.
      * destruct O as (_ & All & _). rewrite All in G by exact Hk.
        discriminate.
  - intros combined. split.
    + intros E. rewrite E in O. exact O.
    + intros (F & All & ->).
      destruct (Decompiler.combine MAX_FILES MAX_BYTES files)
        as [n|n|c].
      * destruct O as (F' & _). congruence.
      * destruct O as (_ & k & Hk & -> & G & _).
        rewrite All in G by exact Hk. discriminate.
      * destruct O as (_ & _ & ->). reflexivity.
  - intros N. split.
    + intros All. specialize (All (length files - 1)).
      replace (S (length files - 1)) with (length files) in All
        by (destruct files; [congruence|simpl; lia]).
      rewrite firstn_all in All. apply All.
      destruct files; [congruence|simpl; lia].
    + intros G k Hk.
      destruct (Decompiler.gt (total_length (firstn (S k) files)) MAX_BYTES)
        eqn:Gk; [|reflexivity].
      apply (gt_mono _ (total_length files)) in Gk; [congruence|].
      apply total_length_firstn.
  - apply length_join_newline.
Qed.

(** X15 at three files of which the second takes the total over a limit of
    four units. *)
Lemma combine_limits_witness :
  Decompiler.combine
    (Decompiler.Finite (QArith_base.inject_Z 5000))
    (Decompiler.Finite (QArith_base.inject_Z 4))
    [js "ab"; js "cde"; js "f"]
  = Decompiler.TooManyBytes 5.
Proof.
  destruct (combine_limits
              (Decompiler.Finite (QArith_base.inject_Z 5000))
              (Decompiler.Finite (QArith_base.inject_Z 4))
              [js "ab"; js "cde"; js "f"]) as (_ & B & _).
  apply B. split; [vm_compute; reflexivity|].
  exists 1. repeat split; try (vm_compute; reflexivity); [simpl; lia|].
  intros j Hj. assert (j = 0) as -> by lia. vm_compute. reflexivity.
Defined.

(** ** The matcher finds a match when there is one *)

Section MatcherComplete.

Variable input : text.
Variable multi : bool.

Lemma repeatMatcher_accepts
  (mr : state -> (state -> option state) -> option state)
  (c : state -> option state) (fuel : nat) (x : state) :
  c x <> None -> repeatMatcher mr c fuel x <> None.
Proof.
  intros H. destruct fuel as [|fuel]; simpl; [exact H|].
  destruct (mr x _); [discriminate|exact H].
Qed.

(** If [r] can match from [e] up to an offset where the continuation accepts
    whatever the groups, the matcher succeeds (possibly through another way
    of matching that it tries first). *)
Lemma m_complete (r : regex) (e e' : nat) :
  Matches input multi r e e' ->
  forall caps c, e <= length input ->
  (forall caps', c (e', caps') <> None) ->
  m input multi r (e, caps) c <> None.
Proof.
  induction 1 as [e|p e u E P|r1 r2 e e1 e2 M1 IH1 M2 IH2|r1 r2 e e1 M1 IH1
                 |r1 r2 e e1 M2 IH2|r e|r e e1 e2 M1 IH1 N M2 IH2
                 |k r e e1 M1 IH1|e A|e A|e A];
    intros caps c L Hc; simpl.
  - apply Hc.
  - rewrite E, P. apply Hc.
  - apply IH1; [exact L|]. intros caps'. apply IH2; [|exact Hc].
    apply Matches_bounds in M1. lia.
  - destruct (m input multi r1 (e, caps) c) eqn:Q; [discriminate|].
    exfalso. apply (IH1 caps c L Hc Q).
  - destruct (m input multi r1 (e, caps) c); [discriminate|].
    apply IH2; assumption.
  - apply repeatMatcher_accepts. apply Hc.
  - pose proof (Matches_bounds _ _ _ _ _ M1) as (B1 & B2). specialize (B2 L).
    assert (e < e1) as Lt by lia.
    destruct (length input - e) as [|fuel] eqn:F; [lia|]. simpl.
    match goal with
    | |- match ?t with _ => _ end <> None => destruct t eqn:Q
    end; [discriminate|]. exfalso. revert Q. apply IH1; [exact L|].
    intros caps'. simpl. replace (e1 =? e) with false
      by (symmetry; apply Nat.eqb_neq; lia).
    rewrite (repeatMatcher_fuel input multi r c fuel (length input - e1))
      by (simpl; lia).
    apply (IH2 caps' c B2 Hc).
  - apply IH1; [exact L|]. intros caps'. apply Hc.
  - rewrite A. apply Hc.
  - rewrite A. apply Hc.
  - rewrite A. apply Hc.
Qed.

Lemma matchAt_complete (r : regex) (e e' : nat) :
  Matches input multi r e e' -> e <= length input ->
  matchAt input multi r e <> None.
Proof.
  intros M L. unfold matchAt. eapply m_complete; eauto. discriminate.
Qed.

(** The search returns the first offset that has a match. *)
Lemma matchFrom_first (r : regex) (j : nat) :
  forall n i, i <= j <= i + n ->
  matchAt input multi r j <> None ->
  (forall k, i <= k < j -> matchAt input multi r k = None) ->
  exists y, matchFrom input multi r n i = Some (j, y)
            /\ matchAt input multi r j = Some y.
Proof.
  induction n as [|n IH]; intros i Hj Hm Hk; simpl.
  - replace i with j in * by lia.
    destruct (matchAt input multi r j) as [y|]; [eauto|congruence].
  - destruct (Nat.eq_dec i j) as [->|Ne].
    + destruct (matchAt input multi r j) as [y|]; [eauto|congruence].
    + rewrite (Hk i) by lia. apply IH; [lia|exact Hm|].
      intros k Hk'. apply Hk. lia.
Qed.

End MatcherComplete.

(** ** The paths beside the assembly *)

Lemma Matches_AssertEnd_inv (s : text) (mu : bool) (e e' : nat) :
  Matches s mu AssertEnd e e' -> e' = e /\ assertEnd s mu e = true.
Proof. intros H; inversion H; subst; auto. Qed.

Lemma assemblyExtension_match (s : text) (j e : nat) :
  Matches s (multiline assemblyExtension) (pattern assemblyExtension) j e ->
  j + 4 = length s /\ e = length s
  /\ exists e1 e2 e3, skipn j s = [ch "."; e1; e2; e3]
                      /\ dllOrExe e1 e2 e3 = true.
Proof.
  cbv beta iota delta [assemblyExtension pattern multiline]. intros H.
  apply Matches_Seq_inv in H as (a & Hd & H).
  apply Matches_Seq_inv in H as (b & Hg & He).
  apply Matches_Chr_inv in Hd as (-> & u & Eu & Pu).
  apply isChar_eq in Pu. subst u.
  apply Matches_AssertEnd_inv in He as (Ee & A). subst b.
  unfold assertEnd in A. simpl in A. rewrite orb_false_r in A.
  apply Nat.eqb_eq in A.
  apply Matches_Group_inv in Hg.
  assert (exists e1 e2 e3,
            nth_error s (S j) = Some e1 /\ nth_error s (S (S j)) = Some e2
            /\ nth_error s (S (S (S j))) = Some e3
            /\ e = S (S (S (S j))) /\ dllOrExe e1 e2 e3 = true)
    as (e1 & e2 & e3 & E1 & E2 & E3 & Ee & D).
  { apply Matches_Alt_inv in Hg as [Hg|Hg];
      apply Matches_Seq_inv in Hg as (x1 & H1 & Hg);
      apply Matches_Seq_inv in Hg as (x2 & H2 & H3);
      apply Matches_Chr_inv in H1 as (-> & u1 & U1 & P1);
      apply Matches_Chr_inv in H2 as (-> & u2 & U2 & P2);
      apply Matches_Chr_inv in H3 as (-> & u3 & U3 & P3);
      exists u1, u2, u3; repeat split; auto;
      unfold dllOrExe; rewrite P1, P2, P3; simpl;
      auto using orb_true_r. }
  split; [lia|]. split; [exact A|].
  exists e1, e2, e3. split; [|exact D].
  rewrite (skipn_nth_error s j _ Eu), (skipn_nth_error s _ _ E1),
    (skipn_nth_error s _ _ E2), (skipn_nth_error s _ _ E3).
  rewrite <- Ee, A, skipn_all. reflexivity.
Qed.

Lemma assemblyExtension_found (stem : text) (e1 e2 e3 : char) :
  dllOrExe e1 e2 e3 = true ->
  let s := stem ++ [ch "."; e1; e2; e3] in
  exists y, matchFrom s (multiline assemblyExtension)
              (pattern assemblyExtension) (length s) 0
            = Some (length stem, y)
            /\ fst y = length s.
Proof.
  intros D s.
  assert (length s = length stem + 4) as Ls
    by (unfold s; rewrite length_app; reflexivity).
  assert (forall k u, nth_error [ch "."; e1; e2; e3] k = Some u ->
                      nth_error s (length stem + k) = Some u) as Nth.
  { intros k u H. unfold s. rewrite nth_error_app2 by lia.
    replace (length stem + k - length stem) with k by lia. exact H. }
  assert (Matches s (multiline assemblyExtension) (pattern assemblyExtension)
            (length stem) (length stem + 4)) as M.
  { cbv beta iota delta [assemblyExtension pattern multiline].
    apply M_Seq with (e1 := length stem + 1).
    - replace (length stem + 1) with (S (length stem)) by lia.
      apply M_Chr with (u := ch ".").
      + rewrite <- (Nat.add_0_r (length stem)). apply Nth. reflexivity.
      + reflexivity.
    - apply M_Seq with (e1 := length stem + 4).
      + apply M_Group. unfold dllOrExe in D.
        assert (forall p1 p2 p3,
                  p1 e1 && p2 e2 && p3 e3 = true ->
                  Matches s false (Seq (Chr p1) (Seq (Chr p2) (Chr p3)))
                    (length stem + 1) (length stem + 4)) as three.
        { intros p1 p2 p3 P.
          apply andb_true_iff in P as [P P3].
          apply andb_true_iff in P as [P1 P2].
          apply M_Seq with (e1 := S (length stem + 1));
            [apply M_Chr with (u := e1); [apply Nth; reflexivity|exact P1]|].
          apply M_Seq with (e1 := S (length stem + 2)).
          - replace (S (length stem + 1)) with (length stem + 2) by lia.
            apply M_Chr with (u := e2); [apply Nth; reflexivity|exact P2].
          - replace (S (length stem + 2)) with (length stem + 3) by lia.
            replace (length stem + 4) with (S (length stem + 3)) by lia.
            apply M_Chr with (u := e3); [apply Nth; reflexivity|exact P3]. }
        apply orb_true_iff in D as [D|D];
          [apply M_AltL|apply M_AltR]; apply three; exact D.
      + apply M_AssertEnd. unfold assertEnd. rewrite Ls, Nat.eqb_refl.
        reflexivity. }
  destruct (matchFrom_first s (multiline assemblyExtension)
              (pattern assemblyExtension) (length stem) (length s) 0)
    as (y & F & A).
  - lia.
  - eapply matchAt_complete; [exact M|lia].
  - intros k Hk.
    destruct (matchAt s (multiline assemblyExtension)
                (pattern assemblyExtension) k) as [y|] eqn:A; [|reflexivity].
    apply matchAt_sound in A. apply assemblyExtension_match in A. lia.
  - exists y. split; [exact F|].
    apply matchAt_sound, assemblyExtension_match in A. tauto.
Qed.

Lemma replace_assemblyExtension (stem replacement : text) (e1 e2 e3 : char) :
  dllOrExe e1 e2 e3 = true ->
  replace assemblyExtension (stem ++ [ch "."; e1; e2; e3]) replacement
  = stem ++ replacement.
Proof.
  intros D. unfold replace.
  destruct (assemblyExtension_found stem e1 e2 e3 D) as (y & -> & Ey).
  rewrite Ey. unfold slice, slice_from. rewrite skipn_all, app_nil_r.
  simpl skipn. rewrite Nat.sub_0_r, firstn_app, Nat.sub_diag, firstn_all.
  simpl. rewrite app_nil_r. reflexivity.
Qed.

Lemma replace_assemblyExtension_other (path replacement : text) :
  replace assemblyExtension path replacement = path
  \/ exists stem e1 e2 e3,
       path = stem ++ [ch "."; e1; e2; e3] /\ dllOrExe e1 e2 e3 = true.
Proof.
  unfold replace.
  destruct (matchFrom path (multiline assemblyExtension)
              (pattern assemblyExtension) (length path) 0)
    as [[j y]|] eqn:E; [right|left; reflexivity].
  apply matchFrom_sound in E as (_ & M & _).
  apply assemblyExtension_match in M as (_ & _ & e1 & e2 & e3 & S & D).
  exists (firstn j path), e1, e2, e3. split; [|exact D].
  rewrite <- S. symmetry. apply firstn_skipn.
Qed.

(** X16.  The path of the debug symbols and the path of the XML
    documentation are the assembly path with a final [.dll] or [.exe], in any
    letter case, replaced by [.pdb] and by [.xml]; a path that does not end
    that way is returned as it is, so that both are then the path of the
    assembly itself. *)
Theorem sibling_paths (assemblyPath : text) :
  (forall stem e1 e2 e3,
     assemblyPath = stem ++ [ch "."; e1; e2; e3] ->
     dllOrExe e1 e2 e3 = true ->
     Decompiler.pdb assemblyPath = stem ++ js ".pdb"
     /\ DecompilerService.xmlPath assemblyPath = stem ++ js ".xml")
  /\ ((exists stem e1 e2 e3,
         assemblyPath = stem ++ [ch "."; e1; e2; e3]
         /\ dllOrExe e1 e2 e3 = true)
      \/ (Decompiler.pdb assemblyPath = assemblyPath
          /\ DecompilerService.xmlPath assemblyPath = assemblyPath)).
Proof.
  split.
  - intros stem e1 e2 e3 -> D.
    unfold Decompiler.pdb, DecompilerService.xmlPath.
    rewrite !replace_assemblyExtension by exact D. auto.
  - unfold Decompiler.pdb, DecompilerService.xmlPath.
    destruct (replace_assemblyExtension_other assemblyPath (js ".pdb"))
      as [P|P]; [|left; exact P].
    destruct (replace_assemblyExtension_other assemblyPath (js ".xml"))
      as [X|X]; [|left; exact X].
    right. split; assumption.
Qed.

(** X16 at a path in upper case. *)
Lemma sibling_paths_witness :
  Decompiler.pdb (js "C:/bin/App.DLL") = js "C:/bin/App.pdb"
  /\ DecompilerService.xmlPath (js "C:/bin/App.DLL") = js "C:/bin/App.xml".
Proof.
  apply (proj1 (sibling_paths (js "C:/bin/App.DLL"))
           (js "C:/bin/App") (ch "D") (ch "L") (ch "L")).
  - vm_compute. reflexivity.
  - vm_compute. reflexivity.
Defined.

Example buildFileTree_example :
  DecompilerService.buildFileTree (js "out")
    [js "A/B/Foo.cs"; js "A/Bar.cs"; js "Decompiled.csproj"]
  = Some (DecompilerService.Node (js "out") false
            (Some [DecompilerService.Node (js "A") false
                     (Some [DecompilerService.Node (js "B") false
                              (Some [DecompilerService.Node (js "Foo.cs")
                                       true None]);
                            DecompilerService.Node (js "Bar.cs") true None]);
                   DecompilerService.Node (js "Decompiled.csproj") true
                     None])).
Proof. vm_compute. reflexivity. Qed.

Example buildFileTree_file_used_as_directory :
  DecompilerService.buildFileTree (js "out") [js "a.cs"; js "a.cs/b.cs"] = None.
Proof. vm_compute. reflexivity. Qed.

(** ** [buildFileTree] *)

Lemma slice_Forall (P : char -> Prop) (s : text) :
  forall n p q, q - p = n ->
  (forall j u, p <= j < q -> nth_error s j = Some u -> P u) ->
  Forall P (slice s p q).
Proof.
  induction n as [|n IH]; intros p q E H.
  - rewrite slice_empty by lia. constructor.
  - destruct (nth_error s p) as [u|] eqn:N.
    + rewrite (slice_cons s p q u N) by lia. constructor.
      * apply (H p); [lia|exact N].
      * apply IH; [lia|]. intros j v Hj. apply H. lia.
    + unfold slice. rewrite skipn_all2; [rewrite firstn_nil; constructor|].
      apply nth_error_None; exact N.
Qed.

Lemma separators_match (s : text) (q : nat) (y : state) :
  matchAt s (multiline DecompilerService.separators)
    (pattern DecompilerService.separators) q = Some y ->
  q < fst y <= length s.
Proof.
  intros H. apply matchAt_sound in H.
  cbv beta iota delta [DecompilerService.separators pattern multiline] in H.
  pose proof (Matches_bounds _ _ _ _ _ H) as (_ & B2).
  unfold Plus in H. apply Matches_Seq_inv in H as (e & H1 & H2).
  apply Matches_Chr_inv in H1 as (-> & u & E & _). apply Matches_le in H2.
  assert (q < length s) by (apply nth_error_Some; congruence).
  split; [lia|apply B2; lia].
Qed.

Lemma separators_no_match (s : text) (q : nat) (u : char) :
  matchAt s (multiline DecompilerService.separators)
    (pattern DecompilerService.separators) q = None ->
  nth_error s q = Some u -> isSeparator u = false.
Proof.
  intros H E. destruct (isSeparator u) eqn:P; [exfalso|reflexivity].
  revert H. apply matchAt_complete with (e' := S q).
  - cbv beta iota delta [DecompilerService.separators pattern multiline].
    unfold Plus. apply M_Seq with (e1 := S q); [|apply M_StarDone].
    apply M_Chr with (u := u); [exact E|exact P].
  - assert (q < length s) by (apply nth_error_Some; congruence). lia.
Qed.

Lemma split_loop_pieces (s : text) :
  forall fuel p q A pieces,
  p <= q ->
  (forall j u, p <= j < q -> nth_error s j = Some u -> isSeparator u = false) ->
  Forall (Forall (fun u => isSeparator u = false)) A ->
  split_loop fuel DecompilerService.separators s p q A = Some pieces ->
  Forall (Forall (fun u => isSeparator u = false)) pieces.
Proof.
  induction fuel as [|fuel IH]; intros p q A pieces L H F E; [discriminate|].
  cbn [split_loop] in E. destruct (length s <=? q) eqn:Q.
  - injection E as <-. apply Forall_app. split; [exact F|].
    constructor; [|constructor].
    apply (slice_Forall _ s (length s - p)); [reflexivity|].
    intros j u Hj N. destruct (Nat.lt_ge_cases j q) as [Lt|Ge].
    + apply (H j); [lia|exact N].
    + apply Nat.leb_le in Q.
      assert (j < length s) by (apply nth_error_Some; congruence). lia.
  - apply Nat.leb_gt in Q.
    destruct (matchAt s (multiline DecompilerService.separators)
                (pattern DecompilerService.separators) q) as [y|] eqn:M.
    + apply separators_match in M as M'.
      replace (Nat.min (fst y) (length s)) with (fst y) in E by lia.
      destruct (fst y =? p) eqn:P.
      * apply Nat.eqb_eq in P. lia.
      * apply IH in E; [exact E|lia|intros; lia|].
        apply Forall_app. split; [exact F|]. constructor; [|constructor].
        apply (slice_Forall _ s (q - p)); [reflexivity|exact H].
    + apply IH in E; [exact E|lia| |exact F].
      intros j u Hj N. destruct (Nat.eq_dec j q) as [->|Ne].
      * eapply separators_no_match; eauto.
      * apply (H j); [lia|exact N].
Qed.

Lemma split_loop_total (s : text) :
  forall fuel p q A, length s - q < fuel ->
  exists pieces,
    split_loop fuel DecompilerService.separators s p q A = Some pieces.
Proof.
  induction fuel as [|fuel IH]; intros p q A L; [lia|]. cbn [split_loop].
  destruct (length s <=? q) eqn:Q; [eauto|]. apply Nat.leb_gt in Q.
  destruct (matchAt s (multiline DecompilerService.separators)
              (pattern DecompilerService.separators) q) as [y|] eqn:M.
  - apply separators_match in M.
    replace (Nat.min (fst y) (length s)) with (fst y) by lia.
    destruct (fst y =? p); apply IH; lia.
  - apply IH. lia.
Qed.

Lemma parts_of_total (rel : text) :
  exists parts,
    DecompilerService.parts_of rel = Some parts
    /\ Forall (fun part => part <> []
                           /\ Forall (fun u => isSeparator u = false) part)
         parts.
Proof.
  unfold DecompilerService.parts_of, split.
  destruct (length rel =? 0) eqn:Z.
  - apply Nat.eqb_eq in Z. destruct rel; [|discriminate].
    destruct (matchAt [] _ _ 0); eexists; split; try reflexivity; constructor.
  - destruct (split_loop_total rel (2 * length rel + 2) 0 0 []) as (ps & E);
      [lia|].
    rewrite E. eexists. split; [reflexivity|].
    apply split_loop_pieces in E; [|lia|intros; lia|constructor].
    apply Forall_forall. intros part I. apply filter_In in I as [I B].
    rewrite Forall_forall in E. split; [|apply E; exact I].
    destruct part; [discriminate|discriminate].
Qed.

Lemma index_get_set (ix : DecompilerService.Index) (k k' : text)
  (v : DecompilerService.TreeNode) :
  DecompilerService.index_get (DecompilerService.index_set ix k v) k'
  = if text_eqb k k' then Some v else DecompilerService.index_get ix k'.
Proof.
  induction ix as [|[k0 v0] ix IH]; simpl.
  - reflexivity.
  - destruct (text_eqb k0 k) eqn:E; simpl.
    + apply text_eqb_eq in E. subst k0.
      destruct (text_eqb k k'); reflexivity.
    + rewrite IH. destruct (text_eqb k0 k') eqn:E'; [|reflexivity].
      apply text_eqb_eq in E'. subst k0. rewrite text_eqb_sym, E. reflexivity.
Qed.

Lemma until_slash_app (l x : text) :
  Forall (fun u => isSeparator u = false) l ->
  until_slash (l ++ ch "/" :: x) = l /\ until_slash l = l.
Proof.
  induction 1 as [|c l Hc F (IH1 & IH2)]; cbn [until_slash app].
  - change (isChar "/" (ch "/")) with true. auto.
  - unfold isSeparator in Hc. apply orb_false_iff in Hc as [_ Hc].
    rewrite Hc, IH1, IH2. auto.
Qed.

Lemma last_segment_next_path (curPath part : text) :
  Forall (fun u => isSeparator u = false) part ->
  last_segment (next_path curPath part) = part.
Proof.
  intros F. unfold last_segment, next_path.
  assert (Forall (fun u => isSeparator u = false) (rev part)) as Fr.
  { apply Forall_forall. intros u I. apply in_rev in I.
    rewrite Forall_forall in F. auto. }
  destruct curPath as [|c cur].
  - rewrite (proj2 (until_slash_app (rev part) [] Fr)). apply rev_involutive.
  - rewrite !rev_app_distr. change (rev (js "/")) with [ch "/"].
    rewrite <- app_assoc. cbn [app].
    rewrite (proj1 (until_slash_app (rev part) _ Fr)). apply rev_involutive.
Qed.

Lemma next_path_not_empty (curPath part : text) :
  part <> [] -> next_path curPath part <> [].
Proof.
  unfold next_path. destruct curPath; [auto|discriminate].
Qed.

(** One turn of the inner loop on a directory: it does not fail, keeps the
    invariant and the nodes that were there, and leaves a node at the next
    path, a directory unless the part is the last one or looks like a
    file. *)
Lemma add_part_ok (ix : DecompilerService.Index) (curPath part : text)
  (last : bool) :
  tree_invariant ix -> directory_at ix curPath ->
  part <> [] -> Forall (fun u => isSeparator u = false) part ->
  exists ix',
    DecompilerService.add_part ix curPath part last
    = Some (ix', next_path curPath part)
    /\ tree_invariant ix'
    /\ (test DecompilerService.fileLike part = false ->
        directory_at ix' (next_path curPath part)).
Proof.
  intros (R & I) (cur & children & Gc & Cc) Ne F.
  unfold DecompilerService.add_part. fold (next_path curPath part).
  set (next := next_path curPath part).
  assert (next <> []) as Nn by (apply next_path_not_empty; exact Ne).
  assert (last_segment next = part) as Ls
    by (apply last_segment_next_path; exact F).
  destruct (DecompilerService.index_get ix next) as [n|] eqn:Gn.
  - exists ix. split; [reflexivity|]. split; [split; assumption|].
    intros T. destruct (I next n Gn Nn) as (Nm & Fl).
    destruct (DecompilerService.node_children n) as [ch'|] eqn:Cn.
    + exists n, ch'. auto.
    + rewrite <- Nm, Ls in Fl. rewrite Fl in T by reflexivity. discriminate.
  - rewrite Gc, Cc. eexists. split; [reflexivity|].
    assert (text_eqb next curPath = false) as Neq.
    { destruct (text_eqb next curPath) eqn:Q; [|reflexivity].
      apply text_eqb_eq in Q. congruence. }
    split; [split|].
    + rewrite index_get_set.
      destruct (text_eqb next []) eqn:Q;
        [apply text_eqb_eq in Q; contradiction|].
      rewrite index_get_set. destruct (text_eqb curPath []) eqn:Q'.
      * eexists. eexists. split; reflexivity.
      * exact R.
    + intros k node G Nk. rewrite index_get_set in G.
      destruct (text_eqb next k) eqn:Q.
      * apply text_eqb_eq in Q. subst k. injection G as <-. simpl.
        split; [exact Ls|].
        destruct (last && test DecompilerService.fileLike part) eqn:B;
          [|discriminate].
        intros _. apply andb_true_iff in B. tauto.
      * rewrite index_get_set in G. destruct (text_eqb curPath k) eqn:Q'.
        -- apply text_eqb_eq in Q'. subst k. injection G as <-. simpl.
           destruct (I curPath cur Gc Nk) as (Nm & _).
           split; [exact Nm|discriminate].
        -- apply I; assumption.
    + intros T. rewrite T, andb_false_r.
      eexists. eexists. rewrite index_get_set, text_eqb_refl.
      split; reflexivity.
Qed.

Lemma add_parts_ok :
  forall parts ix curPath,
  tree_invariant ix -> directory_at ix curPath ->
  Forall (fun part => part <> []
                      /\ Forall (fun u => isSeparator u = false) part) parts ->
  (forall part, In part (removelast parts) ->
                test DecompilerService.fileLike part = false) ->
  exists ix', DecompilerService.add_parts ix curPath parts = Some ix'
              /\ tree_invariant ix'.
Proof.
  induction parts as [|part rest IH]; intros ix curPath Inv D F H.
  - exists ix. split; [reflexivity|exact Inv].
  - inversion F as [|? ? (Ne & Fp) F']; subst.
    destruct rest as [|part' rest]; cbn [DecompilerService.add_parts].
    + destruct (add_part_ok ix curPath part true Inv D Ne Fp)
        as (ix1 & E1 & Inv1 & D1).
      rewrite E1. exists ix1. split; [reflexivity|exact Inv1].
    + destruct (add_part_ok ix curPath part false Inv D Ne Fp)
        as (ix1 & E1 & Inv1 & D1).
      rewrite E1. apply IH; [exact Inv1| |exact F'|].
      * apply D1. apply H. simpl. auto.
      * intros p Ip. apply H. simpl. simpl in Ip. auto.
Qed.

Lemma add_files_ok :
  forall files ix,
  tree_invariant ix ->
  (forall rel parts, In rel files ->
     DecompilerService.parts_of rel = Some parts ->
     forall part, In part (removelast parts) ->
                  test DecompilerService.fileLike part = false) ->
  exists ix', DecompilerService.add_files ix files = Some ix'
              /\ tree_invariant ix'.
Proof.
  induction files as [|rel rest IH]; intros ix Inv H.
  - exists ix. split; [reflexivity|exact Inv].
  - cbn [DecompilerService.add_files].
    destruct (parts_of_total rel) as (parts & E & F). rewrite E.
    destruct (add_parts_ok parts ix [] Inv) as (ix1 & -> & Inv1).
    + destruct Inv as ((root & ch & G & C) & _). exists root, ch. auto.
    + exact F.
    + apply (H rel); [simpl; auto|exact E].
    + apply IH; [exact Inv1|]. intros rel' parts' I. apply H. simpl. auto.
Qed.

(** X17.  [buildFileTree] fails only through a path that goes on below a
    name that looks like a file: when no part of a path other than its last
    one ends in a dot and letters or digits, it returns a tree. *)
Theorem buildFileTree_returns (rootName : text) (relativeFiles : list text) :
  (forall rel parts, In rel relativeFiles ->
     DecompilerService.parts_of rel = Some parts ->
     forall part, In part (removelast parts) ->
                  test DecompilerService.fileLike part = false) ->
  exists tree,
    DecompilerService.buildFileTree rootName relativeFiles = Some tree.
Proof.
  intros H. unfold DecompilerService.buildFileTree,
    DecompilerService.buildFileTree_index.
  destruct (add_files_ok relativeFiles
              [([], {| DecompilerService.node_name := rootName;
                       DecompilerService.node_isFile := false;
                       DecompilerService.node_children := Some [] |})])
    as (ix & -> & ((root & ch & G & C) & _)).
  - split.
    + eexists. eexists. split; reflexivity.
    + intros k node G Nk. simpl in G.
      destruct k; [contradiction|discriminate].
  - exact H.
  - destruct ix as [|entry ix]; [discriminate|].
    cbn [length DecompilerService.tree_of]. rewrite G. eauto.
Qed.

(** X17 at the files of a small project. *)
Lemma buildFileTree_returns_witness :
  exists tree,
    DecompilerService.buildFileTree (js "out")
      [js "A/B/Foo.cs"; js "Decompiled.csproj"] = Some tree.
Proof.
  apply buildFileTree_returns.
  intros rel parts [<-|[<-|[]]] E; vm_compute in E; injection E as <-;
    simpl; intros part I; repeat destruct I as [<-|I]; try destruct I;
    vm_compute; reflexivity.
Defined.

Lemma add_part_present (ix : DecompilerService.Index) (curPath part : text)
  (last : bool) :
  DecompilerService.index_get ix (next_path curPath part) <> None ->
  DecompilerService.add_part ix curPath part last
  = Some (ix, next_path curPath part).
Proof.
  intros H. unfold DecompilerService.add_part.
  fold (next_path curPath part).
  destruct (DecompilerService.index_get ix (next_path curPath part));
    [reflexivity|congruence].
Qed.

Lemma add_part_keeps (ix ix' : DecompilerService.Index)
  (curPath part next : text) (last : bool) :
  DecompilerService.add_part ix curPath part last = Some (ix', next) ->
  next = next_path curPath part
  /\ DecompilerService.index_get ix' next <> None
  /\ forall k, DecompilerService.index_get ix k <> None ->
               DecompilerService.index_get ix' k <> None.
Proof.
  unfold DecompilerService.add_part. fold (next_path curPath part).
  destruct (DecompilerService.index_get ix (next_path curPath part)) eqn:G.
  - intros H; injection H as <- <-. rewrite G. repeat split; auto.
    discriminate.
  - destruct (DecompilerService.index_get ix curPath) as [cur|];
      [|discriminate].
    destruct (DecompilerService.node_children cur); [|discriminate].
    intros H; injection H as <- <-. split; [reflexivity|].
    split; [rewrite index_get_set, text_eqb_refl; discriminate|].
    intros k Hk. rewrite !index_get_set.
    destruct (text_eqb _ k); [discriminate|].
    destruct (text_eqb _ k); [discriminate|exact Hk].
Qed.

Lemma add_parts_noop :
  forall parts ix curPath,
  (forall k, In k (paths_of curPath parts) ->
             DecompilerService.index_get ix k <> None) ->
  DecompilerService.add_parts ix curPath parts = Some ix.
Proof.
  induction parts as [|part rest IH]; intros ix curPath H; [reflexivity|].
  cbn [DecompilerService.add_parts paths_of] in *.
  fold (next_path curPath part) in H.
  rewrite add_part_present by (apply H; simpl; auto).
  apply IH. intros k I. apply H. simpl. auto.
Qed.

Lemma add_parts_keeps :
  forall parts ix ix' curPath,
  DecompilerService.add_parts ix curPath parts = Some ix' ->
  (forall k, In k (paths_of curPath parts) ->
             DecompilerService.index_get ix' k <> None)
  /\ forall k, DecompilerService.index_get ix k <> None ->
               DecompilerService.index_get ix' k <> None.
Proof.
  induction parts as [|part rest IH]; intros ix ix' curPath H.
  - injection H as <-. split; [intros k []|auto].
  - cbn [DecompilerService.add_parts paths_of] in *.
    fold (next_path curPath part).
    destruct (DecompilerService.add_part ix curPath part _)
      as [[ix1 next]|] eqn:E; [|discriminate].
    apply add_part_keeps in E as (-> & G & K).
    apply IH in H as (P & K'). split.
    + intros k [<-|I]; [apply K'; exact G|apply P; exact I].
    + intros k Hk. apply K', K. exact Hk.
Qed.

Lemma add_files_keeps :
  forall files ix ix',
  DecompilerService.add_files ix files = Some ix' ->
  (forall rel, In rel files ->
     exists parts,
       DecompilerService.parts_of rel = Some parts
       /\ forall k, In k (paths_of [] parts) ->
                    DecompilerService.index_get ix' k <> None)
  /\ forall k, DecompilerService.index_get ix k <> None ->
               DecompilerService.index_get ix' k <> None.
Proof.
  induction files as [|rel rest IH]; intros ix ix' H.
  - injection H as <-. split; [intros rel []|auto].
  - cbn [DecompilerService.add_files] in H.
    destruct (DecompilerService.parts_of rel) as [parts|] eqn:E;
      [|discriminate].
    destruct (DecompilerService.add_parts ix [] parts) as [ix1|] eqn:A;
      [|discriminate].
    apply add_parts_keeps in A as (P & K).
    apply IH in H as (F & K'). split.
    + intros rel' [<-|I]; [|apply F; exact I].
      exists parts. split; [exact E|]. intros k Ik. apply K', P. exact Ik.
    + intros k Hk. apply K', K. exact Hk.
Qed.

Lemma add_files_noop :
  forall extra ix,
  (forall rel, In rel extra ->
     exists parts,
       DecompilerService.parts_of rel = Some parts
       /\ forall k, In k (paths_of [] parts) ->
                    DecompilerService.index_get ix k <> None) ->
  DecompilerService.add_files ix extra = Some ix.
Proof.
  induction extra as [|rel rest IH]; intros ix H; [reflexivity|].
  cbn [DecompilerService.add_files].
  destruct (H rel) as (parts & -> & P); [simpl; auto|].
  rewrite add_parts_noop by exact P.
  apply IH. intros rel' I. apply H. simpl. auto.
Qed.

Lemma add_files_app :
  forall files extra ix,
  DecompilerService.add_files ix (files ++ extra)
  = match DecompilerService.add_files ix files with
    | Some ix' => DecompilerService.add_files ix' extra
    | None => None
    end.
Proof.
  induction files as [|rel rest IH]; intros extra ix; [reflexivity|].
  cbn [app DecompilerService.add_files].
  destruct (DecompilerService.parts_of rel); [|reflexivity].
  destruct (DecompilerService.add_parts ix [] l); [apply IH|reflexivity].
Qed.

(** X18.  A path that [buildFileTree] has already seen changes nothing when
    it comes again: the tree of a list of files followed by files of that
    list is the tree of the list (and the one fails when the other does). *)
Theorem buildFileTree_repeated_files (rootName : text)
  (relativeFiles extra : list text) :
  incl extra relativeFiles ->
  DecompilerService.buildFileTree rootName (relativeFiles ++ extra)
  = DecompilerService.buildFileTree rootName relativeFiles.
Proof.
  intros I. unfold DecompilerService.buildFileTree,
    DecompilerService.buildFileTree_index.
  rewrite add_files_app.
  destruct (DecompilerService.add_files _ relativeFiles) as [ix|] eqn:E;
    [|reflexivity].
  apply add_files_keeps in E as (F & _).
  rewrite add_files_noop; [reflexivity|].
  intros rel Ir. apply F, I. exact Ir.
Qed.

(** X18 at a list with one file repeated. *)
Lemma buildFileTree_repeated_files_witness :
  DecompilerService.buildFileTree (js "out")
    ([js "A/Foo.cs"; js "B.cs"] ++ [js "A/Foo.cs"])
  = DecompilerService.buildFileTree (js "out") [js "A/Foo.cs"; js "B.cs"].
Proof.
  apply (buildFileTree_repeated_files (js "out")
           [js "A/Foo.cs"; js "B.cs"] [js "A/Foo.cs"]).
  intros rel [<-|[]]. simpl. auto.
Defined.

(** ** When nothing is found *)

Lemma startsWith_within (s w : text) (i : nat) :
  w <> [] -> startsWith (skipn i s) w = true -> i < length s.
Proof.
  intros N H. destruct (Nat.lt_ge_cases i (length s)) as [L|G]; [exact L|].
  rewrite skipn_all2 in H by exact G. destruct w; [congruence|discriminate].
Qed.

Lemma exec_first_none (R : RegExp) (s : text) :
  fst (exec R s 0) = None ->
  forall i e, i <= length s -> ~ Matches s (multiline R) (pattern R) i e.
Proof.
  unfold exec. simpl. rewrite Nat.sub_0_r.
  destruct (matchFrom s (multiline R) (pattern R) (length s) 0)
    as [[j y]|] eqn:E; [discriminate|].
  intros _ i e L M.
  apply (matchAt_complete _ _ _ _ _ M L).
  eapply matchFrom_none; [exact E|lia].
Qed.

Lemma exec_first_some (R : RegExp) (s : text) (mt : MatchResult) :
  fst (exec R s 0) = Some mt ->
  exists i e, Matches s (multiline R) (pattern R) i e.
Proof.
  destruct (exec R s 0) as [o l] eqn:E. simpl. intros ->.
  apply exec_some in E as (_ & _ & _ & _ & M). eauto.
Qed.

Lemma tokenize_loop_grows (s : text) :
  forall fuel lastIndex tokens r,
  Decompiler.tokenize_loop fuel s lastIndex tokens = Some r ->
  length tokens <= length (fst r).
Proof.
  induction fuel as [|fuel IH]; intros lastIndex tokens r H; [discriminate|].
  cbn [Decompiler.tokenize_loop] in H.
  destruct (exec Decompiler.nsRegex s lastIndex) as [[mt|] l].
  - apply IH in H. rewrite length_app in H. simpl in H. lia.
  - injection H as <-. simpl. lia.
Qed.

(** X19.  The tokenizer returns no token exactly when the declaration
    pattern (the word [namespace], whitespace, a dotted identifier, optional
    whitespace, a semicolon or an opening brace) matches nowhere in the
    text. *)
Theorem no_token_iff_no_declaration (s : text) :
  Decompiler.tokenize s = Some ([], 0)
  <-> forall i e,
        ~ Matches s (multiline Decompiler.nsRegex)
            (pattern Decompiler.nsRegex) i e.
Proof.
  unfold Decompiler.tokenize. cbn [Decompiler.tokenize_loop]. split.
  - intros H i e M.
    destruct (exec Decompiler.nsRegex s 0) as [[mt|] l] eqn:E.
    + apply tokenize_loop_grows in H. simpl in H. lia.
    + apply (exec_first_none Decompiler.nsRegex s) with (i := i) (e := e);
        [rewrite E; reflexivity| |exact M].
      apply nsRegex_length in M as (_ & P & _).
      apply startsWith_within in P; [lia|discriminate].
  - intros H. destruct (exec Decompiler.nsRegex s 0) as [[mt|] l] eqn:E.
    + exfalso. destruct (exec_first_some Decompiler.nsRegex s mt)
        as (i & e & M); [rewrite E; reflexivity|].
      apply (H i e M).
    + apply exec_none in E. subst l. reflexivity.
Qed.

Lemma map_set_not_empty (mp : Map) (k v : text) : map_set mp k v <> [].
Proof.
  destruct mp as [|[k0 v0] mp]; simpl; [|destruct (text_eqb k0 k)];
    discriminate.
Qed.

Lemma while_loop_not_empty (code : text) :
  forall fuel lastIndex result r,
  result <> [] ->
  DecompilerService.while_loop fuel code lastIndex result = Some r ->
  r <> [].
Proof.
  induction fuel as [|fuel IH]; intros lastIndex result r N H; [discriminate|].
  cbn [DecompilerService.while_loop] in H.
  destruct (exec DecompilerService.typeRegex code lastIndex) as [[mt|] l].
  - rewrite while_body_set_of in H. apply IH in H; [exact H|].
    apply map_set_not_empty.
  - injection H as <-. exact N.
Qed.

(** X20.  [_splitTypes] returns the empty mapping, on which its caller falls
    back to one file for the whole namespace, exactly when the declaration
    pattern of types matches nowhere in the text. *)
Theorem no_type_iff_no_declaration (code : text) :
  DecompilerService._splitTypes code = Some []
  <-> forall i e,
        ~ Matches code (multiline DecompilerService.typeRegex)
            (pattern DecompilerService.typeRegex) i e.
Proof.
  unfold DecompilerService._splitTypes. cbn [DecompilerService.while_loop].
  split.
  - intros H i e M.
    destruct (exec DecompilerService.typeRegex code 0) as [[mt|] l] eqn:E.
    + rewrite while_body_set_of in H.
      apply while_loop_not_empty in H; [congruence|apply map_set_not_empty].
    + apply (exec_first_none DecompilerService.typeRegex code)
        with (i := i) (e := e); [rewrite E; reflexivity| |exact M].
      apply typeRegex_keyword in M as (kw & j & I & P & Lj & _).
      apply startsWith_within in P; [lia|].
      unfold typeKeywords in I. simpl in I.
      destruct I as [<-|[<-|[<-|[<-|[<-|[]]]]]]; discriminate.
  - intros H.
    destruct (exec DecompilerService.typeRegex code 0) as [[mt|] l] eqn:E;
      [exfalso|reflexivity].
    destruct (exec_first_some DecompilerService.typeRegex code mt)
      as (i & e & M); [rewrite E; reflexivity|].
    apply (H i e M).
Qed.

(** ** Where a file-scoped extent starts *)

(** X21.  When the token loop is left, [nsRegex.lastIndex] is 0, whatever the
    text: the failed [exec] that ends the loop has reset it.  The turn of the
    partitioner for a file-scoped token therefore appends the text from
    offset 0 to the next token (or to the end of the text), not the text
    after the declaration. *)
Theorem file_scoped_extent_starts_at_zero (s : text) (tokens : list token)
  (lastIndex : nat) :
  Decompiler.tokenize s = Some (tokens, lastIndex) ->
  lastIndex = 0
  /\ forall i t next result cursor,
       kind t = file ->
       let nextIdx := match next with
                      | Some t' => index t'
                      | None => length s
                      end in
       Decompiler.for_body s lastIndex i t next (result, cursor)
       = (Decompiler.append
            (if (i =? 0) && (cursor <? index t)
             then Decompiler.append result global_key
                    (slice s cursor (index t))
             else result)
            (name t) (slice s 0 nextIdx),
          nextIdx).
Proof.
  intros H. destruct (tokenize_total s) as (tokens' & E).
  rewrite E in H. injection H as _ <-. split; [reflexivity|].
  intros i t next result cursor K. unfold Decompiler.for_body.
  rewrite K. reflexivity.
Qed.

(** X21 at the file-scoped example of the specification: the turn for [B]
    appends the whole text. *)
Lemma file_scoped_extent_starts_at_zero_witness :
  Decompiler.for_body (js "namespace A;\nfoo();\nnamespace B;\nbar();") 0 1
    {| index := 20; name := js "B"; kind := file |} None
    ([(js "A", js "namespace A;\nfoo();\n")], 20)
  = ([(js "A", js "namespace A;\nfoo();\n");
      (js "B", js "namespace A;\nfoo();\nnamespace B;\nbar();\n")], 39).
Proof.
  destruct (file_scoped_extent_starts_at_zero
              (js "namespace A;\nfoo();\nnamespace B;\nbar();")
              [ {| index := 0; name := js "A"; kind := file |};
                {| index := 20; name := js "B"; kind := file |} ] 0)
    as (_ & H); [vm_compute; reflexivity|].
  rewrite H by reflexivity. vm_compute. reflexivity.
Defined.

(** ** The nodes of the tree *)

(** X22.  When [buildFileTree] returns, its [index] holds a node for every
    path it was given and for every directory above it. *)
Theorem buildFileTree_index_complete (rootName : text)
  (relativeFiles : list text) (index : DecompilerService.Index) :
  DecompilerService.buildFileTree_index rootName relativeFiles = Some index ->
  DecompilerService.index_get index [] <> None
  /\ forall rel, In rel relativeFiles ->
       exists parts,
         DecompilerService.parts_of rel = Some parts
         /\ forall path, In path (paths_of [] parts) ->
                         DecompilerService.index_get index path <> None.
Proof.
  unfold DecompilerService.buildFileTree_index. intros H.
  apply add_files_keeps in H as (F & K). split; [|exact F].
  apply K. simpl. discriminate.
Qed.

(** X22 at two files below one directory. *)
Lemma buildFileTree_index_complete_witness :
  exists index,
    DecompilerService.buildFileTree_index (js "out")
      [js "A/Foo.cs"; js "A/Bar.cs"] = Some index
    /\ DecompilerService.index_get index (js "A") <> None
    /\ DecompilerService.index_get index (js "A/Bar.cs") <> None.
Proof.
  eexists. split; [vm_compute; reflexivity|].
  destruct (buildFileTree_index_complete (js "out")
              [js "A/Foo.cs"; js "A/Bar.cs"] _ eq_refl) as (_ & H).
  destruct (H (js "A/Bar.cs")) as (parts & E & P); [simpl; auto|].
  vm_compute in E. injection E as <-.
  split; apply P; simpl; auto.
Defined.

(** ** The delimiter of a token *)

Lemma m_plain (s : text) (mu : bool) (r : regex) :
  groups_of r = [] ->
  forall x c z, m s mu r x c = Some z ->
  exists y, c y = Some z /\ Matches s mu r (fst x) (fst y)
            /\ incl (snd y) (snd x).
Proof.
  intros G x c z H. apply m_groups_sound in H as (y & H & M & I).
  exists y. repeat split; auto. intros [n [a b]] J.
  apply I in J as [J|(r' & J & _)]; [exact J|]. rewrite G in J. destruct J.
Qed.

Lemma m_Seq_plain (s : text) (mu : bool) (r1 r2 : regex) :
  groups_of r1 = [] ->
  forall x c z, m s mu (Seq r1 r2) x c = Some z ->
  exists y, m s mu r2 y c = Some z /\ Matches s mu r1 (fst x) (fst y)
            /\ incl (snd y) (snd x).
Proof.
  intros G x c z H. exact (m_plain s mu r1 G x (fun y => m s mu r2 y c) z H).
Qed.

Lemma m_Group_plain (s : text) (mu : bool) (k : nat) (r : regex) :
  groups_of r = [] ->
  forall x c z, m s mu (Group k r) x c = Some z ->
  exists y, c (fst y, (k, (fst x, fst y)) :: snd y) = Some z
            /\ Matches s mu r (fst x) (fst y) /\ incl (snd y) (snd x).
Proof.
  intros G x c z H.
  exact (m_plain s mu r G x
           (fun y => c (fst y, (k, (fst x, fst y)) :: snd y)) z H).
Qed.

Lemma m_Seq_Group_plain (s : text) (mu : bool) (k : nat) (r1 r2 : regex) :
  groups_of r1 = [] ->
  forall x c z, m s mu (Seq (Group k r1) r2) x c = Some z ->
  exists y, m s mu r2 (fst y, (k, (fst x, fst y)) :: snd y) c = Some z
            /\ Matches s mu r1 (fst x) (fst y) /\ incl (snd y) (snd x).
Proof.
  intros G x c z H.
  exact (m_plain s mu r1 G x
           (fun y => m s mu r2 (fst y, (k, (fst x, fst y)) :: snd y) c) z H).
Qed.

(** One match of [nsRegex], piece by piece: the keyword, whitespace, the
    name in group 1, whitespace, the delimiter in group 2. *)
Lemma nsRegex_match_shape (s : text) (i : nat) (y : state) :
  matchAt s (multiline Decompiler.nsRegex) (pattern Decompiler.nsRegex) i
  = Some y ->
  exists a b e d,
    slice s i (i + 9) = js "namespace"
    /\ i + 9 < a
    /\ Forall (fun u => isSpace u = true) (slice s (i + 9) a)
    /\ dottedName (slice s a b) /\ a < b <= e
    /\ Forall (fun u => isSpace u = true) (slice s b e)
    /\ nth_error s e = Some d /\ (d = ch ";" \/ d = ch "{")
    /\ fst y = S e
    /\ capture 1 (snd y) = Some (a, b)
    /\ capture 2 (snd y) = Some (e, S e).
Proof.
  intros H0. pose proof H0 as H. unfold matchAt in H.
  cbv beta iota delta [Decompiler.nsRegex pattern multiline] in H.
  apply m_Seq_plain in H as ([p1 c1] & H & M1 & I1); [|reflexivity].
  apply m_Seq_plain in H as ([p2 c2] & H & M2 & I2); [|reflexivity].
  apply m_Seq_plain in H as ([p3 c3] & H & M3 & I3); [|reflexivity].
  apply m_Seq_Group_plain in H as ([p4 c4] & H & M4 & I4); [|reflexivity].
  apply m_Seq_plain in H as ([p5 c5] & H & M5 & I5); [|reflexivity].
  apply m_Group_plain in H as ([p6 c6] & H & M6 & I6); [|reflexivity].
  cbn [fst snd] in *. injection H as <-.
  inversion M1; subst. pose proof (Matches_lit_slice _ _ _ _ _ M2) as S2.
  apply Matches_lit in M2 as (-> & _).
  change (length (js "namespace")) with 9 in *.
  apply Matches_Plus_Chr in M3 as (L3 & F3).
  apply Matches_dottedName in M4 as (D4 & L4).
  pose proof (Matches_le _ _ _ _ _ M5) as L5.
  apply Matches_Star_Chr in M5.
  assert (exists d, p6 = S p5 /\ nth_error s p5 = Some d
                    /\ (d = ch ";" \/ d = ch "{")) as (d & -> & Ed & Dd).
  { apply Matches_Alt_inv in M6 as [M6|M6];
      apply Matches_Chr_inv in M6 as (-> & u & Eu & Pu);
      apply isChar_eq in Pu; subst u; eauto. }
  exists p3, p4, p5, d. repeat split; auto; try lia.
  pose proof (matchAt_captures _ _ _ _ 1 _ H0 eq_refl) as C.
  cbn [snd capture Nat.eqb] in C. cbn [snd capture Nat.eqb].
  destruct (capture 1 c6) as [[a' b']|] eqn:Q; [|congruence].
  apply capture_In, I6, I5 in Q. destruct Q as [Q|Q].
  - injection Q as <- <-. reflexivity.
  - apply I4, I3, I2, I1 in Q. destruct Q.
Qed.

Lemma slice_Forall_nth (P : char -> Prop) (s : text) (a b j : nat)
  (u : char) :
  Forall P (slice s a b) -> a <= j < b -> nth_error s j = Some u -> P u.
Proof.
  intros F L E. rewrite (slice_app s a j b) in F by lia.
  apply Forall_app in F as (_ & F).
  rewrite (slice_cons s j b u E) in F by lia.
  inversion F; auto.
Qed.

Lemma indexOf_at_first (c : char) :
  forall rest i k,
  nth_error rest k = Some c ->
  (forall j u, j < k -> nth_error rest j = Some u -> (u =? c)%N = false) ->
  indexOf_at c rest i = Some (i + k).
Proof.
  induction rest as [|x rest IH]; intros i k E B.
  - destruct k; discriminate.
  - simpl. destruct k as [|k].
    + simpl in E. injection E as ->. rewrite N.eqb_refl. f_equal. lia.
    + rewrite (B 0 x) by (simpl; auto; lia).
      rewrite (IH (S i) k); [f_equal; lia|exact E|].
      intros j u Hj. apply (B (S j)). lia.
Qed.

(** [s.indexOf(c, from)] is the first offset at or after [from] that holds
    [c]. *)
Lemma indexOf_first (s : text) (c : char) (from e : nat) :
  from <= e -> nth_error s e = Some c ->
  (forall j u, from <= j < e -> nth_error s j = Some u ->
               (u =? c)%N = false) ->
  indexOf s c from = Some e.
Proof.
  intros L E B. unfold indexOf.
  rewrite (indexOf_at_first c (skipn from s) from (e - from)).
  - f_equal. lia.
  - rewrite nth_error_skipn. replace (from + (e - from)) with e by lia.
    exact E.
  - intros j u Hj. rewrite nth_error_skipn. apply B. lia.
Qed.

Lemma isSpace_not_brace (u : char) :
  isSpace u = true -> (u =? ch "{")%N = false.
Proof.
  intros H. destruct (u =? ch "{")%N eqn:Q; [|reflexivity].
  apply N.eqb_eq in Q. subst u. vm_compute in H. discriminate.
Qed.

Lemma dottedPart_not_brace (u : char) :
  dottedPart u = true -> (u =? ch "{")%N = false.
Proof.
  intros H. destruct (u =? ch "{")%N eqn:Q; [|reflexivity].
  apply N.eqb_eq in Q. subst u. vm_compute in H. discriminate.
Qed.

Lemma identStart_not_brace (u : char) :
  identStart u = true -> (u =? ch "{")%N = false.
Proof.
  intros H. destruct (u =? ch "{")%N eqn:Q; [|reflexivity].
  apply N.eqb_eq in Q. subst u. vm_compute in H. discriminate.
Qed.

(** What one match of [nsRegex] puts into its token, and where. *)
Lemma token_of_shape (s : text) (lastIndex lastIndex' : nat)
  (mt : MatchResult) :
  exec Decompiler.nsRegex s lastIndex = (Some mt, lastIndex') ->
  let t := Decompiler.token_of s mt in
  exists a e,
    slice s (index t) (index t + 9) = js "namespace"
    /\ index t + 9 < a
    /\ Forall (fun u => isSpace u = true) (slice s (index t + 9) a)
    /\ name t = slice s a (a + length (name t))
    /\ a + length (name t) <= e
    /\ Forall (fun u => isSpace u = true) (slice s (a + length (name t)) e)
    /\ nth_error s e = Some (match kind t with
                             | file => ch ";"
                             | block => ch "{"
                             end)
    /\ lastIndex' = S e
    /\ (kind t = block -> indexOf s (ch "{") (index t) = Some e).
Proof.
  intros E. cbv zeta. unfold exec in E.
  destruct (length s <? lastIndex); [discriminate|].
  destruct (matchFrom s (multiline Decompiler.nsRegex)
              (pattern Decompiler.nsRegex) (length s - lastIndex) lastIndex)
    as [[i y]|] eqn:F; [|discriminate].
  injection E as <- <-.
  apply matchFrom_sound in F as (_ & _ & A & _).
  destruct (nsRegex_match_shape s i y A)
    as (a & b & e & d & S1 & L1 & F1 & D & L2 & F2 & Ed & Dd & Ey & C1 & C2).
  assert (e < length s) as Le by (apply nth_error_Some; congruence).
  unfold Decompiler.token_of, group. cbn [match_caps match_index index name
                                            kind]. rewrite C1, C2.
  assert (length (slice s a b) = b - a) as Lg by (apply length_slice; lia).
  rewrite Lg. rewrite (slice_cons s e (S e) d Ed) by lia.
  rewrite (slice_empty s (S e) (S e)) by lia.
  assert (Forall (fun u => (u =? ch "{")%N = false) (slice s i e)) as NB.
  { rewrite (slice_app s i (i + 9) e) by lia.
    rewrite (slice_app s (i + 9) a e) by lia.
    rewrite (slice_app s a b e) by lia. rewrite S1.
    repeat (apply Forall_app; split).
    - repeat constructor.
    - eapply Forall_impl; [|exact F1]. apply isSpace_not_brace.
    - destruct D as (c & rest & -> & Pc & Pr). constructor.
      + apply identStart_not_brace; exact Pc.
      + eapply Forall_impl; [|exact Pr]. apply dottedPart_not_brace.
    - eapply Forall_impl; [|exact F2]. apply isSpace_not_brace. }
  exists a, e. replace (a + (b - a)) with b by lia.
  repeat split; auto; try lia.
  - destruct Dd as [-> | ->]; exact Ed.
  - destruct Dd as [-> | ->]; [discriminate|]. intros _.
    apply indexOf_first; [lia|exact Ed|].
    intros j u Hj Eu.
    exact (slice_Forall_nth _ s i e j u NB Hj Eu).
Qed.

(** X4.  The kind of a token is the delimiter that the text has right after
    the declaration: behind the keyword there is whitespace, then the name,
    then whitespace only up to a semicolon for a file-scoped token and up to
    an opening brace for a block token.  For a block token that brace is
    what [text.indexOf('{', t.index)] finds, so the result is never [-1] and
    the [continue] of the partitioner is never taken. *)
Theorem tokens_kind (s : text) (tokens : list token) (lastIndex : nat) :
  Decompiler.tokenize s = Some (tokens, lastIndex) ->
  Forall (fun t =>
            exists a e,
              slice s (index t) (index t + 9) = js "namespace"
              /\ index t + 9 < a
              /\ Forall (fun u => isSpace u = true)
                   (slice s (index t + 9) a)
              /\ name t = slice s a (a + length (name t))
              /\ a + length (name t) <= e
              /\ Forall (fun u => isSpace u = true)
                   (slice s (a + length (name t)) e)
              /\ nth_error s e = Some (match kind t with
                                       | file => ch ";"
                                       | block => ch "{"
                                       end)
              /\ (kind t = block ->
                  indexOf s (ch "{") (index t) = Some e))
    tokens.
Proof.
  intros H.
  apply (tokenize_loop_Forall _ s) with (tokens := []) (fuel := S (length s))
    (lastIndex := 0) (r := (tokens, lastIndex)); [|constructor|exact H].
  intros li li' mt E. pose proof (token_of_shape s li li' mt E) as T.
  cbv zeta in T.
  destruct T as (a & e & T1 & T2 & T3 & T4 & T5 & T6 & T7 & _ & T8).
  exists a, e. repeat split; auto.
Qed.

(** X4 at a text with a file-scoped declaration and a block declaration
    whose body holds a semicolon. *)
Lemma tokens_kind_witness :
  exists tokens,
    Decompiler.tokenize (js "namespace A;\nnamespace B.C { x; }")
    = Some (tokens, 0)
    /\ map kind tokens = [file; block]
    /\ Forall (fun t =>
                 exists a e,
                   slice (js "namespace A;\nnamespace B.C { x; }")
                     (index t) (index t + 9) = js "namespace"
                   /\ index t + 9 < a
                   /\ Forall (fun u => isSpace u = true)
                        (slice (js "namespace A;\nnamespace B.C { x; }")
                           (index t + 9) a)
                   /\ name t
                      = slice (js "namespace A;\nnamespace B.C { x; }") a
                          (a + length (name t))
                   /\ a + length (name t) <= e
                   /\ Forall (fun u => isSpace u = true)
                        (slice (js "namespace A;\nnamespace B.C { x; }")
                           (a + length (name t)) e)
                   /\ nth_error (js "namespace A;\nnamespace B.C { x; }") e
                      = Some (match kind t with
                              | file => ch ";"
                              | block => ch "{"
                              end)
                   /\ (kind t = block ->
                       indexOf (js "namespace A;\nnamespace B.C { x; }")
                         (ch "{") (index t) = Some e)) tokens.
Proof.
  eexists. split; [vm_compute; reflexivity|]. split; [reflexivity|].
  apply (tokens_kind (js "namespace A;\nnamespace B.C { x; }") _ 0).
  vm_compute. reflexivity.
Defined.
